(** * rag-example: the RAG engine of [rag_engine.go], embedded in Rocq

    The development follows the Go source function by function.  Go
    strings are byte sequences and are modelled by [string] (a sequence
    of 8-bit [ascii] characters); Go's [int] is a 64-bit two's-complement
    integer, modelled by [Z] with the wrap-around written out; [float32]
    is IEEE 754 binary32, modelled by [spec_float] at precision 24 and
    maximal exponent 128, every operation rounded on its own (what the
    Go compiler emits where it does not fuse a multiplication with an
    addition).  Calls to the two injected collaborators and to the
    logger are events of a small free monad which is run against
    arbitrary collaborators.  The clients of [main.go] follow: the
    mocks of the demonstration mode, and of the live clients what does
    not go through the Milvus library. *)

From Stdlib Require Import ZArith List Bool Ascii String DecimalString Lia.
From Stdlib Require Import Reals Lra.
From Stdlib Require Import Floats.SpecFloat.
Import ListNotations.

Local Open Scope string_scope.
Local Open Scope list_scope.
Local Open Scope Z_scope.

(** ** Go strings *)

Module GoString.

Definition byte_is (c : ascii) (n : N) : bool := N.eqb (N_of_ascii c) n.

Definition nl : string := String "010"%char EmptyString.
Definition dquote : string := String "034"%char EmptyString.

(** [len(s)] *)
Definition len (s : string) : Z := Z.of_nat (String.length s).

(** [s[lo:hi]]; [None] is the run-time panic of an out-of-range slice. *)
Definition slice (s : string) (lo hi : Z) : option string :=
  if (0 <=? lo) && (lo <=? hi) && (hi <=? len s)
  then Some (substring (Z.to_nat lo) (Z.to_nat (hi - lo)) s)
  else None.

(** [strings.LastIndex(s, sep)] for a one-byte separator: the index of
    the last occurrence of the byte, or -1. *)
Fixpoint LastIndex_from (i acc : Z) (s : string) (sep : ascii) : Z :=
  match s with
  | EmptyString => acc
  | String c s' =>
      LastIndex_from (i + 1) (if Ascii.eqb c sep then i else acc) s' sep
  end.

Definition LastIndex (s : string) (sep : ascii) : Z :=
  LastIndex_from 0 (-1) s sep.

Fixpoint rev_append (s acc : string) : string :=
  match s with
  | EmptyString => acc
  | String c s' => rev_append s' (String c acc)
  end.

Definition rev (s : string) : string := rev_append s EmptyString.

(** The bytes [strings.TrimSpace] removes on its ASCII path:
    tab, newline, vertical tab, form feed, carriage return, space. *)
Definition asciiSpace (c : ascii) : bool :=
  byte_is c 9 || byte_is c 10 || byte_is c 11 || byte_is c 12
  || byte_is c 13 || byte_is c 32.

(** The runes above U+007F for which [unicode.IsSpace] holds, by their
    (unique, shortest-form) UTF-8 encodings: U+0085 and U+00A0 on two
    bytes; U+1680, U+2000..U+200A, U+2028, U+2029, U+202F, U+205F and
    U+3000 on three. *)
Definition space2 (b1 b2 : ascii) : bool :=
  byte_is b1 194 && (byte_is b2 133 || byte_is b2 160).

Definition space3 (b1 b2 b3 : ascii) : bool :=
  (byte_is b1 225 && byte_is b2 154 && byte_is b3 128)
  || (byte_is b1 226 && byte_is b2 128
      && ((N.leb 128 (N_of_ascii b3) && N.leb (N_of_ascii b3) 138)
          || byte_is b3 168 || byte_is b3 169 || byte_is b3 175))
  || (byte_is b1 226 && byte_is b2 129 && byte_is b3 159)
  || (byte_is b1 227 && byte_is b2 128 && byte_is b3 128).

(** Leading white space: runes are decoded from the front and dropped
    while they are white space. *)
Fixpoint TrimLeftSpace (s : string) : string :=
  match s with
  | EmptyString => EmptyString
  | String b1 s1 =>
      if asciiSpace b1 then TrimLeftSpace s1 else
      match s1 with
      | EmptyString => s
      | String b2 s2 =>
          if space2 b1 b2 then TrimLeftSpace s2 else
          match s2 with
          | EmptyString => s
          | String b3 s3 =>
              if space3 b1 b2 b3 then TrimLeftSpace s3 else s
          end
      end
  end.

(** Trailing white space, on the reversed string: the last rune is
    decoded at the (reversed) front, its bytes in reverse order. *)
Fixpoint TrimLeftSpace_rev (r : string) : string :=
  match r with
  | EmptyString => EmptyString
  | String b1 r1 =>
      if asciiSpace b1 then TrimLeftSpace_rev r1 else
      match r1 with
      | EmptyString => r
      | String b2 r2 =>
          if space2 b2 b1 then TrimLeftSpace_rev r2 else
          match r2 with
          | EmptyString => r
          | String b3 r3 =>
              if space3 b3 b2 b1 then TrimLeftSpace_rev r3 else r
          end
      end
  end.

Definition TrimRightSpace (s : string) : string :=
  rev (TrimLeftSpace_rev (rev s)).

(** [strings.TrimSpace]: leading, then trailing white space removed. *)
Definition TrimSpace (s : string) : string :=
  TrimRightSpace (TrimLeftSpace s).

(** [strings.Contains(s, sub)] *)
Definition ContainsB (s sub : string) : bool :=
  match index 0 sub s with Some _ => true | None => false end.

(** [sub] occurs in [s]. *)
Definition Contains (s sub : string) : Prop :=
  exists pre post, s = (pre ++ sub ++ post)%string.

End GoString.

(** ** Go's [int] *)

Module GoInt.

Definition wrap (z : Z) : Z := (z + 2 ^ 63) mod 2 ^ 64 - 2 ^ 63.
Definition add (a b : Z) : Z := wrap (a + b).
Definition sub (a b : Z) : Z := wrap (a - b).
(** [a / b] truncates towards zero. *)
Definition div (a b : Z) : Z := wrap (Z.quot a b).

End GoInt.

(** ** ChunkText *)

Module Chunker.
Import GoString.

(** What one pass through the body of the [for] loop does. *)
Inductive iteration : Type :=
| Continue (start : Z) (chunks : list string)
| Break (chunks : list string)
| Panic.

(** What a call does, when it comes back. *)
Inductive outcome : Type :=
| Return (chunks : list string)
| Panics.

(** Lines 137-148: the chunk and its end after the search for a
    sentence boundary; [None] when re-slicing panics. *)
Definition boundary (text : string) (chunkSize start end_ : Z)
           (chunk : string) : option (string * Z) :=
  if end_ <? len text then
    let lastPeriod := LastIndex chunk "."%char in
    let lastNewline := LastIndex chunk "010"%char in
    let lastBreak :=
      if lastNewline >? lastPeriod then lastNewline else lastPeriod in
    if lastBreak >? GoInt.add start (GoInt.div chunkSize 2) then
      match slice chunk 0 (GoInt.add lastBreak 1) with
      | Some chunk' => Some (chunk', GoInt.add start (len chunk'))
      | None => None
      end
    else Some (chunk, end_)
  else Some (chunk, end_).

(** Lines 131-160: the loop body, entered with [start < len(text)]. *)
Definition ChunkText_body (text : string) (chunkSize overlap : Z)
           (start : Z) (chunks : list string) : iteration :=
  let end_ := GoInt.add start chunkSize in
  let end_ := if end_ >? len text then len text else end_ in
  match slice text start end_ with
  | None => Panic
  | Some chunk =>
      match boundary text chunkSize start end_ chunk with
      | None => Panic
      | Some (chunk, end_) =>
          let chunk := TrimSpace chunk in
          let chunks :=
            if String.eqb chunk "" then chunks else chunks ++ [chunk] in
          if end_ =? len text then Break chunks else
          let start := GoInt.sub end_ overlap in
          let start := if start <? 0 then 0 else start in
          Continue start chunks
      end
  end.

(** The [for start < len(text)] loop; [None] when [fuel] passes
    through the body were not enough. *)
Fixpoint ChunkText_loop (fuel : nat) (text : string)
         (chunkSize overlap : Z) (start : Z) (chunks : list string)
  : option outcome :=
  if start <? len text then
    match fuel with
    | O => None
    | S fuel' =>
        match ChunkText_body text chunkSize overlap start chunks with
        | Panic => Some Panics
        | Break chunks' => Some (Return chunks')
        | Continue start' chunks' =>
            ChunkText_loop fuel' text chunkSize overlap start' chunks'
        end
    end
  else Some (Return chunks).

Definition ChunkText (fuel : nat) (text : string) (chunkSize overlap : Z)
  : option outcome :=
  ChunkText_loop fuel text chunkSize overlap 0 [].

End Chunker.

(** ** float32 *)

Module Float32.

Definition prec : Z := 24.
Definition emax : Z := 128.

Definition float32 : Type := spec_float.

Definition add : float32 -> float32 -> float32 := SFadd prec emax.
Definition mul : float32 -> float32 -> float32 := SFmul prec emax.
Definition div : float32 -> float32 -> float32 := SFdiv prec emax.

Definition ltb : float32 -> float32 -> bool := SFltb.
Definition leb : float32 -> float32 -> bool := SFleb.
(** [x > y] and [x >= y] *)
Definition gtb (x y : float32) : bool := ltb y x.
Definition geb (x y : float32) : bool := leb y x.

(** [float32(n)] for an integer [n] *)
Definition of_int (n : Z) : float32 := binary_normalize prec emax n 0 false.

(** The constant [num/den] converted to [float32]: the quotient of two
    exactly represented integers, rounded once. *)
Definition decimal (num den : Z) : float32 := div (of_int num) (of_int den).

Definition zero : float32 := S754_zero false.
Definition f0_1 : float32 := Eval vm_compute in decimal 1 10.
Definition f0_2 : float32 := Eval vm_compute in decimal 2 10.
Definition f0_3 : float32 := Eval vm_compute in decimal 3 10.
Definition f0_4 : float32 := Eval vm_compute in decimal 4 10.
Definition f0_5 : float32 := Eval vm_compute in decimal 5 10.
Definition f0_6 : float32 := Eval vm_compute in decimal 6 10.
Definition f0_7 : float32 := Eval vm_compute in decimal 7 10.
Definition f0_8 : float32 := Eval vm_compute in decimal 8 10.
Definition f0_9 : float32 := Eval vm_compute in decimal 9 10.
Definition f1 : float32 := Eval vm_compute in of_int 1.
Definition f3 : float32 := Eval vm_compute in of_int 3.
Definition f4 : float32 := Eval vm_compute in of_int 4.
Definition f5 : float32 := Eval vm_compute in of_int 5.
Definition f6 : float32 := Eval vm_compute in of_int 6.
Definition f7 : float32 := Eval vm_compute in of_int 7.
Definition f8 : float32 := Eval vm_compute in of_int 8.
Definition f9 : float32 := Eval vm_compute in of_int 9.
Definition f10 : float32 := Eval vm_compute in of_int 10.
Definition f100 : float32 := Eval vm_compute in of_int 100.

(** A well-formed binary32 datum. *)
Definition valid (x : float32) : bool := valid_binary prec emax x.

End Float32.

(** ** What binary32 arithmetic computes, in the reals

    The operations of [Float32] are those of [SpecFloat]; the notions
    below say which real number a datum stands for and what it means for
    a datum to be a real rounded to nearest, ties to even. *)

Module Binary32.
Import Float32.

Definition pow2 (e : Z) : R := powerRZ 2 e.

Definition fexp32 (e : Z) : Z := fexp prec emax e.

(** [x] lies at location [l] of the unit interval that starts at [m]. *)
Definition located (m : Z) (l : location) (x : R) : Prop :=
  match l with
  | loc_Exact => x = IZR m
  | loc_Inexact c =>
      (IZR m < x < IZR m + 1)%R
      /\ match c with
         | Lt => (2 * x < 2 * IZR m + 1)%R
         | Eq => (2 * x = 2 * IZR m + 1)%R
         | Gt => (2 * x > 2 * IZR m + 1)%R
         end
  end.

(** [v] lies at location [l] of the interval from [m * 2^e] to [(m+1) * 2^e]. *)
Definition repr (m e : Z) (l : location) (v : R) : Prop :=
  located m l (v * pow2 (- e)).

(** [2^(k-1) <= v < 2^k] *)
Definition binade (v : R) (k : Z) : Prop :=
  (pow2 (k - 1) <= v < pow2 k)%R.

(** What a shift record says about [v], read at exponent [e]. *)
Definition tracks (v : R) (mrs : shr_record) (e : Z) : Prop :=
  0 <= shr_m mrs /\ repr (shr_m mrs) e (loc_of_shr_record mrs) v.

Definition canonical (m e : Z) : Prop := fexp32 (Zdigits2 m + e) = e.

(** The float of a mantissa and exponent computed by rounding. *)
Definition pack (m e : Z) : spec_float :=
  match m with
  | Z0 => S754_zero false
  | Zpos p =>
      if e <=? emax - prec then S754_finite false p e
      else S754_infinity false
  | Zneg _ => S754_nan
  end.

(** [r] is [v], of binade [k], rounded to the nearest multiple of
    [2 ^ fexp k], ties to even. *)
Definition rounded (v : R) (k : Z) (r : R) : Prop :=
  exists m l,
    0 <= m /\ repr m (fexp32 k) l v
    /\ r = (IZR (round_nearest_even m l) * pow2 (fexp32 k))%R.

(** [x] is the binary32 datum nearest to the positive real [v]. *)
Definition Rnd (v : R) (x : spec_float) : Prop :=
  exists k r m e,
    binade v k /\ rounded v k r
    /\ r = (IZR m * pow2 e)%R /\ 0 <= m /\ (m = 0 \/ canonical m e)
    /\ x = pack m e.

(** Non-negative data: zeros, canonical positive numbers, plus infinity. *)
Definition NN (x : spec_float) : Prop :=
  match x with
  | S754_zero _ => True
  | S754_infinity s => s = false
  | S754_nan => False
  | S754_finite s m e => s = false /\ canonical (Zpos m) e /\ e <= emax - prec
  end.

(** The value of a non-negative datum; [None] is plus infinity. *)
Definition ev (x : spec_float) : option R :=
  match x with
  | S754_infinity _ => None
  | S754_finite _ m e => Some (IZR (Zpos m) * pow2 e)%R
  | _ => Some 0%R
  end.

Definition le_opt (u u' : option R) : Prop :=
  match u, u' with
  | _, None => True
  | None, Some _ => False
  | Some v, Some v' => (v <= v')%R
  end.

(** [x] is what the exact result [u] is rounded to. *)
Definition Sem (u : option R) (x : spec_float) : Prop :=
  match u with
  | None => x = S754_infinity false
  | Some v =>
      (v = 0%R /\ exists s, x = S754_zero s) \/ ((0 < v)%R /\ Rnd v x)
  end.

(** A positive, finite constant. *)
Definition positive_const (c : spec_float) : Prop :=
  match c with
  | S754_finite false m e => canonical (Zpos m) e /\ e <= emax - prec
  | _ => False
  end.

Definition cval (c : spec_float) : R :=
  match c with
  | S754_finite _ m e => (IZR (Zpos m) * pow2 e)%R
  | _ => 0%R
  end.

Definition omul (u : option R) (c : R) : option R :=
  match u with Some v => Some (v * c)%R | None => None end.

Definition odiv (u : option R) (c : R) : option R :=
  match u with Some v => Some (v / c)%R | None => None end.

Definition oadd (u u' : option R) : option R :=
  match u, u' with
  | Some v, Some v' => Some (v + v')%R
  | _, _ => None
  end.

(** [x <= y] between non-negative data. *)
Definition fle (x y : spec_float) : Prop :=
  NN x /\ NN y /\ SFleb x y = true.

End Binary32.

(** ** The data model *)

Import Float32.

Record Message : Type := { Role : string; Content : string }.

Record Document : Type :=
  { Text : string; Source : string; Similarity : float32 }.

(** ** The relevance scorer *)

Module Scorer.

Definition getRelevanceCategory (similarity : float32) : string :=
  if geb similarity f0_9 then "Excellent Match"
  else if geb similarity f0_8 then "Very Relevant"
  else if geb similarity f0_7 then "Relevant"
  else if geb similarity f0_6 then "Moderately Relevant"
  else if geb similarity f0_5 then "Somewhat Relevant"
  else if geb similarity f0_4 then "Low Relevance"
  else "Poor Match".

Definition weights : list float32 := [f0_5; f0_3; f0_2].

(** Lines 204-215: the [range] loop, entered at index [i] with the
    running [totalScore]. *)
Fixpoint score_loop (i : Z) (docs : list Document) (totalScore : float32)
  : float32 :=
  match docs with
  | [] => totalScore
  | doc :: rest =>
      let weight :=
        if i <? Z.of_nat (List.length weights)
        then nth (Z.to_nat i) weights f1
        else f0_1 in
      let score := mul (mul (Similarity doc) weight) f10 in
      score_loop (i + 1) rest (add totalScore score)
  end.

Definition calculateQualityScore (docs : list Document) : float32 :=
  if Z.of_nat (List.length docs) =? 0 then zero else
  let totalScore := score_loop 0 docs zero in
  let maxPossibleScore :=
    if Z.of_nat (List.length docs) =? 1 then f5
    else if Z.of_nat (List.length docs) =? 2 then f8
    else f10 in
  let qualityScore := mul (div totalScore maxPossibleScore) f10 in
  if gtb qualityScore f10 then f10 else qualityScore.

Definition getQualityDescription (score : float32) : string :=
  if geb score f9 then "Exceptional"
  else if geb score f8 then "Excellent"
  else if geb score f7 then "Very Good"
  else if geb score f6 then "Good"
  else if geb score f5 then "Fair"
  else if geb score f4 then "Below Average"
  else if geb score f3 then "Poor"
  else "Very Poor".

(** *** The score as the specification words it *)

(** Positional weight of the document of rank [rank] (from 0). *)
Definition positional_weight (rank : nat) : float32 :=
  match rank with
  | 0%nat => f0_5
  | 1%nat => f0_3
  | 2%nat => f0_2
  | _ => f0_1
  end.

Definition contribution (rank : nat) (doc : Document) : float32 :=
  mul (mul (Similarity doc) (positional_weight rank)) f10.

Fixpoint contributions_from (rank : nat) (docs : list Document)
  : list float32 :=
  match docs with
  | [] => []
  | doc :: rest => contribution rank doc :: contributions_from (S rank) rest
  end.

(** The sum of the contributions, in input order. *)
Definition contribution_sum (docs : list Document) : float32 :=
  fold_left add (contributions_from 0 docs) zero.

Definition denominator (count : nat) : float32 :=
  match count with
  | 1%nat => f5
  | 2%nat => f8
  | _ => f10
  end.

Definition clamp10 (x : float32) : float32 :=
  if gtb x f10 then f10 else x.

(** The sum divided by the denominator, clamped: the specification's
    sentence read literally. *)
Definition qualityScore_as_worded (docs : list Document) : float32 :=
  match docs with
  | [] => zero
  | _ => clamp10 (div (contribution_sum docs) (denominator (List.length docs)))
  end.

(** The same with the quotient brought to the 0-10 scale. *)
Definition qualityScore_scaled (docs : list Document) : float32 :=
  match docs with
  | [] => zero
  | _ => clamp10
           (mul (div (contribution_sum docs) (denominator (List.length docs)))
                f10)
  end.

(** *** The similarities of the data model *)

(** A well-formed binary32 datum between 0 and 1. *)
Definition unit_similarity (x : float32) : Prop :=
  valid x = true /\ leb zero x = true /\ leb x f1 = true.

Definition unit_similarities (docs : list Document) : Prop :=
  Forall (fun d => unit_similarity (Similarity d)) docs.

(** Two lists of documents, the similarities of the first below those
    of the second, document by document. *)
Definition similarities_le (docs docs' : list Document) : Prop :=
  Forall2 (fun d d' => Binary32.fle (Similarity d) (Similarity d'))
          docs docs'.

(** The document of the tests, with a given similarity. *)
Definition cats (similarity : float32) : Document :=
  {| Text := "info about cats"; Source := "src"; Similarity := similarity |}.

End Scorer.

(** ** The verbs of [fmt] the engine uses *)

Module Fmt.

(** [%d] *)
Definition format_d (n : Z) : string := NilZero.string_of_int (Z.to_int n).

(** [num/den] rounded to the nearest integer, ties to even. *)
Definition round_half_even (num den : Z) : Z :=
  let q := num / den in
  match 2 * (num mod den) ?= den with
  | Lt => q
  | Eq => if Z.even q then q else q + 1
  | Gt => q + 1
  end.

Definition sign (s : bool) : string := if s then "-" else "".

(** [%.1f] of a [float32]: the exact value rounded to one decimal. *)
Definition format_f1 (x : float32) : string :=
  match x with
  | S754_nan => "NaN"
  | S754_infinity s => if s then "-Inf" else "+Inf"
  | S754_zero s => sign s ++ "0.0"
  | S754_finite s m e =>
      let tenths :=
        match e with
        | Zneg p => round_half_even (Zpos m * 10) (2 ^ Zpos p)
        | _ => Zpos m * 2 ^ e * 10
        end in
      sign s ++ format_d (tenths / 10) ++ "." ++ format_d (tenths mod 10)
  end%string.

End Fmt.

(** ** Programs that call the collaborators *)

Section Programs.

(** Go's [error] values. *)
Context {error : Type}.

Inductive LogArg : Type :=
| ArgString (s : string)
| ArgInt (n : Z)
| ArgFloat32 (x : float32)
| ArgError (e : error).

(** A call of the standard logger, its arguments not yet rendered. *)
Inductive LogLine : Type :=
| Printf (format : string) (args : list LogArg)
| Println (args : list LogArg).

(** A method body of the engine: it returns, panics, or calls out
    through one of the engine's two references (or the logger) and goes
    on with the answer. *)
Inductive Prog (A : Type) : Type :=
| Ret (a : A)
| Abort
| CallInsertDocuments (texts sources : list string) (k : bool -> Prog A)
| CallSearchSimilar (query : string) (limit : Z)
                    (k : list Document -> Prog A)
| CallChatCompletion (model : string) (messages : list Message)
                     (k : string * option error -> Prog A)
| Log (line : LogLine) (k : Prog A).

Arguments Ret {A} a.
Arguments Abort {A}.
Arguments CallInsertDocuments {A} texts sources k.
Arguments CallSearchSimilar {A} query limit k.
Arguments CallChatCompletion {A} model messages k.
Arguments Log {A} line k.

Fixpoint bind {A B : Type} (p : Prog A) (f : A -> Prog B) : Prog B :=
  match p with
  | Ret a => f a
  | Abort => Abort
  | CallInsertDocuments texts sources k =>
      CallInsertDocuments texts sources (fun b => bind (k b) f)
  | CallSearchSimilar query limit k =>
      CallSearchSimilar query limit (fun ds => bind (k ds) f)
  | CallChatCompletion model messages k =>
      CallChatCompletion model messages (fun r => bind (k r) f)
  | Log line k => Log line (bind k f)
  end.

Definition log_Printf (format : string) (args : list LogArg) : Prog unit :=
  Log (Printf format args) (Ret tt).

Definition log_Println (args : list LogArg) : Prog unit :=
  Log (Println args) (Ret tt).

(** What a run observes, in order: each call with its arguments and
    with what the callee answered. *)
Inductive Event : Type :=
| EvInsertDocuments (texts sources : list string) (ok : bool)
| EvSearchSimilar (query : string) (limit : Z) (found : list Document)
| EvChatCompletion (model : string) (messages : list Message)
                   (answer : string * option error)
| EvLog (line : LogLine).

(** The two interfaces of [rag_engine.go]; an implementation acts on a
    state [W] of the world outside the engine. *)
Record OpenAIClient (W : Type) : Type :=
  { ChatCompletion :
      string -> list Message -> W -> (string * option error) * W }.

Record MilvusClient (W : Type) : Type :=
  { InsertDocuments : list string -> list string -> W -> bool * W;
    SearchSimilar : string -> Z -> W -> list Document * W }.

Record RAGEngine (W : Type) : Type :=
  { openai : OpenAIClient W; milvus : MilvusClient W }.

Arguments ChatCompletion {W} o.
Arguments InsertDocuments {W} m.
Arguments SearchSimilar {W} m.
Arguments openai {W} r.
Arguments milvus {W} r.

Definition NewRAGEngine {W : Type} (o : OpenAIClient W) (m : MilvusClient W)
  : RAGEngine W :=
  {| openai := o; milvus := m |}.

(** Running a method body on the engine [r], the standard logger
    writing through [logger]: the value returned ([None] for a panic),
    the final state of the world and the calls made. *)
Fixpoint run {W A : Type} (r : RAGEngine W) (logger : LogLine -> W -> W)
         (p : Prog A) (w : W) : option A * W * list Event :=
  match p with
  | Ret a => (Some a, w, [])
  | Abort => (None, w, [])
  | CallInsertDocuments texts sources k =>
      let '(b, w1) := InsertDocuments (milvus r) texts sources w in
      let '(a, w2, t) := run r logger (k b) w1 in
      (a, w2, EvInsertDocuments texts sources b :: t)
  | CallSearchSimilar query limit k =>
      let '(ds, w1) := SearchSimilar (milvus r) query limit w in
      let '(a, w2, t) := run r logger (k ds) w1 in
      (a, w2, EvSearchSimilar query limit ds :: t)
  | CallChatCompletion model messages k =>
      let '(x, w1) := ChatCompletion (openai r) model messages w in
      let '(a, w2, t) := run r logger (k x) w1 in
      (a, w2, EvChatCompletion model messages x :: t)
  | Log line k =>
      let '(a, w2, t) := run r logger k (logger line w) in
      (a, w2, EvLog line :: t)
  end.

Definition is_store_call (e : Event) : bool :=
  match e with
  | EvInsertDocuments _ _ _ | EvSearchSimilar _ _ _ => true
  | _ => false
  end.

Definition is_chat_call (e : Event) : bool :=
  match e with EvChatCompletion _ _ _ => true | _ => false end.

Definition store_calls (t : list Event) : list Event :=
  filter is_store_call t.

Definition chat_calls (t : list Event) : list Event :=
  filter is_chat_call t.

(** The world after the logger has written the log lines of [t]. *)
Definition replay_logs {W : Type} (logger : LogLine -> W -> W)
           (t : list Event) (w : W) : W :=
  fold_left
    (fun w e => match e with EvLog line => logger line w | _ => w end) t w.

(** Programs that only write log lines. *)
Fixpoint log_only {A : Type} (p : Prog A) : Prop :=
  match p with
  | Ret _ => True
  | Log _ k => log_only k
  | _ => False
  end.

End Programs.

Arguments Prog error A : clear implicits.
Arguments Ret {error A} a.
Arguments Abort {error A}.
Arguments CallInsertDocuments {error A} texts sources k.
Arguments CallSearchSimilar {error A} query limit k.
Arguments CallChatCompletion {error A} model messages k.
Arguments Log {error A} line k.
Arguments Event error : clear implicits.
Arguments LogArg error : clear implicits.
Arguments LogLine error : clear implicits.
Arguments OpenAIClient error W : clear implicits.
Arguments RAGEngine error W : clear implicits.
Arguments ChatCompletion {error W} o.
Arguments InsertDocuments {W} m.
Arguments SearchSimilar {W} m.
Arguments openai {error W} r.
Arguments milvus {error W} r.

Declare Scope prog_scope.
Delimit Scope prog_scope with prog.
Notation "x <- p ;; q" := (bind p (fun x => q))
  (at level 61, p at next level, right associativity) : prog_scope.
Notation "p ;; q" := (bind p (fun _ => q))
  (at level 61, right associativity) : prog_scope.

(** ** The engine *)

Module Engine.
Import GoString Scorer Fmt.

Section Methods.
Context {error : Type}.
Local Open Scope prog_scope.

(** [truncateText]; [None] is the panic of [text[:maxLen-3]]. *)
Definition truncateText (text : string) (maxLen : Z) : option string :=
  if len text <=? maxLen then Some text else
  match slice text 0 (GoInt.sub maxLen 3) with
  | Some head => Some (head ++ "...")%string
  | None => None
  end.

(** Lines 45-50. *)
Definition AddDocuments (texts sources : list string) : Prog error bool :=
  if negb (Z.of_nat (List.length texts) =? Z.of_nat (List.length sources))
  then Ret false
  else CallInsertDocuments texts sources (fun ok => Ret ok).

(** Lines 65-82: the [range] loop of the relevance analysis, entered
    at index [i]; it yields the running total, maximum and minimum. *)
Fixpoint relevance_loop (i : Z) (docs : list Document)
         (totalSimilarity maxSimilarity minSimilarity : float32)
  : Prog error (float32 * float32 * float32) :=
  match docs with
  | [] => Ret (totalSimilarity, maxSimilarity, minSimilarity)
  | doc :: rest =>
      let totalSimilarity := add totalSimilarity (Similarity doc) in
      let maxSimilarity :=
        if gtb (Similarity doc) maxSimilarity
        then Similarity doc else maxSimilarity in
      let minSimilarity :=
        if ltb (Similarity doc) minSimilarity
        then Similarity doc else minSimilarity in
      let percentage := mul (Similarity doc) f100 in
      let relevance := getRelevanceCategory (Similarity doc) in
      log_Printf "   📄 Document %d: %.2f%% similarity (%s)"
                 [ArgInt (i + 1); ArgFloat32 percentage;
                  ArgString relevance] ;;
      log_Printf "      Source: %s" [ArgString (Source doc)] ;;
      match truncateText (Text doc) 80 with
      | None => Abort
      | Some preview =>
          log_Printf "      Preview: %s..." [ArgString preview] ;;
          relevance_loop (i + 1) rest
                         totalSimilarity maxSimilarity minSimilarity
      end
  end.

(** Lines 59-93. *)
Definition similarity_metrics (ctx : list Document) : Prog error unit :=
  match ctx with
  | [] => Ret tt
  | first :: _ =>
      log_Println [ArgString "📋 Document relevance analysis:"] ;;
      stats <- relevance_loop 0 ctx zero (Similarity first)
                              (Similarity first) ;;
      let '(totalSimilarity, maxSimilarity, minSimilarity) := stats in
      let avgSimilarity :=
        div totalSimilarity (of_int (Z.of_nat (List.length ctx))) in
      log_Printf "📈 Similarity Statistics:" [] ;;
      log_Printf "   Average: %.2f%% | Max: %.2f%% | Min: %.2f%%"
                 [ArgFloat32 (mul avgSimilarity f100);
                  ArgFloat32 (mul maxSimilarity f100);
                  ArgFloat32 (mul minSimilarity f100)] ;;
      let qualityScore := calculateQualityScore ctx in
      log_Printf "🎯 Context Quality Score: %.1f/10.0 (%s)"
                 [ArgFloat32 qualityScore;
                  ArgString (getQualityDescription qualityScore)]
  end.

(** Lines 97-101: what one document adds to the context builder. *)
Definition context_block (i : Z) (doc : Document) : string :=
  ("Source " ++ format_d (i + 1) ++ " ("
   ++ format_f1 (mul (Similarity doc) f100) ++ "% relevant): "
   ++ Source doc ++ nl
   ++ "Content: " ++ Text doc ++ nl ++ nl)%string.

(** What precedes the colon of [Content:] in a block. *)
Definition block_head (i : Z) (doc : Document) : string :=
  ("Source " ++ format_d (i + 1) ++ " ("
   ++ format_f1 (mul (Similarity doc) f100) ++ "% relevant): "
   ++ Source doc ++ nl ++ "Content")%string.

(** Lines 95-102: the builder's content after the [range] loop
    entered at index [i]. *)
Fixpoint context_blocks (i : Z) (docs : list Document) : string :=
  match docs with
  | [] => ""
  | doc :: rest =>
      (context_block i doc ++ context_blocks (i + 1) rest)%string
  end.

(** Lines 103-108. *)
Definition build_prompt (query : string) (ctx : list Document) : string :=
  let context := TrimSpace (context_blocks 0 ctx) in
  ("You are a helpful assistant that answers questions based on the provided context." ++ nl
   ++ "Use the context below to answer the user's question. If the answer cannot be found in the context," ++ nl
   ++ "say " ++ dquote
   ++ "I don't have enough information to answer that question based on the provided context."
   ++ dquote ++ nl ++ nl
   ++ "Context:" ++ nl ++ context ++ nl ++ nl ++ "Question: " ++ query
   ++ nl ++ nl ++ "Answer:")%string.

(** Lines 111-114. *)
Definition build_messages (query : string) (ctx : list Document)
  : list Message :=
  [ {| Role := "system";
       Content := "You are a helpful assistant that answers questions based on provided context." |};
    {| Role := "user"; Content := build_prompt query ctx |} ].

(** Lines 53-124. *)
Definition GenerateResponse (query : string) (ctx : list Document)
           (model : string) : Prog error (string * option error) :=
  log_Printf "🔍 Processing query: %s" [ArgString query] ;;
  log_Printf "📊 Using %d retrieved documents for context"
             [ArgInt (Z.of_nat (List.length ctx))] ;;
  similarity_metrics ctx ;;
  log_Printf "🤖 Generating response using model: %s" [ArgString model] ;;
  let messages := build_messages query ctx in
  CallChatCompletion model messages (fun '(response, err) =>
    match err with
    | Some e =>
        log_Printf "❌ Error generating response: %v" [ArgError e] ;;
        Ret ("", Some e)
    | None =>
        log_Printf "✅ Response generated successfully (%d characters)"
                   [ArgInt (len response)] ;;
        Ret (response, None)
    end).

(** Lines 116-123: what [GenerateResponse] gives back for an answer
    of the chat collaborator. *)
Definition response_of (answer : string * option error)
  : string * option error :=
  match snd answer with
  | Some e => ("", Some e)
  | None => (fst answer, None)
  end.

End Methods.

(** *** The stubs of the test file *)

Record dummyOpenAI : Type :=
  { lastModel : string; lastMessages : list Message }.

(** [dummyOpenAI.ChatCompletion] *)
Definition dummy_ChatCompletion {error : Type} (model : string)
           (messages : list Message) (d : dummyOpenAI)
  : (string * option error) * dummyOpenAI :=
  (("stubbed", None), {| lastModel := model; lastMessages := messages |}).

Record dummyMilvus : Type :=
  { insertedTexts : list string;
    insertedSources : list string;
    lastQuery : string;
    lastLimit : Z }.

(** The world of the tests: one stub of each kind. *)
Record TestWorld : Type := { oa : dummyOpenAI; mv : dummyMilvus }.

Definition dummy_openai {error : Type} : OpenAIClient error TestWorld :=
  {| ChatCompletion := fun model messages w =>
       let '(answer, d) := dummy_ChatCompletion model messages (oa w) in
       (answer, {| oa := d; mv := mv w |}) |}.

(** [dummyMilvus.InsertDocuments] and [dummyMilvus.SearchSimilar] *)
Definition dummy_milvus : MilvusClient TestWorld :=
  {| InsertDocuments := fun texts sources w =>
       (true,
        {| oa := oa w;
           mv := {| insertedTexts := texts;
                    insertedSources := sources;
                    lastQuery := lastQuery (mv w);
                    lastLimit := lastLimit (mv w) |} |});
     SearchSimilar := fun query limit w =>
       ([],
        {| oa := oa w;
           mv := {| insertedTexts := insertedTexts (mv w);
                    insertedSources := insertedSources (mv w);
                    lastQuery := query;
                    lastLimit := limit |} |}) |}.

(** The standard logger writes to the standard error stream, which
    the stubs do not look at. *)
Definition test_logger {error : Type} (line : LogLine error) (w : TestWorld)
  : TestWorld := w.

(** [&dummyOpenAI{}] and [&dummyMilvus{}] *)
Definition fresh_stubs : TestWorld :=
  {| oa := {| lastModel := ""; lastMessages := [] |};
     mv := {| insertedTexts := []; insertedSources := [];
              lastQuery := ""; lastLimit := 0 |} |}.

(** The engine of the tests. *)
Definition test_engine {error : Type} : RAGEngine error TestWorld :=
  NewRAGEngine dummy_openai dummy_milvus.

(** *** The prompt contract, as the specification words it

    At one call: the chat collaborator is handed two messages, a
    system one and a user one, and the user message contains every
    document's text and the query. *)
Definition prompt_carries_documents_verbatim {error W : Type}
           (r : RAGEngine error W) (logger : LogLine error -> W -> W)
           (query : string) (docs : list Document) (model : string) (w : W)
  : Prop :=
  exists system user answer,
    chat_calls (snd (run r logger (GenerateResponse query docs model) w))
    = [EvChatCompletion model [system; user] answer]
    /\ Role system = "system" /\ Role user = "user"
    /\ (forall d, In d docs -> Contains (Content user) (Text d))
    /\ Contains (Content user) query.

End Engine.

(** ** Bands of the two diagnostics, in their order

    The [switch] statements of [getRelevanceCategory] and
    [getQualityDescription] list their bands from the best to the
    worst; the rank of a band counts the bands below it. *)

Module Bands.

Definition relevance_rank (category : string) : nat :=
  if String.eqb category "Excellent Match" then 6
  else if String.eqb category "Very Relevant" then 5
  else if String.eqb category "Relevant" then 4
  else if String.eqb category "Moderately Relevant" then 3
  else if String.eqb category "Somewhat Relevant" then 2
  else if String.eqb category "Low Relevance" then 1
  else 0.

Definition quality_rank (description : string) : nat :=
  if String.eqb description "Exceptional" then 7
  else if String.eqb description "Excellent" then 6
  else if String.eqb description "Very Good" then 5
  else if String.eqb description "Good" then 4
  else if String.eqb description "Fair" then 3
  else if String.eqb description "Below Average" then 2
  else if String.eqb description "Poor" then 1
  else 0.

(** A datum that is not a number. *)
Definition is_nan (x : Float32.float32) : bool :=
  match x with S754_nan => true | _ => false end.

End Bands.

(** ** What a caller can rely on about a chunk

    A chunk cut from [text] with chunk size [chunkSize]: not empty, of
    at most [chunkSize] bytes, occurring in the text as it is, with no
    white space left to trim at either end. *)
Definition well_formed_chunk (text : string) (chunkSize : Z)
           (chunk : string) : Prop :=
  chunk <> ""%string
  /\ GoString.len chunk <= chunkSize
  /\ GoString.Contains text chunk
  /\ GoString.TrimSpace chunk = chunk.





(** ** main.go: the clients and the demonstration mode *)

Module Demo.
Import GoString Float32.

(** [s[:high]] on a slice, for a bound that does not exceed the
    length (a larger one is checked against the capacity, which the
    model does not follow); [None] when the bound is out of range and
    the expression panics. *)
Definition slice_to {A : Type} (s : list A) (high : Z) : option (list A) :=
  if (0 <=? high) && (high <=? Z.of_nat (List.length s))
  then Some (firstn (Z.to_nat high) s)
  else None.

(** [min], lines 395-400 *)
Definition min (a b : Z) : Z := if a <? b then a else b.

(** Line 361: [chunk[:min(50, len(chunk))]] *)
Definition preview (chunk : string) : option string :=
  slice chunk 0 (min 50 (len chunk)).

(** *** The store of the demonstration mode *)

Record mockMilvusClient : Type := { documents : list Document }.

Definition f0_08 : float32 := Eval vm_compute in decimal 8 100.

(** Line 380: [0.6 + (float32(i%5) * 0.08)] *)
Definition mock_similarity (i : Z) : float32 :=
  add f0_6 (mul (of_int (Z.rem i 5)) f0_08).

(** Lines 377-383: the [range] loop over [texts], entered at index [i]. *)
Fixpoint mock_insert_loop (i : Z) (texts sources : list string)
         (docs : list Document) : list Document :=
  match texts with
  | [] => docs
  | text :: rest =>
      let docs :=
        if i <? Z.of_nat (List.length sources) then
          docs ++ [ {| Text := text;
                       Source := nth (Z.to_nat i) sources ""%string;
                       Similarity := mock_similarity i |} ]
        else docs in
      mock_insert_loop (i + 1) rest sources docs
  end.

(** [mockMilvusClient.InsertDocuments], lines 376-385 *)
Definition mock_InsertDocuments (texts sources : list string)
           (m : mockMilvusClient) : bool * mockMilvusClient :=
  (true, {| documents := mock_insert_loop 0 texts sources (documents m) |}).

(** [mockMilvusClient.SearchSimilar], lines 387-393; the receiver is
    not written to. *)
Definition mock_SearchSimilar (query : string) (limit : Z)
           (m : mockMilvusClient) : option (list Document) :=
  if Z.of_nat (List.length (documents m)) <=? limit
  then Some (documents m)
  else slice_to (documents m) limit.

(** [mockOpenAIClient.ChatCompletion], lines 368-370 *)
Definition mock_ChatCompletion {error : Type} (model : string)
           (messages : list Message) : string * option error :=
  ("This is a mock response from the RAG engine. In a real implementation, this would be generated by OpenAI's GPT model based on the provided context.",
   None).

(** The chat collaborator of the demonstration mode, over any world. *)
Definition mock_openai {error W : Type} : OpenAIClient error W :=
  {| ChatCompletion := fun model messages w =>
       (mock_ChatCompletion model messages, w) |}.

(** *** The clients of the live mode *)

(** Line 204 of [MilvusClientImpl.SearchSimilar]:
    [float32(1.0 / (1.0 + distance))], with [distance] a [float32]. *)
Definition similarity_of_distance (distance : float32) : float32 :=
  div f1 (add f1 distance).

(** What [OpenAIClientImpl.ChatCompletion] uses of the client library:
    the fields of its messages, requests and responses that the method
    reads or writes. *)
Record ChatCompletionMessage : Type :=
  { MsgRole : string; MsgContent : string }.
Record ChatCompletionRequest : Type :=
  { ReqModel : string; ReqMessages : list ChatCompletionMessage }.
Record ChatCompletionChoice : Type :=
  { ChoiceMessage : ChatCompletionMessage }.
Record ChatCompletionResponse : Type :=
  { Choices : list ChatCompletionChoice }.

Section Live.
Context {error W : Type}.

(** [o.client.CreateChatCompletion] and [fmt.Errorf] at a constant
    format. *)
Variable CreateChatCompletion :
  ChatCompletionRequest -> W -> (ChatCompletionResponse * option error) * W.
Variable Errorf : string -> error.

(** Lines 21-27: the [range] loop over [messages]. *)
Fixpoint convert_loop (messages : list Message)
         (openaiMessages : list ChatCompletionMessage)
  : list ChatCompletionMessage :=
  match messages with
  | [] => openaiMessages
  | msg :: rest =>
      convert_loop rest
        (openaiMessages
         ++ [ {| MsgRole := Role msg; MsgContent := Content msg |} ])
  end.

(** [OpenAIClientImpl.ChatCompletion], lines 20-45 *)
Definition OpenAIClientImpl_ChatCompletion (model : string)
           (messages : list Message) (w : W)
  : (string * option error) * W :=
  let openaiMessages := convert_loop messages [] in
  let '((resp, err), w) :=
    CreateChatCompletion
      {| ReqModel := model; ReqMessages := openaiMessages |} w in
  match err with
  | Some e => ((""%string, Some e), w)
  | None =>
      match Choices resp with
      | [] => ((""%string, Some (Errorf "no response from OpenAI")), w)
      | choice :: _ => ((MsgContent (ChoiceMessage choice), None), w)
      end
  end.

Definition OpenAIClientImpl : OpenAIClient error W :=
  {| ChatCompletion := OpenAIClientImpl_ChatCompletion |}.

End Live.

End Demo.

Import GoString Chunker Scorer Fmt Engine.

(** * Properties *)

(** ** Chunker *)

Section ChunkerFacts.

Lemma ChunkText_loop_more_fuel text chunkSize overlap :
  forall fuel start chunks out,
    ChunkText_loop fuel text chunkSize overlap start chunks = Some out ->
    forall extra,
      ChunkText_loop (fuel + extra) text chunkSize overlap start chunks
      = Some out.
Proof.
  induction fuel as [|fuel IH]; intros start chunks out H extra.
  - simpl in H. destruct extra; simpl; destruct (start <? len text);
      try discriminate; assumption.
  - simpl in H |- *. destruct (start <? len text); [|assumption].
    destruct (ChunkText_body text chunkSize overlap start chunks);
      try assumption.
    now apply IH.
Qed.

(** A call has at most one outcome, whatever the fuel. *)
Lemma ChunkText_deterministic text chunkSize overlap fuel1 fuel2 out1 out2 :
  ChunkText fuel1 text chunkSize overlap = Some out1 ->
  ChunkText fuel2 text chunkSize overlap = Some out2 ->
  out1 = out2.
Proof.
  unfold ChunkText. intros H1 H2.
  apply ChunkText_loop_more_fuel with (extra := fuel2) in H1.
  apply ChunkText_loop_more_fuel with (extra := fuel1) in H2.
  rewrite Nat.add_comm in H2. congruence.
Qed.

Lemma LastIndex_from_bounds (sep : ascii) (s : string) :
  forall i acc,
    -1 <= acc < i ->
    -1 <= LastIndex_from i acc s sep < i + len s.
Proof.
  unfold len. induction s as [|c s IH]; intros i acc Hacc.
  - simpl. lia.
  - cbn [LastIndex_from String.length]. rewrite Nat2Z.inj_succ.
    specialize (IH (i + 1) (if Ascii.eqb c sep then i else acc)).
    destruct (Ascii.eqb c sep); lia.
Qed.

Lemma LastIndex_bounds (s : string) (sep : ascii) :
  -1 <= LastIndex s sep < len s.
Proof. apply (LastIndex_from_bounds sep s 0 (-1)). lia. Qed.

(** A window that starts at or beyond half the chunk size is never cut
    at a sentence boundary: its last break, an offset into the chunk, is
    below [start + chunkSize/2]. *)
Lemma boundary_keeps_late_windows
      (text chunk : string) (chunkSize start end_ : Z) :
  0 < chunkSize -> 0 <= start -> len chunk <= chunkSize ->
  chunkSize - 1 <= start + Z.quot chunkSize 2 ->
  start + chunkSize < 2 ^ 63 ->
  boundary text chunkSize start end_ chunk = Some (chunk, end_).
Proof.
  intros Hpos Hstart Hlen Hlate Hfit. unfold boundary.
  destruct (end_ <? len text); [|reflexivity].
  pose proof (LastIndex_bounds chunk "."%char) as Hp.
  pose proof (LastIndex_bounds chunk "010"%char) as Hn.
  assert (Hq : 0 <= Z.quot chunkSize 2 <= chunkSize).
  { split; [apply Z.quot_pos; lia|].
    apply Z.quot_le_upper_bound; lia. }
  assert (Hd : GoInt.div chunkSize 2 = Z.quot chunkSize 2).
  { unfold GoInt.div, GoInt.wrap.
    rewrite Z.mod_small; [lia|]. lia. }
  assert (Hs : GoInt.add start (GoInt.div chunkSize 2)
               = start + Z.quot chunkSize 2).
  { rewrite Hd. unfold GoInt.add, GoInt.wrap.
    rewrite Z.mod_small; [lia|]. lia. }
  rewrite Hs.
  destruct (LastIndex chunk "010"%char >? LastIndex chunk "."%char);
    match goal with
    | |- context [?a >? ?b] =>
        replace (a >? b) with false; [reflexivity|]
    end; symmetry; rewrite Z.gtb_ltb; apply Z.ltb_ge; lia.
Qed.

End ChunkerFacts.

(** C5. [ChunkText] of fifteen letters A with chunk size 10 and overlap 2
    returns the chunk of ten letters followed by the chunk of seven, as
    soon as it is given the two passes through the loop it needs. *)
Theorem ChunkText_fifteen_A :
  forall extra : nat,
    ChunkText (2 + extra) "AAAAAAAAAAAAAAA" 10 2
    = Some (Return ["AAAAAAAAAA"; "AAAAAAA"]).
Proof. intro extra. reflexivity. Qed.

(** C1. In the second window of this text (bytes 10 to 20, chunk size 10,
    no overlap) the last period sits at offset 8 of the chunk, past the
    midpoint 5, and the window does not reach the end of the text; the
    boundary search nevertheless keeps the whole window, because line 144
    compares the chunk-relative offset with [start + chunkSize/2]: the
    call returns the second chunk cut at the raw limit, after the
    period. *)
Theorem ChunkText_second_window_not_cut :
  let text := "AAAAAAAAAAAAAAAAAA.AAAAAAAAA" in
  slice text 10 20 = Some "AAAAAAAA.A"
  /\ 20 < len text
  /\ LastIndex "AAAAAAAA.A" "."%char = 8
  /\ 8 > GoInt.div 10 2
  /\ boundary text 10 10 20 "AAAAAAAA.A" = Some ("AAAAAAAA.A", 20)
  /\ forall extra : nat,
      ChunkText (3 + extra) text 10 0
      = Some (Return ["AAAAAAAAAA"; "AAAAAAAA.A"; "AAAAAAAA"]).
Proof.
  cbv zeta. repeat split; try reflexivity.
Qed.

(** C2. With chunk size 10 and overlap 9 the first window of this text is
    cut after its period at offset 7, so the next start, 8 - 9 clamped to
    0, is the old one: every pass through the loop begins at 0 again and
    adds the same chunk, and no amount of fuel lets the call return. *)
Theorem ChunkText_never_returns :
  forall fuel : nat,
    ChunkText fuel "AAAAAAA.AAAAAAAAAAA" 10 9 = None.
Proof.
  unfold ChunkText. generalize (@nil string).
  intros chunks fuel. revert chunks.
  induction fuel as [|fuel IH]; intro chunks.
  - reflexivity.
  - change (ChunkText_loop (S fuel) "AAAAAAA.AAAAAAAAAAA" 10 9 0 chunks)
      with (ChunkText_loop fuel "AAAAAAA.AAAAAAAAAAA" 10 9 0
              (chunks ++ ["AAAAAAA."])).
    apply IH.
Qed.

(** ** Go strings *)

Module GoStringFacts.

Lemma append_assoc (a b c : string) :
  ((a ++ b) ++ c = a ++ (b ++ c))%string.
Proof. induction a as [|x a IH]; simpl; congruence. Qed.

Lemma append_nil_r (a : string) : (a ++ "" = a)%string.
Proof. induction a as [|x a IH]; simpl; congruence. Qed.

Lemma rev_append_spec (s acc : string) :
  rev_append s acc = (rev s ++ acc)%string.
Proof.
  unfold rev. revert acc.
  induction s as [|c s IH]; intro acc; simpl.
  - reflexivity.
  - rewrite IH, (IH (String c "")), append_assoc. reflexivity.
Qed.

Lemma rev_cons (c : ascii) (s : string) :
  rev (String c s) = (rev s ++ String c "")%string.
Proof. unfold rev at 1. simpl. apply rev_append_spec. Qed.

Lemma rev_app (a b : string) : rev (a ++ b) = (rev b ++ rev a)%string.
Proof.
  induction a as [|c a IH]; simpl.
  - now rewrite append_nil_r.
  - now rewrite !rev_cons, IH, append_assoc.
Qed.

Lemma rev_involutive (s : string) : rev (rev s) = s.
Proof.
  induction s as [|c s IH]; [reflexivity|].
  now rewrite rev_cons, rev_app, IH.
Qed.

(** *** Occurrences *)

Lemma Contains_refl (s : string) : Contains s s.
Proof. exists "", "". simpl. now rewrite append_nil_r. Qed.

Lemma Contains_empty (s : string) : Contains s "".
Proof. exists "", s. reflexivity. Qed.

Lemma Contains_app_l (a s sub : string) :
  Contains s sub -> Contains (a ++ s) sub.
Proof.
  intros (pre & post & ->). exists (a ++ pre)%string, post.
  now rewrite append_assoc.
Qed.

Lemma Contains_app_r (s b sub : string) :
  Contains s sub -> Contains (s ++ b) sub.
Proof.
  intros (pre & post & ->). exists pre, (post ++ b)%string.
  now rewrite !append_assoc.
Qed.

Lemma Contains_cons (c : ascii) (s sub : string) :
  Contains s sub -> Contains (String c s) sub.
Proof. apply (Contains_app_l (String c "")). Qed.

Lemma substring_middle (pre sub post : string) :
  substring (String.length pre) (String.length sub) (pre ++ sub ++ post)
  = sub.
Proof.
  induction pre as [|c pre IH]; simpl; [|exact IH].
  induction sub as [|c sub IH]; simpl.
  - now destruct post.
  - now rewrite IH.
Qed.

(** [ContainsB] finds every occurrence. *)
Lemma Contains_ContainsB (s sub : string) :
  Contains s sub -> ContainsB s sub = true.
Proof.
  intros (pre & post & ->). unfold ContainsB.
  destruct (index 0 sub (pre ++ sub ++ post)) eqn:Hi; [reflexivity|].
  destruct sub as [|c sub].
  - apply index_correct4 in Hi. inversion Hi.
  - exfalso.
    apply (index_correct3 0 (String.length pre) _ _ Hi);
      [discriminate|apply Nat.le_0_l|apply substring_middle].
Qed.

(** *** Trimming *)

Lemma ascii_not_space2_lead (c x : ascii) :
  (N_of_ascii c < 128)%N -> space2 c x = false.
Proof.
  intro Hc. unfold space2, byte_is.
  destruct (N.eqb_spec (N_of_ascii c) 194); [lia|reflexivity].
Qed.

Lemma ascii_not_space2_tail (c x : ascii) :
  (N_of_ascii c < 128)%N -> space2 x c = false.
Proof.
  intro Hc. unfold space2, byte_is.
  destruct (N.eqb_spec (N_of_ascii c) 133); [lia|].
  destruct (N.eqb_spec (N_of_ascii c) 160); [lia|].
  apply andb_false_r.
Qed.

Lemma ascii_not_space3_lead (c x y : ascii) :
  (N_of_ascii c < 128)%N -> space3 c x y = false.
Proof.
  intro Hc. unfold space3, byte_is.
  destruct (N.eqb_spec (N_of_ascii c) 225); [lia|].
  destruct (N.eqb_spec (N_of_ascii c) 226); [lia|].
  destruct (N.eqb_spec (N_of_ascii c) 227); [lia|reflexivity].
Qed.

Lemma ascii_not_space3_mid (c x y : ascii) :
  (N_of_ascii c < 128)%N -> space3 x c y = false.
Proof.
  intro Hc. unfold space3, byte_is.
  destruct (N.eqb_spec (N_of_ascii c) 154); [lia|].
  destruct (N.eqb_spec (N_of_ascii c) 128); [lia|].
  destruct (N.eqb_spec (N_of_ascii c) 129); [lia|].
  rewrite !andb_false_r. reflexivity.
Qed.

(** The backward scan never decodes a rune across an ASCII byte: on
    meeting one it either has stopped before, or goes on from it. *)
Lemma TrimLeftSpace_rev_ascii (c : ascii) (rest : string) :
  (N_of_ascii c < 128)%N ->
  forall (n : nat) (r : string),
    (String.length r <= n)%nat ->
    TrimLeftSpace_rev (r ++ String c rest) =
    match TrimLeftSpace_rev r with
    | EmptyString => TrimLeftSpace_rev (String c rest)
    | kept => (kept ++ String c rest)%string
    end.
Proof.
  intro Hc. induction n as [n IH] using lt_wf_ind. intros r Hn.
  destruct r as [|b1 r1]; [reflexivity|].
  cbn [append TrimLeftSpace_rev].
  destruct (asciiSpace b1) eqn:H1.
  { apply (IH (String.length r1)); simpl in Hn; lia. }
  destruct r1 as [|b2 r2]; cbn [append].
  { rewrite (ascii_not_space2_lead c b1 Hc).
    destruct rest as [|b3 r3]; [reflexivity|].
    now rewrite (ascii_not_space3_mid c b3 b1 Hc). }
  destruct (space2 b2 b1) eqn:H2.
  { apply (IH (String.length r2)); simpl in Hn; lia. }
  destruct r2 as [|b3 r3]; cbn [append].
  { now rewrite (ascii_not_space3_lead c b2 b1 Hc). }
  destruct (space3 b3 b2 b1) eqn:H3.
  { apply (IH (String.length r3)); simpl in Hn; lia. }
  reflexivity.
Qed.

(** Trailing white space is looked for after the last ASCII byte that
    is not white space. *)
Lemma TrimRightSpace_after (a b : string) (c : ascii) :
  (N_of_ascii c < 128)%N -> asciiSpace c = false ->
  TrimRightSpace (a ++ String c b)
  = (a ++ String c (TrimRightSpace b))%string.
Proof.
  intros Hc Hs. unfold TrimRightSpace.
  rewrite rev_app, rev_cons, append_assoc. cbn [append].
  rewrite (TrimLeftSpace_rev_ascii c (rev a) Hc _ (rev b) (le_n _)).
  assert (Hstop : TrimLeftSpace_rev (String c (rev a)) = String c (rev a)).
  { cbn [TrimLeftSpace_rev]. rewrite Hs.
    destruct (rev a) as [|b2 r2]; [reflexivity|].
    rewrite (ascii_not_space2_tail c b2 Hc).
    destruct r2 as [|b3 r3]; [reflexivity|].
    destruct (space3 b3 b2 c) eqn:H3; [|reflexivity].
    exfalso. revert H3. unfold space3, byte_is.
    destruct (N.eqb_spec (N_of_ascii c) 128); [lia|].
    destruct (N.eqb_spec (N_of_ascii c) 159); [lia|].
    destruct (N.eqb_spec (N_of_ascii c) 168); [lia|].
    destruct (N.eqb_spec (N_of_ascii c) 169); [lia|].
    destruct (N.eqb_spec (N_of_ascii c) 175); [lia|].
    destruct (N.leb_spec 128 (N_of_ascii c)); [lia|].
    rewrite !andb_false_r. discriminate. }
  destruct (TrimLeftSpace_rev (rev b)) as [|k kept] eqn:Hk.
  - rewrite Hstop. rewrite rev_cons, rev_involutive. reflexivity.
  - rewrite rev_app, rev_cons, rev_involutive, append_assoc.
    reflexivity.
Qed.

Lemma TrimRightSpace_space_r (s : string) (c : ascii) :
  asciiSpace c = true ->
  TrimRightSpace (s ++ String c "") = TrimRightSpace s.
Proof.
  intro Hs. unfold TrimRightSpace.
  rewrite rev_app. cbn [rev rev_append append TrimLeftSpace_rev].
  now rewrite Hs.
Qed.

(** After an ASCII byte, the text with its trailing white space
    removed is still there. *)
Lemma TrimRightSpace_cons_Contains (c : ascii) (s : string) :
  (N_of_ascii c < 128)%N ->
  Contains (TrimRightSpace (String c s)) (TrimRightSpace s).
Proof.
  intro Hc. unfold TrimRightSpace.
  rewrite rev_cons.
  rewrite (TrimLeftSpace_rev_ascii c "" Hc _ (rev s) (le_n _)).
  destruct (TrimLeftSpace_rev (rev s)) as [|k kept].
  - apply Contains_empty.
  - rewrite rev_app. apply Contains_app_l, Contains_refl.
Qed.

Lemma Contains_trans (a b c : string) :
  Contains a b -> Contains b c -> Contains a c.
Proof.
  intros (p1 & q1 & ->) H. apply Contains_app_l, Contains_app_r, H.
Qed.

Lemma TrimLeftSpace_rev_suffix :
  forall (n : nat) (r : string),
    (String.length r <= n)%nat ->
    exists dropped, r = (dropped ++ TrimLeftSpace_rev r)%string.
Proof.
  induction n as [n IH] using lt_wf_ind. intros r Hn.
  destruct r as [|b1 r1]; [now exists ""|].
  cbn [TrimLeftSpace_rev]. simpl in Hn.
  destruct (asciiSpace b1).
  { destruct (IH (String.length r1) ltac:(lia) r1 (le_n _)) as [p Hp].
    exists (String b1 p). cbn [append]. now rewrite <- Hp. }
  destruct r1 as [|b2 r2]; [now exists ""|]. simpl in Hn.
  destruct (space2 b2 b1).
  { destruct (IH (String.length r2) ltac:(lia) r2 (le_n _)) as [p Hp].
    exists (String b1 (String b2 p)). cbn [append]. now rewrite <- Hp. }
  destruct r2 as [|b3 r3]; [now exists ""|]. simpl in Hn.
  destruct (space3 b3 b2 b1).
  { destruct (IH (String.length r3) ltac:(lia) r3 (le_n _)) as [p Hp].
    exists (String b1 (String b2 (String b3 p))). cbn [append].
    now rewrite <- Hp. }
  now exists "".
Qed.

(** A string begins with what [TrimRightSpace] keeps of it. *)
Lemma TrimRightSpace_Contains (s : string) :
  Contains s (TrimRightSpace s).
Proof.
  unfold TrimRightSpace.
  destruct (TrimLeftSpace_rev_suffix _ (rev s) (le_n _)) as [p Hp].
  exists "", (rev p). cbn [append].
  rewrite <- rev_app, <- Hp. symmetry. apply rev_involutive.
Qed.

End GoStringFacts.

(** ** Running programs *)

Section RunFacts.
Context {error W : Type}.
Variable r : RAGEngine error W.
Variable logger : LogLine error -> W -> W.

Lemma run_bind {A B : Type} (p : Prog error A) (f : A -> Prog error B) :
  forall w,
    run r logger (bind p f) w =
    let '(a, w1, t1) := run r logger p w in
    match a with
    | Some x =>
        let '(b, w2, t2) := run r logger (f x) w1 in (b, w2, t1 ++ t2)
    | None => (None, w1, t1)
    end.
Proof.
  induction p as [a| |texts sources k IH|query limit k IH
                  |model messages k IH|line k IH]; intro w; simpl.
  - destruct (run r logger (f a) w) as [[b w2] t2]. reflexivity.
  - reflexivity.
  - destruct (InsertDocuments (milvus r) texts sources w) as [ok w1].
    rewrite IH. destruct (run r logger (k ok) w1) as [[[x|] w2] t1].
    + destruct (run r logger (f x) w2) as [[b w3] t2]. reflexivity.
    + reflexivity.
  - destruct (SearchSimilar (milvus r) query limit w) as [ds w1].
    rewrite IH. destruct (run r logger (k ds) w1) as [[[x|] w2] t1].
    + destruct (run r logger (f x) w2) as [[b w3] t2]. reflexivity.
    + reflexivity.
  - destruct (ChatCompletion (openai r) model messages w) as [ans w1].
    rewrite IH. destruct (run r logger (k ans) w1) as [[[x|] w2] t1].
    + destruct (run r logger (f x) w2) as [[b w3] t2]. reflexivity.
    + reflexivity.
  - rewrite IH. destruct (run r logger k (logger line w)) as [[[x|] w2] t1].
    + destruct (run r logger (f x) w2) as [[b w3] t2]. reflexivity.
    + reflexivity.
Qed.

Lemma log_only_bind {A B : Type} (p : Prog error A) (f : A -> Prog error B) :
  log_only p -> (forall a, log_only (f a)) -> log_only (bind p f).
Proof.
  induction p; simpl; intros Hp Hf; try contradiction; auto.
Qed.

(** A program that only logs returns, and it leaves in the world what
    the logger wrote. *)
Lemma run_log_only {A : Type} (p : Prog error A) :
  log_only p ->
  forall w, exists a t,
    run r logger p w = (Some a, replay_logs logger t w, t)
    /\ chat_calls t = [] /\ store_calls t = [].
Proof.
  induction p as [a| | | | |line k IH]; simpl; intros Hp w;
    try contradiction.
  - exists a, []. repeat split.
  - destruct (IH Hp (logger line w)) as (a & t & Hrun & Hc & Hs).
    exists a, (EvLog line :: t). rewrite Hrun. repeat split; assumption.
Qed.

Lemma replay_logs_app (t1 t2 : list (Event error)) (w : W) :
  replay_logs logger (t1 ++ t2) w
  = replay_logs logger t2 (replay_logs logger t1 w).
Proof. unfold replay_logs. apply fold_left_app. Qed.

End RunFacts.

Lemma replay_logs_silent {error W : Type} (logger : LogLine error -> W -> W) :
  (forall line w, logger line w = w) ->
  forall (t : list (Event error)) w, replay_logs logger t w = w.
Proof.
  intros Hid t. unfold replay_logs.
  induction t as [|e t IH]; intro w; simpl.
  - reflexivity.
  - destruct e; rewrite ?Hid; apply IH.
Qed.

(** ** The engine's methods *)

Section EngineFacts.
Context {error W : Type}.
Variable r : RAGEngine error W.
Variable logger : LogLine error -> W -> W.

Lemma truncateText_80 (text : string) :
  exists preview, truncateText text 80 = Some preview.
Proof.
  unfold truncateText. destruct (len text <=? 80) eqn:Hlen.
  - eauto.
  - change (GoInt.sub 80 3) with 77. unfold slice.
    apply Z.leb_gt in Hlen.
    replace (77 <=? len text) with true by (symmetry; apply Z.leb_le; lia).
    simpl. eauto.
Qed.

Lemma log_only_relevance_loop (docs : list Document) :
  forall i total hi lo,
    log_only (@relevance_loop error i docs total hi lo).
Proof.
  induction docs as [|doc rest IH]; intros i total hi lo; simpl.
  - exact I.
  - destruct (truncateText_80 (Text doc)) as [preview ->]. simpl.
    apply IH.
Qed.

Lemma log_only_similarity_metrics (ctx : list Document) :
  log_only (@similarity_metrics error ctx).
Proof.
  destruct ctx as [|first rest]; [exact I|].
  unfold similarity_metrics. cbn [bind log_Println log_only].
  apply log_only_bind.
  - apply log_only_relevance_loop.
  - intros [[total hi] lo]. exact I.
Qed.

(** A run of [GenerateResponse]: log lines, one chat completion on the
    model and the two messages, one more log line. *)
Lemma run_GenerateResponse (query : string) (ctx : list Document)
      (model : string) (w : W) :
  exists (before : list (Event error)) (line : LogLine error),
    chat_calls before = [] /\ store_calls before = []
    /\ let w0 := replay_logs logger before w in
       let '(answer, w1) :=
         ChatCompletion (openai r) model (build_messages query ctx) w0 in
       run r logger (GenerateResponse query ctx model) w
       = (Some (response_of answer), logger line w1,
          before
            ++ [EvChatCompletion model (build_messages query ctx) answer;
                EvLog line]).
Proof.
  unfold GenerateResponse.
  cbn [bind log_Printf].
  destruct (run_log_only r logger (similarity_metrics ctx)
              (log_only_similarity_metrics ctx)
              (logger (Printf "📊 Using %d retrieved documents for context"
                         [ArgInt (Z.of_nat (List.length ctx))])
                 (logger (Printf "🔍 Processing query: %s"
                            [ArgString query]) w)))
    as ([] & t & Hrun & Hc & Hs).
  set (l1 := Printf "🔍 Processing query: %s" [ArgString query]) in *.
  set (l2 := Printf "📊 Using %d retrieved documents for context"
               [ArgInt (Z.of_nat (List.length ctx))]) in *.
  set (l3 := Printf "🤖 Generating response using model: %s"
               [ArgString model]).
  exists (EvLog l1 :: EvLog l2 :: t ++ [EvLog l3]).
  destruct (ChatCompletion (openai r) model (build_messages query ctx)
              (replay_logs logger (EvLog l1 :: EvLog l2 :: t ++ [EvLog l3]) w))
    as [[response err] w1] eqn:Hchat.
  exists (match err with
          | Some e => Printf "❌ Error generating response: %v" [ArgError e]
          | None =>
              Printf "✅ Response generated successfully (%d characters)"
                [ArgInt (len response)]
          end).
  split; [|split].
  - simpl. unfold chat_calls in *. rewrite filter_app, Hc. reflexivity.
  - simpl. unfold store_calls in *. rewrite filter_app, Hs. reflexivity.
  - simpl run. rewrite run_bind, Hrun.
    simpl run.
    change (replay_logs logger (EvLog l1 :: EvLog l2 :: t ++ [EvLog l3]) w)
      with (replay_logs logger (t ++ [EvLog l3]) (logger l2 (logger l1 w)))
      in Hchat.
    rewrite replay_logs_app in Hchat. simpl in Hchat. rewrite Hchat.
    unfold response_of. destruct err as [e|]; simpl;
      rewrite <- !app_assoc; reflexivity.
Qed.

End EngineFacts.

(** ** The prompt *)

Section PromptFacts.

Lemma context_blocks_app (front back : list Document) :
  forall i,
    context_blocks i (front ++ back)
    = (context_blocks i front
       ++ context_blocks (i + Z.of_nat (List.length front)) back)%string.
Proof.
  induction front as [|d front IH]; intro i.
  - simpl. now rewrite Z.add_0_r.
  - cbn [context_blocks List.app List.length]. rewrite IH.
    rewrite GoStringFacts.append_assoc.
    replace (i + 1 + Z.of_nat (List.length front))
      with (i + Z.of_nat (S (List.length front))) by lia.
    reflexivity.
Qed.

Lemma context_block_Contains (i : Z) (d : Document) :
  Contains (context_block i d) (Text d).
Proof.
  unfold context_block.
  do 8 apply GoStringFacts.Contains_app_l.
  apply GoStringFacts.Contains_app_r, GoStringFacts.Contains_refl.
Qed.

Lemma context_blocks_Contains (docs : list Document) :
  forall i d, In d docs -> Contains (context_blocks i docs) (Text d).
Proof.
  induction docs as [|d0 docs IH]; intros i d Hin; [contradiction|].
  destruct Hin as [->|Hin]; cbn [context_blocks].
  - apply GoStringFacts.Contains_app_r, context_block_Contains.
  - apply GoStringFacts.Contains_app_l, IH, Hin.
Qed.

Lemma context_block_split (i : Z) (d : Document) :
  context_block i d
  = (block_head i d
     ++ String ":" (String " " (Text d ++ nl ++ nl)))%string.
Proof.
  unfold context_block, block_head.
  rewrite !GoStringFacts.append_assoc. reflexivity.
Qed.

Lemma TrimLeftSpace_context_blocks (i : Z) (docs : list Document) :
  TrimLeftSpace (context_blocks i docs) = context_blocks i docs.
Proof.
  destruct docs as [|d docs]; [reflexivity|].
  cbn [context_blocks]. unfold context_block.
  rewrite GoStringFacts.append_assoc. reflexivity.
Qed.

(** The context of a non-empty document list, trimmed: only the white
    space after the colon of the last [Content:] can go. *)
Lemma TrimSpace_context (front : list Document) (last : Document) :
  TrimSpace (context_blocks 0 (front ++ [last]))
  = (context_blocks 0 front
     ++ block_head (Z.of_nat (List.length front)) last
     ++ String ":" (TrimRightSpace (String " " (Text last))))%string.
Proof.
  unfold TrimSpace. rewrite TrimLeftSpace_context_blocks.
  rewrite context_blocks_app. cbn [context_blocks].
  rewrite GoStringFacts.append_nil_r, context_block_split. simpl (0 + _).
  rewrite <- GoStringFacts.append_assoc.
  rewrite GoStringFacts.TrimRightSpace_after by reflexivity.
  rewrite GoStringFacts.append_assoc.
  replace (String " " (Text last ++ nl ++ nl))
    with ((String " " (Text last) ++ nl) ++ nl)%string
    by (cbn [append]; now rewrite GoStringFacts.append_assoc).
  unfold nl.
  rewrite !GoStringFacts.TrimRightSpace_space_r by reflexivity.
  reflexivity.
Qed.

Lemma build_prompt_context (query : string) (docs : list Document)
      (sub : string) :
  Contains (TrimSpace (context_blocks 0 docs)) sub ->
  Contains (build_prompt query docs) sub.
Proof.
  intro H. unfold build_prompt.
  do 12 apply GoStringFacts.Contains_app_l.
  apply GoStringFacts.Contains_app_r, H.
Qed.

Lemma build_prompt_query (query : string) (docs : list Document) :
  Contains (build_prompt query docs) query.
Proof.
  unfold build_prompt.
  do 16 apply GoStringFacts.Contains_app_l.
  apply GoStringFacts.Contains_app_r, GoStringFacts.Contains_refl.
Qed.

Lemma build_prompt_fallback (query : string) (docs : list Document) :
  Contains (build_prompt query docs)
    "I don't have enough information to answer that question based on the provided context.".
Proof.
  unfold build_prompt.
  do 6 apply GoStringFacts.Contains_app_l.
  apply GoStringFacts.Contains_app_r, GoStringFacts.Contains_refl.
Qed.

Lemma build_prompt_front (query : string) (front : list Document)
      (last d : Document) :
  In d front -> Contains (build_prompt query (front ++ [last])) (Text d).
Proof.
  intro Hin. apply build_prompt_context. rewrite TrimSpace_context.
  apply GoStringFacts.Contains_app_r, context_blocks_Contains, Hin.
Qed.

Lemma build_prompt_last (query : string) (front : list Document)
      (last : Document) :
  Contains (build_prompt query (front ++ [last]))
           (TrimRightSpace (Text last)).
Proof.
  apply build_prompt_context. rewrite TrimSpace_context.
  do 2 apply GoStringFacts.Contains_app_l.
  apply GoStringFacts.Contains_cons.
  now apply GoStringFacts.TrimRightSpace_cons_Contains.
Qed.

End PromptFacts.

(** ** The engine's contract *)

(** C3. With slices of different lengths [AddDocuments] returns false,
    makes no call at all and leaves the world as it was; with slices of
    equal lengths it makes exactly one call, [InsertDocuments] on the two
    slices, and returns what that call answered. *)
Theorem AddDocuments_contract :
  forall (error W : Type) (r : RAGEngine error W)
         (logger : LogLine error -> W -> W)
         (texts sources : list string) (w : W),
    (List.length texts <> List.length sources ->
     run r logger (AddDocuments texts sources) w = (Some false, w, []))
    /\ (List.length texts = List.length sources ->
        run r logger (AddDocuments texts sources) w
        = (Some (fst (InsertDocuments (milvus r) texts sources w)),
           snd (InsertDocuments (milvus r) texts sources w),
           [EvInsertDocuments texts sources
              (fst (InsertDocuments (milvus r) texts sources w))])).
Proof.
  intros error W r logger texts sources w. unfold AddDocuments. split.
  - intro Hne.
    destruct (Z.eqb_spec (Z.of_nat (List.length texts))
                (Z.of_nat (List.length sources))) as [Heq|_].
    + apply Nat2Z.inj in Heq. contradiction.
    + reflexivity.
  - intros ->. rewrite Z.eqb_refl. simpl.
    destruct (InsertDocuments (milvus r) texts sources w). reflexivity.
Qed.

(** The contract at the two calls of the tests' kind: one text with two
    sources, one text with one source. *)
Lemma AddDocuments_contract_witness :
  run (error := unit) test_engine test_logger
      (AddDocuments ["doc1"] ["s1"; "s2"]) fresh_stubs
  = (Some false, fresh_stubs, [])
  /\ run (error := unit) test_engine test_logger
         (AddDocuments ["doc1"] ["s1"]) fresh_stubs
     = (Some true,
        {| oa := oa fresh_stubs;
           mv := {| insertedTexts := ["doc1"]; insertedSources := ["s1"];
                    lastQuery := ""; lastLimit := 0 |} |},
        [EvInsertDocuments ["doc1"] ["s1"] true]).
Proof.
  split.
  - apply (proj1 (AddDocuments_contract unit TestWorld test_engine test_logger
                    ["doc1"] ["s1"; "s2"] fresh_stubs)).
    simpl. discriminate.
  - apply (proj2 (AddDocuments_contract unit TestWorld test_engine test_logger
                    ["doc1"] ["s1"] fresh_stubs)).
    reflexivity.
Defined.

(** C6. Every run of [GenerateResponse] calls the chat collaborator on
    exactly the given model and the two messages built from the query and
    the documents; it returns the answered text with no error when the
    collaborator reports none, and the empty string with the
    collaborator's own error otherwise.  With the stub of the tests, which
    answers [stubbed], the call on [model-x] returns [stubbed] with no
    error and the stub has recorded [model-x]. *)
Theorem GenerateResponse_returns_collaborator_answer :
  (forall (error W : Type) (r : RAGEngine error W)
          (logger : LogLine error -> W -> W)
          (query : string) (docs : list Document) (model : string) (w : W),
      exists (answer : string * option error) (w0 w1 : W),
        ChatCompletion (openai r) model (build_messages query docs) w0
        = (answer, w1)
        /\ chat_calls
             (snd (run r logger (GenerateResponse query docs model) w))
           = [EvChatCompletion model (build_messages query docs) answer]
        /\ fst (fst (run r logger (GenerateResponse query docs model) w))
           = Some match snd answer with
                  | None => (fst answer, None)
                  | Some e => ("", Some e)
                  end)
  /\ (forall (error : Type) (query : string) (docs : list Document)
             (w : TestWorld),
         let result :=
           run (error := error) test_engine test_logger
               (GenerateResponse query docs "model-x") w in
         fst (fst result) = Some ("stubbed", None)
         /\ lastModel (oa (snd (fst result))) = "model-x"
         /\ lastMessages (oa (snd (fst result))) = build_messages query docs).
Proof.
  split.
  - intros error W r logger query docs model w.
    destruct (run_GenerateResponse r logger query docs model w)
      as (before & line & Hc & Hs & Hrun).
    cbv zeta in Hrun.
    destruct (ChatCompletion (openai r) model (build_messages query docs)
                (replay_logs logger before w)) as [answer w1] eqn:Hchat.
    exists answer, (replay_logs logger before w), w1.
    rewrite Hrun. split; [exact Hchat|]. split.
    + simpl. unfold chat_calls in *. rewrite filter_app, Hc. reflexivity.
    + simpl. unfold response_of. now destruct (snd answer).
  - intros error query docs w result. subst result.
    destruct (run_GenerateResponse (error := error) test_engine test_logger
                query docs "model-x" w)
      as (before & line & Hc & Hs & Hrun).
    cbv zeta in Hrun.
    rewrite (replay_logs_silent test_logger (fun _ _ => eq_refl)) in Hrun.
    change (ChatCompletion (openai test_engine) "model-x"
              (build_messages query docs) w)
      with (("stubbed", @None error),
            {| oa := {| lastModel := "model-x";
                        lastMessages := build_messages query docs |};
               mv := mv w |}) in Hrun.
    rewrite Hrun. repeat split.
Qed.

(** C9. Called without documents, [GenerateResponse] still hands the chat
    collaborator a system message and a user message; the user prompt is
    the template around an empty context, it is not empty, and it
    contains the fallback sentence and the query. *)
Theorem GenerateResponse_without_documents :
  forall (error W : Type) (r : RAGEngine error W)
         (logger : LogLine error -> W -> W)
         (query model : string) (w : W),
  exists (prompt : string) (answer : string * option error),
    chat_calls (snd (run r logger (GenerateResponse query [] model) w))
    = [EvChatCompletion model
         [ {| Role := "system";
              Content := "You are a helpful assistant that answers questions based on provided context." |};
           {| Role := "user"; Content := prompt |} ]
         answer]
    /\ prompt
       = ("You are a helpful assistant that answers questions based on the provided context."
          ++ nl
          ++ "Use the context below to answer the user's question. If the answer cannot be found in the context,"
          ++ nl ++ "say " ++ dquote
          ++ "I don't have enough information to answer that question based on the provided context."
          ++ dquote ++ nl ++ nl ++ "Context:" ++ nl ++ nl ++ nl
          ++ "Question: " ++ query ++ nl ++ nl ++ "Answer:")%string
    /\ prompt <> ""
    /\ Contains prompt
         "I don't have enough information to answer that question based on the provided context."
    /\ Contains prompt query.
Proof.
  intros error W r logger query model w.
  destruct (run_GenerateResponse r logger query [] model w)
    as (before & line & Hc & Hs & Hrun).
  cbv zeta in Hrun.
  destruct (ChatCompletion (openai r) model (build_messages query [])
              (replay_logs logger before w)) as [answer w1].
  exists (build_prompt query []), answer. rewrite Hrun. split; [|split].
  - simpl. unfold chat_calls in *. rewrite filter_app, Hc. reflexivity.
  - reflexivity.
  - split; [|split].
    + unfold build_prompt. discriminate.
    + apply build_prompt_fallback.
    + apply build_prompt_query.
Qed.

(** C10. A run of [AddDocuments] never calls the chat collaborator and
    calls the store at most once, through [InsertDocuments]; a run of
    [GenerateResponse] never calls the store and calls the chat
    collaborator exactly once, through [ChatCompletion].  The engine is
    the pair of its two references and nothing else: a method body is a
    value of [Prog], which can only return, call out through one of the
    two references or write a log line; a run hands back no engine, and
    it is the same run on any engine built from the same two
    references. *)
Theorem one_collaborator_per_call :
  forall (error W : Type) (r : RAGEngine error W)
         (logger : LogLine error -> W -> W) (w : W),
    (forall texts sources : list string,
        let calls := snd (run r logger (AddDocuments texts sources) w) in
        chat_calls calls = []
        /\ (List.length (store_calls calls) <= 1)%nat
        /\ (calls = []
            \/ exists ok, calls = [EvInsertDocuments texts sources ok]))
    /\ (forall (query : string) (docs : list Document) (model : string),
           let calls :=
             snd (run r logger (GenerateResponse query docs model) w) in
           store_calls calls = []
           /\ exists answer,
               chat_calls calls
               = [EvChatCompletion model (build_messages query docs) answer])
    /\ (forall (A : Type) (body : Prog error A),
           run r logger body w
           = run (NewRAGEngine (openai r) (milvus r)) logger body w).
Proof.
  intros error W r logger w. split; [|split].
  3: { intros A body. destruct r. reflexivity. }
  - intros texts sources calls. subst calls. unfold AddDocuments.
    destruct (negb _).
    + simpl. auto.
    + simpl. destruct (InsertDocuments (milvus r) texts sources w) as [ok w1].
      simpl. repeat split; eauto.
  - intros query docs model calls. subst calls.
    destruct (run_GenerateResponse r logger query docs model w)
      as (before & line & Hc & Hs & Hrun).
    cbv zeta in Hrun.
    destruct (ChatCompletion (openai r) model (build_messages query docs)
                (replay_logs logger before w)) as [answer w1].
    rewrite Hrun. simpl. split.
    + unfold store_calls in *. rewrite filter_app, Hs. reflexivity.
    + exists answer. unfold chat_calls in *. rewrite filter_app, Hc.
      reflexivity.
Qed.

(** C4, as stated, fails on the document of the tests once its text ends
    with a tab: [strings.TrimSpace] removes the tab with the two newlines
    which close the block, and the text is no longer in the prompt. *)
Lemma prompt_loses_trailing_space :
  ~ prompt_carries_documents_verbatim (error := unit)
      test_engine test_logger "question?"
      [ {| Text := String "c" (String "a" (String "t" (String "s"
                     (String "009" EmptyString))));
           Source := "src";
           Similarity := f0_5 |} ]
      "gpt-test" fresh_stubs.
Proof.
  intros (system & user & answer & Hcalls & _ & _ & Hdocs & _).
  vm_compute in Hcalls. injection Hcalls as _ Huser _. subst user.
  specialize (Hdocs _ (or_introl eq_refl)).
  apply GoStringFacts.Contains_ContainsB in Hdocs.
  vm_compute in Hdocs. discriminate.
Qed.

(** C4, amended.  Every run of [GenerateResponse] hands the chat
    collaborator exactly two messages, the first of role [system], the
    second of role [user]; the user message contains the query, contains
    verbatim the text of every document except the last, and contains the
    text of every document, the last included, up to its trailing white
    space. *)
Theorem GenerateResponse_prompt_contents :
  forall (error W : Type) (r : RAGEngine error W)
         (logger : LogLine error -> W -> W)
         (query : string) (docs : list Document) (model : string) (w : W),
  exists (system user : Message) (answer : string * option error),
    chat_calls (snd (run r logger (GenerateResponse query docs model) w))
    = [EvChatCompletion model [system; user] answer]
    /\ Role system = "system" /\ Role user = "user"
    /\ Contains (Content user) query
    /\ Forall (fun d => Contains (Content user) (Text d)) (removelast docs)
    /\ Forall (fun d => Contains (Content user) (TrimRightSpace (Text d)))
              docs.
Proof.
  intros error W r logger query docs model w.
  destruct (run_GenerateResponse r logger query docs model w)
    as (before & line & Hc & Hs & Hrun).
  cbv zeta in Hrun.
  destruct (ChatCompletion (openai r) model (build_messages query docs)
              (replay_logs logger before w)) as [answer w1].
  exists {| Role := "system";
            Content := "You are a helpful assistant that answers questions based on provided context." |},
         {| Role := "user"; Content := build_prompt query docs |}, answer.
  rewrite Hrun. cbn [snd Role Content]. split; [|split; [|split; [|split]]].
  - unfold chat_calls in *. rewrite filter_app, Hc. reflexivity.
  - reflexivity.
  - reflexivity.
  - apply build_prompt_query.
  - induction docs as [|last front _] using rev_ind;
      [split; constructor|].
    split.
    + rewrite removelast_last. apply Forall_forall. intros d Hin.
      now apply build_prompt_front.
    + apply Forall_forall. intros d Hin. apply in_app_or in Hin.
      destruct Hin as [Hin|[<-|[]]].
      * apply GoStringFacts.Contains_trans with (Text d);
          [now apply build_prompt_front|].
        apply GoStringFacts.TrimRightSpace_Contains.
      * apply build_prompt_last.
Qed.

(** ** binary32 arithmetic on non-negative data *)

Module Binary32Facts.
Import Float32 Binary32.

Section Pow2.

Lemma pow2_pos e : (0 < pow2 e)%R.
Proof. apply powerRZ_lt. lra. Qed.

Lemma pow2_add a b : pow2 (a + b) = (pow2 a * pow2 b)%R.
Proof. apply powerRZ_add. lra. Qed.

Lemma pow2_0 : pow2 0 = 1%R.
Proof. reflexivity. Qed.

Lemma pow2_1 : pow2 1 = 2%R.
Proof. unfold pow2. simpl. lra. Qed.

Lemma pow2_succ e : pow2 (e + 1) = (2 * pow2 e)%R.
Proof. rewrite pow2_add, pow2_1. lra. Qed.

Lemma pow2_opp e : (pow2 (- e) * pow2 e = 1)%R.
Proof. rewrite <- pow2_add. replace (- e + e) with 0 by lia. apply pow2_0. Qed.

Lemma pow2_IZR n : 0 <= n -> pow2 n = IZR (2 ^ n).
Proof.
  intro Hn. pattern n. apply natlike_ind; [reflexivity| |assumption].
  intros x Hx IH. unfold Z.succ. rewrite pow2_succ, IH.
  rewrite Z.pow_add_r by lia. rewrite mult_IZR. simpl (2 ^ 1). lra.
Qed.

Lemma pow2_ge_1 n : 0 <= n -> (1 <= pow2 n)%R.
Proof.
  intro Hn. rewrite pow2_IZR by assumption. apply IZR_le.
  pose proof (Z.pow_pos_nonneg 2 n). lia.
Qed.

Lemma pow2_le a b : a <= b -> (pow2 a <= pow2 b)%R.
Proof.
  intro H. replace b with (a + (b - a)) by lia. rewrite pow2_add.
  pose proof (pow2_ge_1 (b - a) ltac:(lia)). pose proof (pow2_pos a). nra.
Qed.

Lemma pow2_lt a b : a < b -> (pow2 a < pow2 b)%R.
Proof.
  intro H. apply Rlt_le_trans with (pow2 (a + 1)).
  - rewrite pow2_succ. pose proof (pow2_pos a). lra.
  - apply pow2_le. lia.
Qed.

Lemma pow2_lt_inv a b : (pow2 a < pow2 b)%R -> a < b.
Proof.
  intro H. destruct (Z_lt_le_dec a b) as [|Hle]; [assumption|].
  apply pow2_le in Hle. lra.
Qed.

Lemma binade_unique v k1 k2 : binade v k1 -> binade v k2 -> k1 = k2.
Proof.
  unfold binade. intros [L1 U1] [L2 U2].
  assert (k1 - 1 < k2) by (apply pow2_lt_inv; lra).
  assert (k2 - 1 < k1) by (apply pow2_lt_inv; lra).
  lia.
Qed.

Lemma binade_le v1 v2 k1 k2 :
  binade v1 k1 -> binade v2 k2 -> (v1 <= v2)%R -> k1 <= k2.
Proof.
  unfold binade. intros [L1 U1] [L2 U2] H.
  assert (k1 - 1 < k2) by (apply pow2_lt_inv; lra). lia.
Qed.

End Pow2.

Section Digits.

Lemma digits2_pos_bounds (p : positive) :
  2 ^ (Zpos (digits2_pos p) - 1) <= Zpos p < 2 ^ Zpos (digits2_pos p).
Proof.
  induction p as [p IH|p IH|]; cbn [digits2_pos].
  - rewrite Pos2Z.inj_succ. unfold Z.succ.
    replace (Z.pos (digits2_pos p) + 1 - 1) with (Z.pos (digits2_pos p) - 1 + 1) by lia.
    rewrite !Z.pow_add_r by lia. change (2 ^ 1) with 2. lia.
  - rewrite Pos2Z.inj_succ. unfold Z.succ.
    replace (Z.pos (digits2_pos p) + 1 - 1) with (Z.pos (digits2_pos p) - 1 + 1) by lia.
    rewrite !Z.pow_add_r by lia. change (2 ^ 1) with 2. lia.
  - simpl. lia.
Qed.

Lemma Zdigits2_bounds (m : Z) :
  0 < m -> 2 ^ (Zdigits2 m - 1) <= m < 2 ^ Zdigits2 m.
Proof.
  destruct m as [|p|p]; try lia. intros _. apply digits2_pos_bounds.
Qed.

Lemma Zdigits2_pos (m : Z) : 0 < m -> 0 < Zdigits2 m.
Proof. destruct m; simpl; lia. Qed.

(** The number of digits is determined by the enclosing powers of two. *)
Lemma Zdigits2_unique (m d : Z) :
  0 < d -> 2 ^ (d - 1) <= m < 2 ^ d -> Zdigits2 m = d.
Proof.
  intros Hd [L U].
  assert (Hm : 0 < m) by (pose proof (Z.pow_pos_nonneg 2 (d - 1)); lia).
  pose proof (Zdigits2_bounds m Hm) as [L' U'].
  pose proof (Zdigits2_pos m Hm).
  assert (d - 1 < Zdigits2 m) by (apply (Z.pow_lt_mono_r_iff 2); lia).
  assert (Zdigits2 m - 1 < d) by (apply (Z.pow_lt_mono_r_iff 2); lia).
  lia.
Qed.

(** A positive value at a positive mantissa lies in the binade of its digits. *)
Lemma repr_binade (m e : Z) (l : location) (v : R) :
  0 < m -> repr m e l v -> binade v (Zdigits2 m + e).
Proof.
  intros Hm Hr. unfold repr in Hr. unfold binade.
  pose proof (Zdigits2_bounds m Hm) as [L U].
  pose proof (Zdigits2_pos m Hm) as Hd.
  apply IZR_le in L. assert (U' : (IZR m + 1 <= IZR (2 ^ Zdigits2 m))%R).
  { rewrite <- plus_IZR. apply IZR_le. lia. }
  rewrite <- !pow2_IZR in * by lia.
  replace (Zdigits2 m + e - 1) with ((Zdigits2 m - 1) + e) by lia.
  rewrite !pow2_add.
  pose proof (pow2_pos e) as He. pose proof (pow2_opp e) as Ho.
  set (x := (v * pow2 (- e))%R) in *.
  assert (Hv : v = (x * pow2 e)%R) by (unfold x; rewrite Rmult_assoc, Ho; lra).
  rewrite Hv.
  assert (Hx : (IZR m <= x < IZR m + 1)%R).
  { destruct l as [|c]; simpl in Hr; [lra|]. destruct Hr as [Hr _]. lra. }
  split.
  - apply Rmult_le_compat_r; lra.
  - apply Rmult_lt_compat_r; lra.
Qed.

End Digits.

Section Shift.

Variable v : R.

Lemma shr_1_tracks (mrs : shr_record) (e : Z) :
  tracks v mrs e -> tracks v (shr_1 mrs) (e + 1).
Proof.
  unfold tracks, repr. intros [Hm Hr].
  replace (- (e + 1)) with (- e + - (1)) by lia.
  rewrite pow2_add, <- Rmult_assoc.
  set (x := (v * pow2 (- e))%R) in *.
  assert (H2 : pow2 (- (1)) = (/ 2)%R).
  { pose proof (pow2_opp 1) as H. rewrite pow2_1 in H. lra. }
  rewrite H2. clear H2.
  destruct mrs as [m r s]. cbn [shr_m] in Hm.
  destruct m as [|p|p]; [| |lia].
  - split; [destruct r, s; simpl; lia|].
    destruct r, s; simpl in *; lra.
  - cbn [shr_m] in Hr.
    destruct p as [p|p|]; cbn [shr_1 shr_m].
    + split; [lia|]. rewrite Pos2Z.inj_xI in Hr.
      destruct r, s; cbn [loc_of_shr_record located orb] in *;
        rewrite ?plus_IZR, ?mult_IZR in Hr; lra.
    + split; [lia|]. rewrite Pos2Z.inj_xO in Hr.
      destruct r, s; cbn [loc_of_shr_record located orb] in *;
        rewrite ?mult_IZR in Hr; lra.
    + split; [lia|].
      destruct r, s; cbn [loc_of_shr_record located orb] in *; lra.
Qed.

Lemma iter_shr_1_tracks (n : positive) :
  forall (mrs : shr_record) (e : Z),
    tracks v mrs e -> tracks v (iter_pos shr_1 n mrs) (e + Zpos n).
Proof.
  induction n as [n IH|n IH|]; intros mrs e H; cbn [iter_pos].
  - replace (e + Z.pos n~1) with (e + 1 + Z.pos n + Z.pos n) by lia.
    apply IH, IH, shr_1_tracks, H.
  - replace (e + Z.pos n~0) with (e + Z.pos n + Z.pos n) by lia.
    apply IH, IH, H.
  - apply shr_1_tracks, H.
Qed.

Lemma loc_of_record_of_loc (m : Z) (l : location) :
  loc_of_shr_record (shr_record_of_loc m l) = l.
Proof. destruct l as [|[]]; reflexivity. Qed.

Lemma shr_m_record_of_loc (m : Z) (l : location) :
  shr_m (shr_record_of_loc m l) = m.
Proof. destruct l as [|[]]; reflexivity. Qed.

(** The first shift of [binary_round_aux] brings the value to the
    exponent of its binade. *)
Lemma shr_fexp_tracks (m e k : Z) (l : location) :
  binade v k -> 0 <= m -> repr m e l v -> e <= fexp32 k ->
  exists mrs,
    shr_fexp prec emax m e l = (mrs, fexp32 k) /\ tracks v mrs (fexp32 k).
Proof.
  intros Hk Hm Hr He.
  assert (Hf : fexp32 (Zdigits2 m + e) = fexp32 k).
  { destruct (Z.eq_dec m 0) as [->|Hne].
    - simpl Zdigits2. unfold repr in Hr.
      destruct Hk as [Lk Uk]. pose proof (pow2_pos (k - 1)).
      pose proof (pow2_opp e). pose proof (pow2_pos e). pose proof (pow2_pos (- e)).
      assert (Hve : (v < pow2 e)%R).
      { destruct l as [|c]; simpl in Hr.
        - assert (v = 0)%R by nra. lra.
        - destruct Hr as [[_ Hr] _].
          replace v with ((v * pow2 (- e)) * pow2 e)%R by (rewrite Rmult_assoc; nra).
          nra. }
      assert (k - 1 < e) by (apply pow2_lt_inv; lra).
      unfold fexp32, fexp, emin, prec, emax in *. lia.
    - f_equal. apply (binade_unique v); [|assumption].
      apply repr_binade with l; [lia|assumption]. }
  unfold shr_fexp. fold (fexp32 (Zdigits2 m + e)). rewrite Hf.
  assert (Ht : tracks v (shr_record_of_loc m l) e).
  { split; rewrite shr_m_record_of_loc; [assumption|].
    now rewrite loc_of_record_of_loc. }
  unfold shr. destruct (fexp32 k - e) as [|n|n] eqn:Hn; try lia.
  - exists (shr_record_of_loc m l). replace (fexp32 k) with e by lia.
    split; [reflexivity|assumption].
  - exists (iter_pos shr_1 n (shr_record_of_loc m l)).
    replace (fexp32 k) with (e + Zpos n) by lia.
    split; [reflexivity|]. now apply iter_shr_1_tracks.
Qed.

End Shift.

(** round_nearest_even stays in the unit interval *)
Lemma round_nearest_even_bounds (m : Z) (l : location) :
  m <= round_nearest_even m l <= m + 1.
Proof.
  destruct l as [|[]]; simpl; try lia. destruct (Z.even m); lia.
Qed.

Lemma round_nearest_even_exact (m : Z) : round_nearest_even m loc_Exact = m.
Proof. reflexivity. Qed.

(** Rounding to the nearest integer is monotone. *)
Lemma round_nearest_even_mono (m1 m2 : Z) (l1 l2 : location) (x1 x2 : R) :
  located m1 l1 x1 -> located m2 l2 x2 -> (x1 <= x2)%R ->
  round_nearest_even m1 l1 <= round_nearest_even m2 l2.
Proof.
  intros H1 H2 Hx.
  assert (B1 : (IZR m1 <= x1 < IZR m1 + 1)%R).
  { destruct l1 as [|c]; simpl in H1; [lra|]. destruct H1 as [H1 _]. lra. }
  assert (B2 : (IZR m2 <= x2 < IZR m2 + 1)%R).
  { destruct l2 as [|c]; simpl in H2; [lra|]. destruct H2 as [H2 _]. lra. }
  assert (Hm : m1 < m2 + 1).
  { apply lt_IZR. rewrite plus_IZR. lra. }
  pose proof (round_nearest_even_bounds m1 l1).
  pose proof (round_nearest_even_bounds m2 l2).
  destruct (Z.eq_dec m1 m2) as [->|Hne]; [|lia].
  destruct l1 as [|[]], l2 as [|[]]; simpl in *;
    try destruct (Z.even m2); try lia; exfalso; lra.
Qed.

Section Core.

Lemma binary_round_aux_pack (m e : Z) (l : location) :
  binary_round_aux prec emax false m e l =
  let '(mrs1, e1) := shr_fexp prec emax m e l in
  let '(mrs2, e2) :=
    shr_fexp prec emax
      (round_nearest_even (shr_m mrs1) (loc_of_shr_record mrs1)) e1 loc_Exact in
  pack (shr_m mrs2) e2.
Proof.
  unfold binary_round_aux.
  destruct (shr_fexp prec emax m e l) as [mrs1 e1].
  destruct (shr_fexp prec emax _ e1 loc_Exact) as [mrs2 e2].
  reflexivity.
Qed.

Lemma shr_1_div2 (mrs : shr_record) :
  0 <= shr_m mrs -> shr_m (shr_1 mrs) = Z.div2 (shr_m mrs).
Proof.
  destruct mrs as [m r s]. cbn [shr_m].
  destruct m as [|[p|p|]|p]; try reflexivity; lia.
Qed.

Lemma fexp32_step (k : Z) :
  fexp32 (k + 1) = fexp32 k \/ fexp32 (k + 1) = fexp32 k + 1.
Proof. unfold fexp32, fexp, emin, prec, emax. lia. Qed.

(** The second shift of [binary_round_aux] normalises the rounded
    mantissa without changing its value. *)
Lemma second_shift (v : R) (k m : Z) (l : location) :
  binade v k -> 0 <= m -> repr m (fexp32 k) l v ->
  exists m2 e2,
    (let '(mrs2, e2') :=
       shr_fexp prec emax (round_nearest_even m l) (fexp32 k) loc_Exact in
     (shr_m mrs2, e2')) = (m2, e2)
    /\ (IZR m2 * pow2 e2 = IZR (round_nearest_even m l) * pow2 (fexp32 k))%R
    /\ 0 <= m2 /\ (m2 = 0 \/ canonical m2 e2).
Proof.
  intros [Lk Uk] Hm Hr.
  set (e := fexp32 k) in *. set (m1 := round_nearest_even m l).
  pose proof (round_nearest_even_bounds m l) as Hb. fold m1 in Hb.
  (* no shift when the rounded mantissa already sits at its exponent *)
  assert (Hstay : fexp32 (Zdigits2 m1 + e) <= e ->
                  (let '(mrs2, e2') := shr_fexp prec emax m1 e loc_Exact in
                   (shr_m mrs2, e2')) = (m1, e)).
  { intro H. unfold shr_fexp. fold (fexp32 (Zdigits2 m1 + e)).
    unfold shr. destruct (fexp32 (Zdigits2 m1 + e) - e) eqn:Hd;
      try lia; reflexivity. }
  unfold repr in Hr. fold e in Hr.
  set (x := (v * pow2 (- e))%R) in *.
  assert (Hx : (IZR m <= x < IZR m + 1)%R).
  { destruct l as [|c]; simpl in Hr; [lra|]. destruct Hr as [Hr _]. lra. }
  pose proof (pow2_pos (- e)) as Hpe.
  assert (Lx : (pow2 (k - 1 - e) <= x)%R).
  { replace (k - 1 - e) with ((k - 1) + - e) by lia. rewrite pow2_add.
    unfold x. apply Rmult_le_compat_r; lra. }
  assert (Ux : (x < pow2 (k - e))%R).
  { replace (k - e) with (k + - e) by lia. rewrite pow2_add.
    unfold x. apply Rmult_lt_compat_r; lra. }
  destruct (Z_le_gt_dec e (k - 1)) as [Hn|Hs].
  - (* at least one digit *)
    set (j := k - e) in *. assert (Hj : 1 <= j) by lia.
    replace (k - 1 - e) with (j - 1) in Lx by lia.
    rewrite pow2_IZR in Lx, Ux by lia.
    assert (Hlo : 2 ^ (j - 1) <= m).
    { assert (2 ^ (j - 1) < m + 1); [|lia].
      apply lt_IZR. rewrite plus_IZR. lra. }
    assert (Hhi : m < 2 ^ j) by (apply lt_IZR; lra).
    destruct (Z_lt_le_dec m1 (2 ^ j)) as [Hlt|Hge].
    + exists m1, e. split; [|split; [reflexivity|split; [lia|]]].
      * apply Hstay. rewrite (Zdigits2_unique m1 j) by lia.
        replace (j + e) with k by lia. fold e. lia.
      * right. unfold canonical. rewrite (Zdigits2_unique m1 j) by lia.
        replace (j + e) with k by lia. reflexivity.
    + assert (Hm1 : m1 = 2 ^ j) by lia.
      assert (Hd : Zdigits2 m1 = j + 1).
      { apply Zdigits2_unique; [lia|]. rewrite Hm1.
        replace (j + 1 - 1) with j by lia. split; [lia|].
        apply Z.pow_lt_mono_r; lia. }
      destruct (fexp32_step k) as [Hf|Hf]; fold e in Hf.
      * exists m1, e. split; [|split; [reflexivity|split; [lia|]]].
        -- apply Hstay. rewrite Hd. replace (j + 1 + e) with (k + 1) by lia.
           lia.
        -- right. unfold canonical. rewrite Hd.
           replace (j + 1 + e) with (k + 1) by lia. assumption.
      * exists (2 ^ (j - 1)), (e + 1).
        assert (Hpow : 2 ^ j = 2 * 2 ^ (j - 1)).
        { replace j with ((j - 1) + 1) at 1 by lia.
          rewrite Z.pow_add_r by lia. change (2 ^ 1) with 2. lia. }
        split; [|split; [|split]].
        -- unfold shr_fexp. fold (fexp32 (Zdigits2 m1 + e)). rewrite Hd.
           replace (j + 1 + e) with (k + 1) by lia. rewrite Hf.
           replace (e + 1 - e) with 1 by lia.
           unfold shr. cbn [iter_pos]. rewrite shr_1_div2 by (simpl; lia).
           cbn [shr_record_of_loc shr_m]. rewrite Hm1, Hpow.
           rewrite Z.div2_div, Z.mul_comm, Z.div_mul by lia. reflexivity.
        -- rewrite pow2_succ. fold m1. rewrite Hm1, Hpow, mult_IZR. lra.
        -- pose proof (Z.pow_pos_nonneg 2 (j - 1)). lia.
        -- right. unfold canonical.
           assert (Hd2 : Zdigits2 (2 ^ (j - 1)) = j).
           { apply Zdigits2_unique; [lia|]. split; [lia|].
             apply Z.pow_lt_mono_r; lia. }
           rewrite Hd2. replace (j + (e + 1)) with (k + 1) by lia.
           assumption.
  - (* below the smallest subnormal *)
    assert (He : e = -149 /\ k <= -149).
    { unfold e, fexp32, fexp, emin, prec, emax in *. lia. }
    destruct He as [He Hk].
    assert (Hx1 : (x < 1)%R).
    { apply Rlt_le_trans with (pow2 (k - e)); [assumption|].
      rewrite <- pow2_0. apply pow2_le. lia. }
    assert (Hm0 : m = 0).
    { assert (m < 1); [|lia]. apply lt_IZR. lra. }
    assert (Hm1 : m1 = 0 \/ m1 = 1) by lia.
    exists m1, e. split; [|split; [reflexivity|split; [lia|]]].
    + apply Hstay. rewrite He.
      destruct Hm1 as [-> | ->]; vm_compute; discriminate.
    + destruct Hm1 as [-> | ->]; [now left|right].
      unfold canonical. rewrite He. reflexivity.
Qed.

(** [binary_round_aux] rounds the value it is given to the nearest
    datum. *)
Lemma binary_round_aux_Rnd (v : R) (k m e : Z) (l : location) :
  binade v k -> 0 <= m -> repr m e l v -> e <= fexp32 k ->
  Rnd v (binary_round_aux prec emax false m e l).
Proof.
  intros Hk Hm Hr He.
  destruct (shr_fexp_tracks v m e k l Hk Hm Hr He) as (mrs1 & Hs1 & Hm1 & Hr1).
  destruct (second_shift v k _ _ Hk Hm1 Hr1) as (m2 & e2 & Hs2 & Hv & Hm2 & Hc).
  rewrite binary_round_aux_pack, Hs1.
  destruct (shr_fexp prec emax _ (fexp32 k) loc_Exact) as [mrs2 e2'].
  injection Hs2 as E1 E2. subst m2 e2.
  exists k, (IZR (shr_m mrs2) * pow2 e2')%R, (shr_m mrs2), e2'.
  split; [assumption|]. split.
  - exists (shr_m mrs1), (loc_of_shr_record mrs1). now rewrite Hv.
  - auto.
Qed.

End Core.

Section Order.

Lemma fexp32_mono (k k' : Z) : k <= k' -> fexp32 k <= fexp32 k'.
Proof. unfold fexp32, fexp, emin, prec, emax. lia. Qed.

Lemma located_bounds (m : Z) (l : location) (x : R) :
  located m l x -> (IZR m <= x < IZR m + 1)%R.
Proof.
  destruct l as [|c]; simpl; [lra|]. intros [H _]. lra.
Qed.

Lemma scale_back (v : R) (e : Z) : v = ((v * pow2 (- e)) * pow2 e)%R.
Proof. rewrite Rmult_assoc, pow2_opp. lra. Qed.

(** Rounding to nearest is monotone. *)
Lemma rounded_mono (v v' : R) (k k' : Z) (r r' : R) :
  binade v k -> binade v' k' -> rounded v k r -> rounded v' k' r' ->
  (v <= v')%R -> (r <= r')%R.
Proof.
  intros Hk Hk' (m & l & Hm & Hr & ->) (m' & l' & Hm' & Hr' & ->) Hv.
  pose proof (binade_le _ _ _ _ Hk Hk' Hv) as Hkk.
  pose proof (fexp32_mono _ _ Hkk) as Hee.
  unfold repr in Hr, Hr'.
  pose proof (round_nearest_even_bounds m l) as Hb.
  pose proof (round_nearest_even_bounds m' l') as Hb'.
  destruct (Z.eq_dec (fexp32 k) (fexp32 k')) as [Heq|Hne].
  - rewrite <- Heq in *.
    apply Rmult_le_compat_r; [pose proof (pow2_pos (fexp32 k)); lra|].
    apply IZR_le.
    apply (round_nearest_even_mono _ _ _ _ _ _ Hr Hr').
    apply Rmult_le_compat_r; [pose proof (pow2_pos (- fexp32 k)); lra|].
    assumption.
  - assert (Hlt : fexp32 k < fexp32 k') by lia.
    assert (He' : fexp32 k' = k' - 24 /\ k < k').
    { unfold fexp32, fexp, emin, prec, emax in *. lia. }
    destruct He' as [He' Hk1].
    assert (He : k - 24 <= fexp32 k).
    { unfold fexp32, fexp, emin, prec, emax. lia. }
    revert He He' Hlt Hr Hr' Hee Hne.
    generalize (fexp32 k) (fexp32 k'). intros e e' He He' Hlt Hr Hr' _ _.
    apply located_bounds in Hr, Hr'.
    destruct Hk as [Lk Uk], Hk' as [Lk' Uk'].
    pose proof (pow2_pos e) as Pe. pose proof (pow2_pos e') as Pe'.
    pose proof (pow2_pos (- e)) as Pne. pose proof (pow2_pos (- e')) as Pne'.
    apply Rle_trans with (pow2 (k' - 1)).
    + (* the lower value rounds below the next binade *)
      assert (Ux : (v * pow2 (- e) < pow2 (k - e))%R).
      { replace (k - e) with (k + - e) by lia. rewrite pow2_add.
        apply Rmult_lt_compat_r; lra. }
      destruct (Z_le_gt_dec e k) as [Hle|Hgt].
      * rewrite (pow2_IZR (k - e)) in Ux by lia.
        assert (m < 2 ^ (k - e)) by (apply lt_IZR; lra).
        apply Rle_trans with (IZR (2 ^ (k - e)) * pow2 e)%R.
        -- apply Rmult_le_compat_r; [lra|]. apply IZR_le. lia.
        -- rewrite <- pow2_IZR, <- pow2_add by lia.
           apply pow2_le. lia.
      * assert (Hx1 : (v * pow2 (- e) < 1)%R).
        { apply Rlt_trans with (pow2 (k - e)); [assumption|].
          rewrite <- pow2_0. apply pow2_lt. lia. }
        assert (m < 1) by (apply lt_IZR; lra).
        apply Rle_trans with (1 * pow2 e)%R.
        -- apply Rmult_le_compat_r; [lra|]. apply IZR_le. lia.
        -- rewrite Rmult_1_l. apply pow2_le. lia.
    + (* the upper value rounds at or above the start of its binade *)
      assert (Lx : (pow2 23 <= v' * pow2 (- e'))%R).
      { replace 23 with ((k' - 1) + - e') by lia. rewrite pow2_add.
        apply Rmult_le_compat_r; lra. }
      rewrite pow2_IZR in Lx by lia.
      assert (2 ^ 23 < m' + 1).
      { apply lt_IZR. rewrite plus_IZR. lra. }
      apply Rle_trans with (IZR (2 ^ 23) * pow2 e')%R.
      * rewrite <- pow2_IZR, <- pow2_add by lia. apply pow2_le. lia.
      * apply Rmult_le_compat_r; [lra|]. apply IZR_le. lia.
Qed.

(** Canonical numbers are ordered by exponent first. *)
Lemma canonical_lt (p1 p2 : positive) (e1 e2 : Z) :
  canonical (Zpos p1) e1 -> canonical (Zpos p2) e2 -> e1 < e2 ->
  (IZR (Zpos p1) * pow2 e1 < IZR (Zpos p2) * pow2 e2)%R.
Proof.
  unfold canonical. intros C1 C2 Hlt.
  pose proof (Zdigits2_bounds (Zpos p1) ltac:(lia)) as [_ U1].
  pose proof (Zdigits2_bounds (Zpos p2) ltac:(lia)) as [L2 _].
  pose proof (Zdigits2_pos (Zpos p1) ltac:(lia)) as D1.
  assert (Hd2 : Zdigits2 (Zpos p2) = 24).
  { unfold fexp32, fexp, emin, prec, emax in *. lia. }
  assert (Hd1 : Zdigits2 (Zpos p1) <= 24).
  { unfold fexp32, fexp, emin, prec, emax in *. lia. }
  rewrite Hd2 in L2.
  assert (U1' : Zpos p1 < 2 ^ 24).
  { apply Z.lt_le_trans with (2 ^ Zdigits2 (Zpos p1)); [assumption|].
    apply Z.pow_le_mono_r; lia. }
  apply IZR_lt in U1'. apply IZR_le in L2.
  rewrite <- pow2_IZR in U1', L2 by lia.
  pose proof (pow2_pos e1). pose proof (pow2_pos e2).
  apply Rlt_le_trans with (pow2 24 * pow2 e1)%R.
  - apply Rmult_lt_compat_r; lra.
  - apply Rle_trans with (pow2 (24 - 1) * pow2 e2)%R.
    + rewrite <- !pow2_add. apply pow2_le. lia.
    + apply Rmult_le_compat_r; lra.
Qed.

Lemma finite_compare (p1 p2 : positive) (e1 e2 : Z) :
  canonical (Zpos p1) e1 -> canonical (Zpos p2) e2 ->
  SFleb (S754_finite false p1 e1) (S754_finite false p2 e2) = true
  <-> (IZR (Zpos p1) * pow2 e1 <= IZR (Zpos p2) * pow2 e2)%R.
Proof.
  intros C1 C2. unfold SFleb, SFcompare.
  destruct (Z.compare_spec e1 e2) as [->|Hlt|Hgt].
  - pose proof (pow2_pos e2) as P.
    change (Pos.compare_cont Eq p1 p2) with (Pos.compare p1 p2).
    destruct (Pos.compare_spec p1 p2) as [->|H|H]; split; intro Hx;
      try reflexivity; try discriminate.
    + apply Rmult_le_compat_r; [lra|]. apply IZR_le. lia.
    + exfalso. apply Rmult_le_reg_r in Hx; [|assumption].
      apply le_IZR in Hx. lia.
  - pose proof (canonical_lt _ _ _ _ C1 C2 Hlt). split; [lra|reflexivity].
  - pose proof (canonical_lt _ _ _ _ C2 C1 Hgt).
    split; [discriminate|lra].
Qed.

Lemma finite_pos (p : positive) (e : Z) : (0 < IZR (Zpos p) * pow2 e)%R.
Proof.
  apply Rmult_lt_0_compat; [apply IZR_lt; lia|apply pow2_pos].
Qed.

(** On non-negative data [<=] reads the values. *)
Lemma SFleb_le_opt (x y : spec_float) :
  NN x -> NN y -> (SFleb x y = true <-> le_opt (ev x) (ev y)).
Proof.
  destruct x as [sx|sx| |sx mx ex], y as [sy|sy| |sy my ey];
    simpl; try tauto; intros Hx Hy.
  - split; [lra|reflexivity].
  - subst sy. split; [exact (fun _ => I)|reflexivity].
  - destruct Hy as (-> & _ & _). pose proof (finite_pos my ey).
    split; [lra|reflexivity].
  - subst sx. split; [discriminate|tauto].
  - subst sx sy. split; [exact (fun _ => I)|reflexivity].
  - subst sx. destruct Hy as (-> & _ & _). split; [discriminate|tauto].
  - destruct Hx as (-> & _ & _). pose proof (finite_pos mx ex).
    split; [discriminate|lra].
  - destruct Hx as (-> & _ & _). subst sy.
    split; [exact (fun _ => I)|reflexivity].
  - destruct Hx as (-> & Cx & _), Hy as (-> & Cy & _).
    now apply finite_compare.
Qed.

Lemma pack_NN (m e : Z) : 0 <= m -> m = 0 \/ canonical m e -> NN (pack m e).
Proof.
  intros Hm Hc. destruct m as [|p|p]; [exact I| |lia].
  destruct Hc as [Hc|Hc]; [discriminate|]. unfold pack.
  destruct (Z.leb_spec e (emax - prec)) as [Hb|Hb]; cbn [NN];
    [repeat split; assumption|reflexivity].
Qed.

Lemma Rnd_NN (v : R) (x : spec_float) : Rnd v x -> NN x.
Proof.
  intros (k & r & m & e & _ & _ & _ & Hm & Hc & ->). now apply pack_NN.
Qed.

(** The nearest datum is monotone in the real. *)
Lemma Rnd_mono (v v' : R) (x x' : spec_float) :
  Rnd v x -> Rnd v' x' -> (v <= v')%R -> SFleb x x' = true.
Proof.
  intros (k & r & m & e & Hk & Hr & Hre & Hm & Hc & ->)
         (k' & r' & m' & e' & Hk' & Hr' & Hre' & Hm' & Hc' & ->) Hv.
  pose proof (rounded_mono _ _ _ _ _ _ Hk Hk' Hr Hr' Hv) as Hrr.
  subst r r'.
  pose proof (pack_NN _ _ Hm' Hc') as HN'.
  destruct m as [|p|p]; [| |lia].
  - (* zero is below every non-negative datum *)
    simpl. destruct (pack m' e') as [s|s| |s q f]; simpl in HN' |- *;
      try reflexivity; try contradiction.
    + now subst s.
    + now destruct HN' as (-> & _).
  - destruct Hc as [Hc|Hc]; [discriminate|].
    pose proof (finite_pos p e) as Hp.
    destruct m' as [|p'|p']; [simpl in Hrr; lra| |lia].
    destruct Hc' as [Hc'|Hc']; [discriminate|].
    assert (Hee : e <= e').
    { destruct (Z_le_gt_dec e e') as [|Hgt]; [assumption|].
      pose proof (canonical_lt _ _ _ _ Hc' Hc ltac:(lia)). lra. }
    unfold pack. destruct (Z.leb_spec e' (emax - prec)) as [Hb'|Hb'].
    + destruct (Z.leb_spec e (emax - prec)) as [Hb|Hb]; [|lia].
      now apply finite_compare.
    + destruct (e <=? emax - prec); reflexivity.
Qed.

(** A non-negative datum is the value it denotes. *)
Lemma NN_Sem (x : spec_float) : NN x -> Sem (ev x) x.
Proof.
  destruct x as [s|s| |s m e]; simpl; intro H.
  - left. eauto.
  - now subst s.
  - contradiction.
  - destruct H as (-> & Hc & Hb). right. split; [apply finite_pos|].
    set (k := Zdigits2 (Zpos m) + e).
    assert (Hrep : repr (Zpos m) e loc_Exact (IZR (Zpos m) * pow2 e)).
    { unfold repr, located.
      now rewrite Rmult_assoc, (Rmult_comm (pow2 e)), pow2_opp, Rmult_1_r. }
    exists k, (IZR (Zpos m) * pow2 e)%R, (Zpos m), e.
    split; [|split; [|split; [|split; [|split]]]].
    + apply repr_binade with loc_Exact; [lia|assumption].
    + exists (Zpos m), loc_Exact. unfold canonical in Hc. fold k in Hc.
      rewrite Hc. repeat split; [lia|assumption].
    + reflexivity.
    + lia.
    + now right.
    + unfold pack. destruct (Z.leb_spec e (emax - prec)); [reflexivity|].
      unfold emax, prec in *. lia.
Qed.

Lemma Sem_NN (u : option R) (x : spec_float) : Sem u x -> NN x.
Proof.
  destruct u as [v|]; simpl.
  - intros [[_ [s ->]]|[_ H]]; [exact I|now apply Rnd_NN with v].
  - now intros ->.
Qed.

(** The exact results in order give the rounded results in order. *)
Lemma Sem_mono (u u' : option R) (x x' : spec_float) :
  Sem u x -> Sem u' x' -> le_opt u u' -> SFleb x x' = true.
Proof.
  intros Hx Hx' Hu.
  pose proof (Sem_NN _ _ Hx) as Nx. pose proof (Sem_NN _ _ Hx') as Nx'.
  destruct u' as [v'|]; simpl in Hx'.
  - destruct u as [v|]; simpl in Hx, Hu; [|contradiction].
    destruct Hx as [[-> [s ->]]|[Hv Hx]].
    + apply SFleb_le_opt; [exact I|assumption|].
      destruct x' as [s'|s'| |s' m' e']; simpl; try lra; try exact I.
      simpl in Nx'. pose proof (finite_pos m' e'). lra.
    + destruct Hx' as [[-> _]|[Hv' Hx']]; [lra|].
      now apply Rnd_mono with v v'.
  - subst x'. apply SFleb_le_opt; [assumption|reflexivity|].
    destruct (ev x); exact I.
Qed.

End Order.

Section Operations.

Lemma Zdigits2_mul (a b : positive) :
  Zdigits2 (Zpos a) + Zdigits2 (Zpos b) - 1 <= Zdigits2 (Zpos (a * b)).
Proof.
  pose proof (Zdigits2_bounds (Zpos a) ltac:(lia)) as [La _].
  pose proof (Zdigits2_bounds (Zpos b) ltac:(lia)) as [Lb _].
  pose proof (Zdigits2_bounds (Zpos (a * b)) ltac:(lia)) as [_ Uab].
  pose proof (Zdigits2_pos (Zpos a) ltac:(lia)).
  pose proof (Zdigits2_pos (Zpos b) ltac:(lia)).
  pose proof (Zdigits2_pos (Zpos (a * b)) ltac:(lia)).
  set (da := Zdigits2 (Zpos a)) in *. set (db := Zdigits2 (Zpos b)) in *.
  set (dab := Zdigits2 (Zpos (a * b))) in *.
  assert (Hp : 2 ^ (da + db - 2) <= Zpos a * Zpos b).
  { replace (da + db - 2) with ((da - 1) + (db - 1)) by lia.
    rewrite Z.pow_add_r by lia.
    apply Z.mul_le_mono_nonneg; try lia; apply Z.pow_nonneg; lia. }
  rewrite <- Pos2Z.inj_mul in Hp.
  assert (da + db - 2 < dab); [|lia].
  apply (Z.pow_lt_mono_r_iff 2); lia.
Qed.

Lemma exact_repr (m e : Z) : repr m e loc_Exact (IZR m * pow2 e).
Proof.
  unfold repr, located.
  now rewrite Rmult_assoc, (Rmult_comm (pow2 e)), pow2_opp, Rmult_1_r.
Qed.

(** The product of two positive canonical numbers is rounded once. *)
Lemma mul_Rnd (mx my : positive) (ex ey : Z) :
  canonical (Zpos mx) ex -> canonical (Zpos my) ey ->
  Rnd (IZR (Zpos mx) * pow2 ex * (IZR (Zpos my) * pow2 ey))
      (SFmul prec emax (S754_finite false mx ex) (S754_finite false my ey)).
Proof.
  intros Cx Cy. cbn [SFmul xorb].
  replace (IZR (Zpos mx) * pow2 ex * (IZR (Zpos my) * pow2 ey))%R
    with (IZR (Zpos (mx * my)) * pow2 (ex + ey))%R
    by (rewrite Pos2Z.inj_mul, mult_IZR, pow2_add; ring).
  apply binary_round_aux_Rnd with (Zdigits2 (Zpos (mx * my)) + (ex + ey)).
  - apply repr_binade with loc_Exact; [lia|apply exact_repr].
  - lia.
  - apply exact_repr.
  - pose proof (Zdigits2_mul mx my).
    pose proof (Zdigits2_pos (Zpos mx) ltac:(lia)).
    pose proof (Zdigits2_pos (Zpos my) ltac:(lia)).
    unfold canonical, fexp32, fexp, emin, prec, emax in *. lia.
Qed.

Lemma shl_align_spec (m : positive) (e e' : Z) :
  snd (shl_align m e e') = Z.min e e'
  /\ (IZR (Zpos (fst (shl_align m e e'))) * pow2 (Z.min e e')
      = IZR (Zpos m) * pow2 e)%R
  /\ Zpos (fst (shl_align m e e')) = Zpos m * 2 ^ (e - Z.min e e').
Proof.
  unfold shl_align. destruct (e' - e) as [|d|d] eqn:Hd; cbn [fst snd].
  - replace (Z.min e e') with e by lia. rewrite Z.sub_diag. split; [|split]; auto. lia.
  - replace (Z.min e e') with e by lia. rewrite Z.sub_diag. split; [|split]; auto. lia.
  - replace (Z.min e e') with e' by lia.
    assert (Hs : Zpos (Pos.iter xO m d) = Zpos m * 2 ^ (e - e')).
    { change (Pos.iter xO m d) with (shift_pos d m).
      rewrite shift_pos_correct. replace (e - e') with (Zpos d) by lia.
      rewrite Z.mul_comm. reflexivity. }
    split; [reflexivity|split; [|assumption]].
    rewrite Hs, mult_IZR, <- pow2_IZR by lia.
    rewrite Rmult_assoc, <- pow2_add. f_equal. f_equal. lia.
Qed.

(** [binary_round] rounds the number it is given. *)
Lemma binary_round_Rnd (m : positive) (e : Z) :
  Rnd (IZR (Zpos m) * pow2 e) (binary_round prec emax false m e).
Proof.
  unfold binary_round.
  set (k := Zdigits2 (Zpos m) + e).
  change (Zpos (digits2_pos m) + e) with k.
  fold (fexp32 k).
  pose proof (shl_align_spec m e (fexp32 k)) as (He & Hv & _).
  destruct (shl_align m e (fexp32 k)) as [mz ez]. cbn [fst snd] in *.
  subst ez. rewrite <- Hv.
  apply binary_round_aux_Rnd with k.
  - rewrite Hv. apply repr_binade with loc_Exact; [lia|apply exact_repr].
  - lia.
  - apply exact_repr.
  - lia.
Qed.

(** The sum of two positive numbers is rounded once. *)
Lemma add_Rnd (mx my : positive) (ex ey : Z) :
  Rnd (IZR (Zpos mx) * pow2 ex + IZR (Zpos my) * pow2 ey)
      (SFadd prec emax (S754_finite false mx ex) (S754_finite false my ey)).
Proof.
  cbn [SFadd cond_Zopp].
  pose proof (shl_align_spec mx ex (Z.min ex ey)) as (_ & Hx & _).
  pose proof (shl_align_spec my ey (Z.min ex ey)) as (_ & Hy & _).
  replace (Z.min ex (Z.min ex ey)) with (Z.min ex ey) in Hx by lia.
  replace (Z.min ey (Z.min ex ey)) with (Z.min ex ey) in Hy by lia.
  rewrite <- Hx, <- Hy, <- Rmult_plus_distr_r, <- plus_IZR.
  cbn [Z.add binary_normalize].
  apply binary_round_Rnd.
Qed.

Lemma new_location_located (q r n : Z) (x : R) :
  0 < n -> 0 <= r < n ->
  (x * IZR n = IZR q * IZR n + IZR r)%R ->
  located q (new_location n r) x.
Proof.
  intros Hn Hr Hx.
  assert (Pn : (0 < IZR n)%R) by (apply IZR_lt; lia).
  assert (Hr0 : (0 <= IZR r)%R) by (apply IZR_le; lia).
  assert (Hrn : (IZR r < IZR n)%R) by (apply IZR_lt; lia).
  assert (Hbetween : r <> 0 -> (IZR q < x < IZR q + 1)%R).
  { intro Hne. assert (0 < IZR r)%R by (apply IZR_lt; lia). split; nra. }
  assert (Hexact : r = 0 -> x = IZR q).
  { intros ->. apply Rmult_eq_reg_r with (IZR n); lra. }
  assert (Hlt : 2 * r < n -> (2 * x < 2 * IZR q + 1)%R).
  { intro H. apply IZR_lt in H. rewrite mult_IZR in H. nra. }
  assert (Heq : 2 * r = n -> (2 * x = 2 * IZR q + 1)%R).
  { intro H. apply (f_equal IZR) in H. rewrite mult_IZR in H.
    apply Rmult_eq_reg_r with (IZR n); lra. }
  assert (Hgt : n < 2 * r -> (2 * x > 2 * IZR q + 1)%R).
  { intro H. apply IZR_lt in H. rewrite mult_IZR in H. nra. }
  unfold new_location.
  destruct (Z.even n) eqn:Hev.
  - unfold new_location_even. destruct (Z.eqb_spec r 0) as [H0|Hne].
    + now apply Hexact.
    + cbn [located]. split; [now apply Hbetween|].
      destruct (Z.compare_spec (2 * r) n) as [H|H|H]; auto.
  - unfold new_location_odd. destruct (Z.eqb_spec r 0) as [H0|Hne].
    + now apply Hexact.
    + cbn [located]. split; [now apply Hbetween|].
      assert (Hodd : 2 * r <> n).
      { intro H. rewrite <- H, Z.even_mul in Hev. discriminate. }
      destruct (Z.compare_spec (2 * r + 1) n) as [H|H|H];
        [apply Hlt|apply Hlt|apply Hgt]; lia.
Qed.

End Operations.

Section Division.

Lemma pow2_inv (e : Z) : pow2 (- e) = (/ pow2 e)%R.
Proof.
  pose proof (pow2_opp e) as H. pose proof (pow2_pos e) as P.
  apply Rmult_eq_reg_r with (pow2 e); [|lra].
  rewrite H. field. lra.
Qed.

Lemma IZR_digits_bounds (p : positive) :
  (pow2 (Zdigits2 (Zpos p) - 1) <= IZR (Zpos p) < pow2 (Zdigits2 (Zpos p)))%R.
Proof.
  pose proof (Zdigits2_bounds (Zpos p) ltac:(lia)) as [L U].
  pose proof (Zdigits2_pos (Zpos p) ltac:(lia)).
  rewrite !pow2_IZR by lia. split; [apply IZR_le|apply IZR_lt]; assumption.
Qed.

Lemma quotient_binade (A B : R) (dA dB ex ey : Z) :
  (pow2 (dA - 1) <= A < pow2 dA)%R -> (pow2 (dB - 1) <= B < pow2 dB)%R ->
  exists k,
    binade (A * pow2 ex / (B * pow2 ey)) k /\ dA + ex - (dB + ey) <= k.
Proof.
  intros [LA UA] [LB UB].
  set (M := dA + ex - (dB + ey)).
  assert (PA : (0 < A)%R) by (pose proof (pow2_pos (dA - 1)); lra).
  assert (PB : (0 < B)%R) by (pose proof (pow2_pos (dB - 1)); lra).
  pose proof (pow2_pos ex) as PP. pose proof (pow2_pos ey) as PQ.
  set (v := (A * pow2 ex / (B * pow2 ey))%R).
  assert (Hv : (v * (B * pow2 ey) = A * pow2 ex)%R).
  { unfold v. field. split; lra. }
  clearbody v.
  assert (PBQ : (0 < B * pow2 ey)%R) by (apply Rmult_lt_0_compat; assumption).
  assert (HM : (pow2 (M - 1) < v < pow2 (M + 1))%R).
  { split; apply Rmult_lt_reg_r with (B * pow2 ey)%R; try assumption;
      rewrite Hv.
    - apply Rlt_le_trans with (pow2 (M - 1) * (pow2 dB * pow2 ey))%R.
      + apply Rmult_lt_compat_l; [apply pow2_pos|].
        apply Rmult_lt_compat_r; assumption.
      + rewrite <- !pow2_add.
        replace (M - 1 + (dB + ey)) with ((dA - 1) + ex) by (unfold M; lia).
        rewrite pow2_add. apply Rmult_le_compat_r; [lra|assumption].
    - apply Rlt_le_trans with (pow2 dA * pow2 ex)%R.
      + apply Rmult_lt_compat_r; assumption.
      + apply Rle_trans with (pow2 (M + 1) * (pow2 (dB - 1) * pow2 ey))%R.
        * rewrite <- !pow2_add. apply pow2_le. unfold M. lia.
        * apply Rmult_le_compat_l; [pose proof (pow2_pos (M + 1)); lra|].
          apply Rmult_le_compat_r; [lra|assumption]. }
  destruct (Rlt_le_dec v (pow2 M)) as [Hlt|Hge].
  - exists M. split; [split; lra|lia].
  - exists (M + 1). unfold binade. replace (M + 1 - 1) with M by lia.
    split; [split; lra|lia].
Qed.

(** The quotient of two positive numbers is rounded once. *)
Lemma div_Rnd (mx my : positive) (ex ey : Z) :
  Rnd (IZR (Zpos mx) * pow2 ex / (IZR (Zpos my) * pow2 ey))
      (SFdiv prec emax (S754_finite false mx ex) (S754_finite false my ey)).
Proof.
  cbn [SFdiv xorb]. unfold SFdiv_core_binary.
  set (M := Zdigits2 (Zpos mx) + ex - (Zdigits2 (Zpos my) + ey)).
  fold (fexp32 M).
  set (e' := Z.min (fexp32 M) (ex - ey)).
  set (s := ex - ey - e').
  assert (Hs : 0 <= s) by (unfold s, e'; lia).
  set (m' := match s with
             | 0 => Zpos mx
             | Zpos _ => Z.shiftl (Zpos mx) s
             | Zneg _ => 0
             end).
  assert (Hm' : m' = Zpos mx * 2 ^ s).
  { unfold m'. destruct s as [|p|p] eqn:Hp; [simpl; lia| |lia].
    now rewrite Z.shiftl_mul_pow2 by lia. }
  pose proof (Z_div_mod m' (Zpos my) ltac:(lia)) as Hdiv.
  destruct (Z.div_eucl m' (Zpos my)) as [q r]. destruct Hdiv as [Hqr Hr].
  assert (Hm'0 : 0 <= m').
  { rewrite Hm'. pose proof (Z.pow_nonneg 2 s). nia. }
  assert (Hq : 0 <= q) by nia.
  destruct (quotient_binade _ _ _ _ ex ey
              (IZR_digits_bounds mx) (IZR_digits_bounds my))
    as (k & Hk & HMk).
  fold M in HMk.
  apply binary_round_aux_Rnd with k; try assumption.
  - unfold repr. apply new_location_located; [lia|lia|].
    rewrite <- mult_IZR, <- plus_IZR, (Z.mul_comm q), <- Hqr, Hm'.
    rewrite mult_IZR, <- pow2_IZR by assumption.
    unfold s. replace (ex - ey - e') with (ex + - ey + - e') by lia.
    rewrite !pow2_add, (pow2_inv ey).
    assert (PB : (0 < IZR (Zpos my))%R) by (apply IZR_lt; lia).
    pose proof (pow2_pos ey) as PQ.
    revert PB. generalize (IZR (Zpos mx)) (IZR (Zpos my)). intros A B PB.
    field. split; lra.
  - pose proof (fexp32_mono M k HMk). unfold e'. lia.
Qed.

End Division.

Section Lifted.

Lemma cval_pos (c : spec_float) : positive_const c -> (0 < cval c)%R.
Proof.
  destruct c as [| | |[] m e]; simpl; try contradiction.
  intros _. apply finite_pos.
Qed.

Lemma ev_nonneg (x : spec_float) : le_opt (Some 0%R) (ev x).
Proof.
  destruct x as [s|s| |s m e]; simpl.
  - lra.
  - exact I.
  - lra.
  - apply Rlt_le, finite_pos.
Qed.

Lemma mul_Sem (x c : spec_float) :
  NN x -> positive_const c ->
  Sem (omul (ev x) (cval c)) (SFmul prec emax x c).
Proof.
  intros Hx Hc. pose proof (cval_pos c Hc) as Pc.
  destruct c as [| | |[] mc ec]; try contradiction.
  destruct Hc as [Cc Bc].
  destruct x as [s|s| |s m e]; simpl in Hx; try contradiction.
  - left. split; [simpl; lra|]. simpl. eauto.
  - subst s. reflexivity.
  - destruct Hx as (-> & Cx & Bx). right. split.
    + simpl. pose proof (finite_pos m e). pose proof (finite_pos mc ec).
      apply Rmult_lt_0_compat; assumption.
    + now apply mul_Rnd.
Qed.

Lemma div_Sem (x c : spec_float) :
  NN x -> positive_const c ->
  Sem (odiv (ev x) (cval c)) (SFdiv prec emax x c).
Proof.
  intros Hx Hc. pose proof (cval_pos c Hc) as Pc.
  destruct c as [| | |[] mc ec]; try contradiction.
  destruct x as [s|s| |s m e]; simpl in Hx; try contradiction.
  - left. split; [|simpl; eauto]. unfold ev, odiv. f_equal.
    unfold Rdiv. apply Rmult_0_l.
  - subst s. reflexivity.
  - destruct Hx as (-> & Cx & Bx). right. split.
    + simpl. pose proof (finite_pos m e). pose proof (finite_pos mc ec).
      apply Rdiv_lt_0_compat; assumption.
    + apply div_Rnd.
Qed.

Lemma Sem_ext (u u' : option R) (x : spec_float) :
  u = u' -> Sem u x -> Sem u' x.
Proof. now intros ->. Qed.

Lemma add_Sem (x y : spec_float) :
  NN x -> NN y -> Sem (oadd (ev x) (ev y)) (SFadd prec emax x y).
Proof.
  intros Hx Hy.
  destruct x as [sx|sx| |sx mx ex]; simpl in Hx; try contradiction;
    destruct y as [sy|sy| |sy my ey]; simpl in Hy; try contradiction.
  - left. split; [simpl; lra|]. simpl. destruct sx, sy; eauto.
  - subst sy. reflexivity.
  - apply Sem_ext with (ev (S754_finite sy my ey)).
    + simpl. f_equal. lra.
    + now apply NN_Sem.
  - subst sx. reflexivity.
  - subst sx sy. reflexivity.
  - subst sx. reflexivity.
  - apply Sem_ext with (ev (S754_finite sx mx ex)).
    + simpl. f_equal. lra.
    + now apply NN_Sem.
  - subst sy. reflexivity.
  - destruct Hx as (-> & _), Hy as (-> & _). right. split.
    + pose proof (finite_pos mx ex). pose proof (finite_pos my ey).
      simpl. lra.
    + apply add_Rnd.
Qed.

Lemma fle_refl (x : spec_float) : NN x -> fle x x.
Proof.
  intro Hx. repeat split; try assumption.
  apply SFleb_le_opt; try assumption.
  destruct (ev x); simpl; [lra|exact I].
Qed.

Lemma fle_trans (x y z : spec_float) : fle x y -> fle y z -> fle x z.
Proof.
  intros (Hx & Hy & Hxy) (_ & Hz & Hyz). repeat split; try assumption.
  apply SFleb_le_opt in Hxy, Hyz; try assumption.
  apply SFleb_le_opt; try assumption.
  destruct (ev x), (ev y), (ev z); simpl in *; try lra; tauto.
Qed.

Lemma mul_mono (x y c : spec_float) :
  fle x y -> positive_const c ->
  fle (SFmul prec emax x c) (SFmul prec emax y c).
Proof.
  intros (Hx & Hy & Hxy) Hc.
  pose proof (mul_Sem x c Hx Hc) as Sx. pose proof (mul_Sem y c Hy Hc) as Sy.
  repeat split; [now apply Sem_NN in Sx|now apply Sem_NN in Sy|].
  apply (Sem_mono _ _ _ _ Sx Sy).
  apply SFleb_le_opt in Hxy; try assumption.
  pose proof (cval_pos c Hc).
  destruct (ev x), (ev y); simpl in *; try tauto.
  apply Rmult_le_compat_r; lra.
Qed.

Lemma div_mono (x y c : spec_float) :
  fle x y -> positive_const c ->
  fle (SFdiv prec emax x c) (SFdiv prec emax y c).
Proof.
  intros (Hx & Hy & Hxy) Hc.
  pose proof (div_Sem x c Hx Hc) as Sx. pose proof (div_Sem y c Hy Hc) as Sy.
  repeat split; [now apply Sem_NN in Sx|now apply Sem_NN in Sy|].
  apply (Sem_mono _ _ _ _ Sx Sy).
  apply SFleb_le_opt in Hxy; try assumption.
  pose proof (cval_pos c Hc).
  destruct (ev x), (ev y); simpl in *; try tauto.
  unfold Rdiv. apply Rmult_le_compat_r; [|assumption].
  apply Rlt_le, Rinv_0_lt_compat. assumption.
Qed.

Lemma add_mono (x x' y y' : spec_float) :
  fle x x' -> fle y y' ->
  fle (SFadd prec emax x y) (SFadd prec emax x' y').
Proof.
  intros (Hx & Hx' & Hxx) (Hy & Hy' & Hyy).
  pose proof (add_Sem x y Hx Hy) as S. pose proof (add_Sem x' y' Hx' Hy') as S'.
  repeat split; [now apply Sem_NN in S|now apply Sem_NN in S'|].
  apply (Sem_mono _ _ _ _ S S').
  apply SFleb_le_opt in Hxx, Hyy; try assumption.
  destruct (ev x), (ev x'), (ev y), (ev y'); simpl in *; try tauto; lra.
Qed.

(** On non-negative data [<] is the negation of [>=]. *)
Lemma SFltb_SFleb (x y : spec_float) :
  NN x -> NN y -> SFltb x y = negb (SFleb y x).
Proof.
  intros Hx Hy. unfold SFltb, SFleb.
  destruct x as [sx|sx| |sx mx ex]; simpl in Hx; try contradiction;
    destruct y as [sy|sy| |sy my ey]; simpl in Hy; try contradiction;
    try (subst; reflexivity);
    try (destruct Hx as (-> & _)); try (destruct Hy as (-> & _));
    try (subst; reflexivity).
  simpl. rewrite (Z.compare_antisym ex ey).
  destruct (ex ?= ey); simpl; try reflexivity.
  change (Pos.compare_cont Eq my mx) with (Pos.compare my mx).
  change (Pos.compare_cont Eq mx my) with (Pos.compare mx my).
  rewrite (Pos.compare_antisym mx my).
  destruct (mx ?= my)%positive; reflexivity.
Qed.

End Lifted.

End Binary32Facts.

(** ** The quality score *)

Section ScorerFacts.

Lemma weight_at_rank (rank : nat) :
  (if Z.of_nat rank <? Z.of_nat (List.length weights)
   then nth (Z.to_nat (Z.of_nat rank)) weights f1
   else f0_1)
  = positional_weight rank.
Proof.
  rewrite Nat2Z.id.
  destruct rank as [|[|[|rank]]]; try reflexivity.
  replace (Z.of_nat (S (S (S rank))) <? Z.of_nat (List.length weights))
    with false; [reflexivity|].
  symmetry. apply Z.ltb_ge. simpl List.length. lia.
Qed.

(** The loop adds the contributions in input order. *)
Lemma score_loop_sum (docs : list Document) :
  forall (rank : nat) (total : float32),
    score_loop (Z.of_nat rank) docs total
    = fold_left add (contributions_from rank docs) total.
Proof.
  induction docs as [|doc rest IH]; intros rank total.
  - reflexivity.
  - cbn [score_loop contributions_from fold_left].
    rewrite weight_at_rank.
    replace (Z.of_nat rank + 1) with (Z.of_nat (S rank)) by lia.
    apply IH.
Qed.

End ScorerFacts.

(** C7, as stated, fails already on one document of similarity 1: its
    contribution 1 * 0.5 * 10 divided by 5 is 1, but the code returns
    10, because line 225 multiplies the quotient by 10. *)
Lemma quality_score_is_not_the_plain_quotient :
  let docs := [ {| Text := "info about cats"; Source := "src";
                   Similarity := f1 |} ] in
  calculateQualityScore docs = f10
  /\ qualityScore_as_worded docs = f1
  /\ calculateQualityScore docs <> qualityScore_as_worded docs.
Proof.
  cbv zeta. split; [|split]; try (vm_compute; reflexivity).
  vm_compute. discriminate.
Qed.

(** C7, amended.  The quality score of an empty list is 0; for any other
    list it is the sum, in input order, of [similarity * weight * 10]
    (weights 0.5, 0.3, 0.2 for the first three documents and 0.1 for each
    later one), divided by 5 for one document, 8 for two and 10 for three
    or more, then multiplied by 10, and at most 10. *)
Theorem calculateQualityScore_formula :
  forall docs : list Document,
    calculateQualityScore docs = qualityScore_scaled docs.
Proof.
  intro docs. unfold calculateQualityScore, qualityScore_scaled.
  destruct docs as [|d1 rest]; [reflexivity|].
  replace (Z.of_nat (List.length (d1 :: rest)) =? 0) with false
    by (symmetry; apply Z.eqb_neq; simpl List.length; lia).
  unfold clamp10, contribution_sum.
  change (score_loop 0 (d1 :: rest) zero)
    with (score_loop (Z.of_nat 0) (d1 :: rest) zero).
  rewrite score_loop_sum.
  destruct rest as [|d2 [|d3 rest]]; try reflexivity.
  replace (Z.of_nat (List.length (d1 :: d2 :: d3 :: rest)) =? 1) with false
    by (symmetry; apply Z.eqb_neq; simpl List.length; lia).
  replace (Z.of_nat (List.length (d1 :: d2 :: d3 :: rest)) =? 2) with false
    by (symmetry; apply Z.eqb_neq; simpl List.length; lia).
  reflexivity.
Qed.

Section ScoreOrder.
Import Binary32 Binary32Facts.

Lemma unit_similarity_NN (x : float32) : unit_similarity x -> NN x.
Proof.
  intros (Hv & H0 & _).
  destruct x as [s|s| |s m e]; simpl.
  - exact I.
  - destruct s; [discriminate|reflexivity].
  - discriminate.
  - destruct s; [discriminate|].
    unfold valid, valid_binary, bounded, canonical_mantissa in Hv.
    apply andb_prop in Hv. destruct Hv as [Hc Hb].
    apply Z.eqb_eq in Hc. apply Z.leb_le in Hb. repeat split; assumption.
Qed.

Lemma positive_const_weight (i : Z) :
  positive_const
    (if i <? Z.of_nat (List.length weights)
     then nth (Z.to_nat i) weights f1 else f0_1).
Proof.
  destruct (i <? Z.of_nat (List.length weights)).
  - destruct (Z.to_nat i) as [|[|[|[|n]]]]; vm_compute; split;
      try reflexivity; discriminate.
  - vm_compute. split; [reflexivity|discriminate].
Qed.

Lemma positive_const_f10 : positive_const f10.
Proof. vm_compute. split; [reflexivity|discriminate]. Qed.

Lemma positive_const_denominator (n : Z) :
  positive_const (if n =? 1 then f5 else if n =? 2 then f8 else f10).
Proof.
  destruct (n =? 1); [|destruct (n =? 2)]; vm_compute; split;
    try reflexivity; discriminate.
Qed.

Lemma score_loop_mono (docs docs' : list Document) :
  similarities_le docs docs' ->
  forall (i : Z) (total total' : float32),
    fle total total' ->
    fle (score_loop i docs total) (score_loop i docs' total').
Proof.
  induction 1 as [|d d' docs docs' Hd _ IH]; intros i total total' Ht.
  - exact Ht.
  - cbn [score_loop]. apply IH. apply add_mono; [assumption|].
    apply mul_mono; [|apply positive_const_f10].
    apply mul_mono; [assumption|apply positive_const_weight].
Qed.

Lemma clamp_mono (x y : float32) :
  fle x y ->
  fle (if gtb x f10 then f10 else x) (if gtb y f10 then f10 else y).
Proof.
  intros (Hx & Hy & Hxy).
  assert (H10 : NN f10)
    by (vm_compute; repeat split; try reflexivity; discriminate).
  unfold gtb, ltb. rewrite !SFltb_SFleb by assumption.
  destruct (SFleb x f10) eqn:Ex, (SFleb y f10) eqn:Ey; cbn [negb].
  - split; [|split]; assumption.
  - split; [|split]; assumption.
  - exfalso.
    assert (Hc : fle x f10).
    { apply fle_trans with y; (split; [|split]); assumption. }
    destruct Hc as (_ & _ & Hc). congruence.
  - now apply fle_refl.
Qed.

Lemma clamp_le (x : float32) :
  NN x -> leb (if gtb x f10 then f10 else x) f10 = true.
Proof.
  intro Hx.
  assert (H10 : NN f10)
    by (vm_compute; repeat split; try reflexivity; discriminate).
  unfold gtb, ltb, leb. rewrite SFltb_SFleb by assumption.
  destruct (SFleb x f10) eqn:Ex; cbn [negb]; [assumption|reflexivity].
Qed.

(** The quality score is monotone in the similarities, taken together. *)
Lemma calculateQualityScore_mono (docs docs' : list Document) :
  similarities_le docs docs' ->
  fle (calculateQualityScore docs) (calculateQualityScore docs').
Proof.
  intro H. unfold calculateQualityScore.
  rewrite <- (Forall2_length H).
  destruct (Z.of_nat (List.length docs) =? 0).
  - now apply fle_refl.
  - cbv zeta. apply clamp_mono.
    apply mul_mono; [|apply positive_const_f10].
    apply div_mono; [|apply positive_const_denominator].
    apply score_loop_mono; [assumption|now apply fle_refl].
Qed.

Lemma similarities_le_refl (docs : list Document) :
  unit_similarities docs -> similarities_le docs docs.
Proof.
  induction 1 as [|d docs Hd _ IH]; constructor; [|assumption].
  now apply fle_refl, unit_similarity_NN.
Qed.

End ScoreOrder.

(** C8.  The quality score of the empty list is 0; when every similarity
    is a binary32 datum between 0 and 1 the score lies between 0 and 10;
    and raising the similarity of one document, the others unchanged,
    does not lower the score.  The order is the one of [float32]
    comparisons, on the rounded results the code computes. *)
Theorem qualityScore_bounded_and_monotone :
  calculateQualityScore [] = zero
  /\ (forall docs : list Document,
         unit_similarities docs ->
         leb zero (calculateQualityScore docs) = true
         /\ leb (calculateQualityScore docs) f10 = true)
  /\ (forall (front back : list Document) (d d' : Document),
         unit_similarities (front ++ d :: back) ->
         unit_similarity (Similarity d') ->
         leb (Similarity d) (Similarity d') = true ->
         leb (calculateQualityScore (front ++ d :: back))
             (calculateQualityScore (front ++ d' :: back)) = true).
Proof.
  split; [reflexivity|split].
  - intros docs Hdocs.
    pose proof (calculateQualityScore_mono docs docs
                  (similarities_le_refl docs Hdocs)) as (Hq & _ & _).
    split.
    + apply Binary32Facts.SFleb_le_opt; [exact I|assumption|].
      apply Binary32Facts.ev_nonneg.
    + unfold calculateQualityScore in *.
      destruct (Z.of_nat (List.length docs) =? 0); [reflexivity|].
      cbv zeta in *.
      match goal with
      | |- leb (if gtb ?q f10 then f10 else ?q) f10 = true =>
          destruct (gtb q f10) eqn:Hg; [reflexivity|]
      end.
      unfold gtb, ltb in Hg.
      rewrite Binary32Facts.SFltb_SFleb in Hg;
        [now apply negb_false_iff in Hg|
         vm_compute; repeat split; try reflexivity; discriminate|
         assumption].
  - intros front back d d' Hdocs Hd' Hle.
    unfold unit_similarities in Hdocs. apply Forall_app in Hdocs.
    destruct Hdocs as [Hfront Hback].
    apply Forall_cons_iff in Hback. destruct Hback as [Hd Hback].
    apply calculateQualityScore_mono. apply Forall2_app.
    + now apply similarities_le_refl.
    + constructor; [|now apply similarities_le_refl].
      split; [|split]; try assumption; now apply unit_similarity_NN.
Qed.

(** The bounds on two documents of similarities 0.9 and 0.6, and the
    order when the second similarity is raised to 0.8. *)
Lemma qualityScore_bounded_and_monotone_witness :
  leb zero (calculateQualityScore [cats f0_9; cats f0_6]) = true
  /\ leb (calculateQualityScore [cats f0_9; cats f0_6]) f10 = true
  /\ leb (calculateQualityScore [cats f0_9; cats f0_6])
         (calculateQualityScore [cats f0_9; cats f0_8]) = true.
Proof.
  assert (H6 : unit_similarities [cats f0_9; cats f0_6]).
  { repeat (constructor; [vm_compute; auto|]). constructor. }
  assert (H8 : unit_similarity (Similarity (cats f0_8))).
  { vm_compute. auto. }
  pose proof qualityScore_bounded_and_monotone as (_ & Hrange & Hmono).
  split; [|split].
  - apply (Hrange _ H6).
  - apply (Hrange _ H6).
  - apply (Hmono [cats f0_9] [] (cats f0_6) (cats f0_8) H6 H8).
    reflexivity.
Defined.

(** ** More on strings: lengths, slices and trimmed strings *)

Module TrimFacts.
Import GoStringFacts.

Lemma length_append (a b : string) :
  String.length (a ++ b) = (String.length a + String.length b)%nat.
Proof. induction a as [|c a IH]; simpl; congruence. Qed.

Lemma len_append (a b : string) : len (a ++ b) = len a + len b.
Proof. unfold len. rewrite length_append. lia. Qed.

Lemma len_nonneg (s : string) : 0 <= len s.
Proof. unfold len. lia. Qed.

Lemma len_0 (s : string) : len s = 0 -> s = "".
Proof. unfold len. destruct s; simpl; [reflexivity|lia]. Qed.

Lemma Contains_len (s sub : string) : Contains s sub -> len sub <= len s.
Proof.
  intros (pre & post & ->). rewrite !len_append.
  pose proof (len_nonneg pre). pose proof (len_nonneg post). lia.
Qed.

(** A substring within range splits the string around itself. *)
Lemma substring_split (s : string) :
  forall n m : nat,
    (n + m <= String.length s)%nat ->
    exists pre post,
      s = (pre ++ substring n m s ++ post)%string
      /\ String.length pre = n
      /\ String.length (substring n m s) = m.
Proof.
  induction s as [|c s IH]; intros n m H; simpl in H.
  - assert (n = 0%nat) by lia. assert (m = 0%nat) by lia. subst.
    now exists "", "".
  - destruct n as [|n].
    + destruct m as [|m].
      * exists "", (String c s). now simpl.
      * destruct (IH 0%nat m ltac:(lia)) as (pre & post & Hs & Hp & Hl).
        destruct pre; [|discriminate]. simpl in Hs.
        exists "", post. cbn [substring append String.length].
        now rewrite <- Hs, Hl.
    + destruct (IH n m ltac:(lia)) as (pre & post & Hs & Hp & Hl).
      exists (String c pre), post. cbn [substring append String.length].
      now rewrite <- Hs, Hp, Hl.
Qed.

Lemma substring_full (s : string) : substring 0 (String.length s) s = s.
Proof. induction s as [|c s IH]; simpl; congruence. Qed.

(** What a slice expression that does not panic gives. *)
Lemma slice_spec (s piece : string) (lo hi : Z) :
  slice s lo hi = Some piece ->
  0 <= lo <= hi /\ hi <= len s /\ len piece = hi - lo
  /\ exists pre post,
       s = (pre ++ piece ++ post)%string /\ len pre = lo.
Proof.
  unfold slice. intro H.
  destruct (0 <=? lo) eqn:H0; [|discriminate].
  destruct (lo <=? hi) eqn:H1; [|discriminate].
  destruct (hi <=? len s) eqn:H2; [|discriminate].
  apply Z.leb_le in H0, H1, H2. simpl in H. injection H as <-.
  unfold len in *.
  destruct (substring_split s (Z.to_nat lo) (Z.to_nat (hi - lo))
              ltac:(lia)) as (pre & post & Hs & Hp & Hl).
  repeat split; try lia.
  exists pre, post. split; [exact Hs|lia].
Qed.

Lemma slice_in_range (s : string) (lo hi : Z) :
  0 <= lo <= hi -> hi <= len s ->
  exists piece, slice s lo hi = Some piece.
Proof.
  intros H1 H2. unfold slice.
  replace (0 <=? lo) with true by (symmetry; apply Z.leb_le; lia).
  replace (lo <=? hi) with true by (symmetry; apply Z.leb_le; lia).
  replace (hi <=? len s) with true by (symmetry; apply Z.leb_le; lia).
  simpl. eauto.
Qed.

Lemma slice_Contains (s piece : string) (lo hi : Z) :
  slice s lo hi = Some piece -> Contains s piece.
Proof.
  intro H. apply slice_spec in H.
  destruct H as (_ & _ & _ & pre & post & Hs & _). now exists pre, post.
Qed.

(** *** What trimming leaves *)

Lemma TrimLeftSpace_suffix :
  forall (n : nat) (s : string),
    (String.length s <= n)%nat ->
    exists dropped, s = (dropped ++ TrimLeftSpace s)%string.
Proof.
  induction n as [n IH] using lt_wf_ind. intros s Hn.
  destruct s as [|b1 s1]; [now exists ""|].
  cbn [TrimLeftSpace]. simpl in Hn.
  destruct (asciiSpace b1).
  { destruct (IH (String.length s1) ltac:(lia) s1 (le_n _)) as [p Hp].
    exists (String b1 p). cbn [append]. now rewrite <- Hp. }
  destruct s1 as [|b2 s2]; [now exists ""|]. simpl in Hn.
  destruct (space2 b1 b2).
  { destruct (IH (String.length s2) ltac:(lia) s2 (le_n _)) as [p Hp].
    exists (String b1 (String b2 p)). cbn [append]. now rewrite <- Hp. }
  destruct s2 as [|b3 s3]; [now exists ""|]. simpl in Hn.
  destruct (space3 b1 b2 b3).
  { destruct (IH (String.length s3) ltac:(lia) s3 (le_n _)) as [p Hp].
    exists (String b1 (String b2 (String b3 p))). cbn [append].
    now rewrite <- Hp. }
  now exists "".
Qed.

Lemma TrimLeftSpace_Contains (s : string) : Contains s (TrimLeftSpace s).
Proof.
  destruct (TrimLeftSpace_suffix _ s (le_n _)) as [p Hp].
  exists p, "". now rewrite append_nil_r.
Qed.

(** What [strings.TrimSpace] returns is a piece of its argument. *)
Lemma TrimSpace_Contains (s : string) : Contains s (TrimSpace s).
Proof.
  unfold TrimSpace.
  eapply Contains_trans;
    [apply TrimLeftSpace_Contains|apply TrimRightSpace_Contains].
Qed.

Lemma TrimLeftSpace_length (s : string) :
  (String.length (TrimLeftSpace s) <= String.length s)%nat.
Proof.
  destruct (TrimLeftSpace_suffix _ s (le_n _)) as [p Hp].
  rewrite Hp at 2. rewrite length_append. lia.
Qed.

Lemma TrimLeftSpace_rev_length (r : string) :
  (String.length (TrimLeftSpace_rev r) <= String.length r)%nat.
Proof.
  destruct (TrimLeftSpace_rev_suffix _ r (le_n _)) as [p Hp].
  rewrite Hp at 2. rewrite length_append. lia.
Qed.

(** Trimming a second time removes nothing. *)
Lemma TrimLeftSpace_fixed :
  forall (n : nat) (s : string),
    (String.length s <= n)%nat ->
    TrimLeftSpace (TrimLeftSpace s) = TrimLeftSpace s.
Proof.
  induction n as [n IH] using lt_wf_ind. intros s Hn.
  destruct s as [|b1 s1]; [reflexivity|].
  cbn [TrimLeftSpace]. simpl in Hn.
  destruct (asciiSpace b1) eqn:H1.
  { apply (IH (String.length s1)); lia. }
  destruct s1 as [|b2 s2].
  { cbn [TrimLeftSpace]. now rewrite H1. }
  simpl in Hn. destruct (space2 b1 b2) eqn:H2.
  { apply (IH (String.length s2)); lia. }
  destruct s2 as [|b3 s3].
  { cbn [TrimLeftSpace]. now rewrite H1, H2. }
  simpl in Hn. destruct (space3 b1 b2 b3) eqn:H3.
  { apply (IH (String.length s3)); lia. }
  cbn [TrimLeftSpace]. now rewrite H1, H2, H3.
Qed.

Lemma TrimLeftSpace_rev_fixed :
  forall (n : nat) (r : string),
    (String.length r <= n)%nat ->
    TrimLeftSpace_rev (TrimLeftSpace_rev r) = TrimLeftSpace_rev r.
Proof.
  induction n as [n IH] using lt_wf_ind. intros r Hn.
  destruct r as [|b1 r1]; [reflexivity|].
  cbn [TrimLeftSpace_rev]. simpl in Hn.
  destruct (asciiSpace b1) eqn:H1.
  { apply (IH (String.length r1)); lia. }
  destruct r1 as [|b2 r2].
  { cbn [TrimLeftSpace_rev]. now rewrite H1. }
  simpl in Hn. destruct (space2 b2 b1) eqn:H2.
  { apply (IH (String.length r2)); lia. }
  destruct r2 as [|b3 r3].
  { cbn [TrimLeftSpace_rev]. now rewrite H1, H2. }
  simpl in Hn. destruct (space3 b3 b2 b1) eqn:H3.
  { apply (IH (String.length r3)); lia. }
  cbn [TrimLeftSpace_rev]. now rewrite H1, H2, H3.
Qed.

(** A string that has no leading white space keeps none when bytes are
    taken off its end. *)
Lemma TrimLeftSpace_prefix (kept dropped : string) :
  TrimLeftSpace (kept ++ dropped) = (kept ++ dropped)%string ->
  TrimLeftSpace kept = kept.
Proof.
  intro H.
  destruct kept as [|b1 k1]; [reflexivity|].
  cbn [append TrimLeftSpace] in H |- *.
  destruct (asciiSpace b1).
  { exfalso. pose proof (TrimLeftSpace_length (k1 ++ dropped)) as Hl.
    rewrite H in Hl. simpl in Hl. lia. }
  destruct k1 as [|b2 k2]; [reflexivity|].
  cbn [append] in H.
  destruct (space2 b1 b2).
  { exfalso. pose proof (TrimLeftSpace_length (k2 ++ dropped)) as Hl.
    rewrite H in Hl. simpl in Hl. lia. }
  destruct k2 as [|b3 k3]; [reflexivity|].
  cbn [append] in H.
  destruct (space3 b1 b2 b3); [|reflexivity].
  exfalso. pose proof (TrimLeftSpace_length (k3 ++ dropped)) as Hl.
  rewrite H in Hl. simpl in Hl. lia.
Qed.

(** [strings.TrimSpace] is idempotent. *)
Lemma TrimSpace_idempotent (s : string) :
  TrimSpace (TrimSpace s) = TrimSpace s.
Proof.
  unfold TrimSpace.
  set (L := TrimLeftSpace s).
  assert (HL : TrimLeftSpace L = L)
    by (apply (TrimLeftSpace_fixed _ s (le_n _))).
  assert (Hleft : TrimLeftSpace (TrimRightSpace L) = TrimRightSpace L).
  { unfold TrimRightSpace.
    destruct (TrimLeftSpace_rev_suffix _ (rev L) (le_n _)) as [p Hp].
    apply (TrimLeftSpace_prefix _ (rev p)).
    rewrite <- rev_app, <- Hp, rev_involutive. exact HL. }
  rewrite Hleft. unfold TrimRightSpace.
  rewrite rev_involutive.
  now rewrite (TrimLeftSpace_rev_fixed _ (rev L) (le_n _)).
Qed.

End TrimFacts.

(** ** ChunkText: what every call that returns gives *)

Section ChunkInvariant.
Import GoStringFacts TrimFacts.

Lemma wrap_small (z : Z) : - 2 ^ 63 <= z < 2 ^ 63 -> GoInt.wrap z = z.
Proof. intro H. unfold GoInt.wrap. rewrite Z.mod_small; lia. Qed.

Lemma wrap_le (z : Z) : - 2 ^ 63 <= z -> GoInt.wrap z <= z.
Proof.
  intro H. unfold GoInt.wrap.
  pose proof (Z.mod_le (z + 2 ^ 63) (2 ^ 64) ltac:(lia) ltac:(lia)). lia.
Qed.

(** The chunk that leaves the boundary search is a piece of the one
    that entered it. *)
Lemma boundary_piece (text chunk chunk' : string)
      (chunkSize start end_ end' : Z) :
  boundary text chunkSize start end_ chunk = Some (chunk', end') ->
  Contains chunk chunk'.
Proof.
  unfold boundary. intro H.
  destruct (end_ <? len text).
  - destruct (_ >? GoInt.add start (GoInt.div chunkSize 2)).
    + destruct (slice chunk 0 _) as [c|] eqn:Hs; [|discriminate].
      injection H as <- _. eapply slice_Contains, Hs.
    + injection H as <- _. apply Contains_refl.
  - injection H as <- _. apply Contains_refl.
Qed.

Lemma well_formed_TrimSpace (text piece : string) (chunkSize : Z) :
  Contains text piece -> len piece <= chunkSize ->
  TrimSpace piece <> "" ->
  well_formed_chunk text chunkSize (TrimSpace piece).
Proof.
  intros Hc Hl Hne. pose proof (TrimSpace_Contains piece) as Ht.
  repeat split.
  - exact Hne.
  - apply Contains_len in Ht. lia.
  - eapply Contains_trans; eassumption.
  - apply TrimSpace_idempotent.
Qed.

(** One pass through the loop body appends at most one chunk, a
    well-formed one. *)
Lemma ChunkText_body_chunks (text : string) (chunkSize overlap start : Z)
      (chunks : list string) :
  - 2 ^ 63 <= chunkSize ->
  Forall (well_formed_chunk text chunkSize) chunks ->
  match ChunkText_body text chunkSize overlap start chunks with
  | Continue _ chunks' | Break chunks' =>
      Forall (well_formed_chunk text chunkSize) chunks'
  | Panic => True
  end.
Proof.
  intros Hcs Hall. unfold ChunkText_body.
  set (end1 := if GoInt.add start chunkSize >? len text
               then len text else GoInt.add start chunkSize).
  destruct (slice text start end1) as [chunk|] eqn:Hs; [|exact I].
  destruct (boundary text chunkSize start end1 chunk) as [[chunk' end']|]
    eqn:Hb; [|exact I].
  assert (Hall' : Forall (well_formed_chunk text chunkSize)
                    (if String.eqb (TrimSpace chunk') ""
                     then chunks else chunks ++ [TrimSpace chunk'])).
  { destruct (String.eqb (TrimSpace chunk') "") eqn:He; [exact Hall|].
    apply Forall_app. split; [exact Hall|].
    constructor; [|constructor].
    pose proof (slice_spec _ _ _ _ Hs) as (Hlo & Hhi & Hlen & _).
    pose proof (boundary_piece _ _ _ _ _ _ _ Hb) as Hpiece.
    apply well_formed_TrimSpace.
    - eapply Contains_trans; [eapply slice_Contains, Hs|exact Hpiece].
    - apply Contains_len in Hpiece.
      assert (end1 <= GoInt.add start chunkSize).
      { unfold end1.
        destruct (GoInt.add start chunkSize >? len text) eqn:Hg; [|lia].
        rewrite Z.gtb_ltb in Hg. apply Z.ltb_lt in Hg. lia. }
      pose proof (wrap_le (start + chunkSize) ltac:(lia)).
      unfold GoInt.add in *. lia.
    - intro Hempty. rewrite Hempty in He. discriminate. }
  destruct (end' =? len text); exact Hall'.
Qed.

Lemma ChunkText_loop_chunks (text : string) (chunkSize overlap : Z) :
  - 2 ^ 63 <= chunkSize ->
  forall (fuel : nat) (start : Z) (chunks out : list string),
    Forall (well_formed_chunk text chunkSize) chunks ->
    ChunkText_loop fuel text chunkSize overlap start chunks
    = Some (Return out) ->
    Forall (well_formed_chunk text chunkSize) out.
Proof.
  intro Hcs. induction fuel as [|fuel IH]; intros start chunks out Hall H;
    simpl in H; destruct (start <? len text); try discriminate;
    try (injection H as <-; exact Hall).
  pose proof (ChunkText_body_chunks text chunkSize overlap start chunks
                Hcs Hall) as Hbody.
  destruct (ChunkText_body text chunkSize overlap start chunks)
    as [start' chunks'|chunks'|]; try discriminate.
  - eapply IH; eassumption.
  - injection H as <-. exact Hbody.
Qed.

End ChunkInvariant.

(** X1. Whatever the overlap and however many iterations it takes, a
    call of [ChunkText] that returns gives well-formed chunks only: no
    chunk is empty, none is longer than [chunkSize] bytes, each occurs
    in the text as it stands, and trimming a chunk again changes
    nothing. *)
Theorem ChunkText_chunks_well_formed
        (text : string) (chunkSize overlap : Z) (fuel : nat)
        (chunks : list string) :
  - 2 ^ 63 <= chunkSize < 2 ^ 63 ->
  ChunkText fuel text chunkSize overlap = Some (Return chunks) ->
  Forall (well_formed_chunk text chunkSize) chunks.
Proof.
  intros [Hcs _] H.
  apply (ChunkText_loop_chunks text chunkSize overlap Hcs fuel 0 [] chunks);
    [constructor|exact H].
Qed.

Lemma ChunkText_chunks_well_formed_witness :
  Forall (well_formed_chunk "One two. Three four five six" 10)
         ["One two."; "o. Three f"; "four five"; "ve six"].
Proof.
  apply (ChunkText_chunks_well_formed
           "One two. Three four five six" 10 2 10).
  - lia.
  - vm_compute. reflexivity.
Defined.

(** ** ChunkText: when the window advances *)

Section ChunkProgress.
Import GoStringFacts TrimFacts.

Variables (text : string) (chunkSize overlap : Z).
Hypothesis Hsize : 0 < chunkSize.
Hypothesis Hoverlap : 0 <= overlap < chunkSize.
Hypothesis Hhalf : overlap <= Z.quot chunkSize 2 + 1.
Hypothesis Hfit : len text + chunkSize < 2 ^ 63.

(** The end the boundary search settles on: the end of the text, or a
    position further than [overlap] bytes after [start]. *)
Lemma boundary_advances (start end_ : Z) (chunk : string) :
  0 <= start < len text ->
  end_ = (if start + chunkSize >? len text
          then len text else start + chunkSize) ->
  len chunk = end_ - start ->
  exists chunk' end',
    boundary text chunkSize start end_ chunk = Some (chunk', end')
    /\ (end' = len text
        \/ (end' < len text /\ start + overlap < end' <= start + chunkSize)).
Proof.
  intros Hstart Hend Hlen. unfold boundary.
  assert (Hend1 : end_ <= len text /\ end_ <= start + chunkSize).
  { subst end_. destruct (start + chunkSize >? len text) eqn:Hg.
    - rewrite Z.gtb_ltb in Hg. apply Z.ltb_lt in Hg. lia.
    - rewrite Z.gtb_ltb in Hg. apply Z.ltb_ge in Hg. lia. }
  destruct (end_ <? len text) eqn:Hlt.
  2:{ apply Z.ltb_ge in Hlt. exists chunk, end_. split; [reflexivity|].
      left. lia. }
  apply Z.ltb_lt in Hlt.
  assert (Hfull : end_ = start + chunkSize).
  { subst end_. destruct (start + chunkSize >? len text); [lia|reflexivity]. }
  pose proof (LastIndex_bounds chunk "."%char) as Hp.
  pose proof (LastIndex_bounds chunk "010"%char) as Hn.
  set (lastBreak := if LastIndex chunk "010"%char >? LastIndex chunk "."%char
                    then LastIndex chunk "010"%char
                    else LastIndex chunk "."%char).
  assert (Hlb : -1 <= lastBreak < len chunk).
  { unfold lastBreak.
    destruct (LastIndex chunk "010"%char >? LastIndex chunk "."%char);
      lia. }
  assert (Hq : 0 <= Z.quot chunkSize 2 <= chunkSize).
  { split; [apply Z.quot_pos; lia|].
    apply Z.quot_le_upper_bound; lia. }
  pose proof (len_nonneg text) as Hlen0.
  assert (Hd : GoInt.div chunkSize 2 = Z.quot chunkSize 2).
  { unfold GoInt.div. apply wrap_small. lia. }
  assert (Hs : GoInt.add start (GoInt.div chunkSize 2)
               = start + Z.quot chunkSize 2).
  { rewrite Hd. unfold GoInt.add. apply wrap_small. lia. }
  rewrite Hs.
  destruct (lastBreak >? start + Z.quot chunkSize 2) eqn:Hcut.
  - rewrite Z.gtb_ltb in Hcut. apply Z.ltb_lt in Hcut.
    assert (Hb1 : GoInt.add lastBreak 1 = lastBreak + 1).
    { unfold GoInt.add. apply wrap_small. lia. }
    rewrite Hb1.
    destruct (slice_in_range chunk 0 (lastBreak + 1) ltac:(lia) ltac:(lia))
      as [chunk' Hc].
    rewrite Hc. apply slice_spec in Hc.
    destruct Hc as (_ & _ & Hl' & _).
    exists chunk', (GoInt.add start (len chunk')). split; [reflexivity|].
    unfold GoInt.add. rewrite wrap_small by lia. right. lia.
  - exists chunk, end_. split; [reflexivity|]. right. lia.
Qed.

(** One pass through the body ends the loop or moves [start] forward;
    it does not panic. *)
Lemma ChunkText_body_advances (start : Z) (chunks : list string) :
  0 <= start < len text ->
  (exists chunks',
      ChunkText_body text chunkSize overlap start chunks = Break chunks')
  \/ (exists start' chunks',
         ChunkText_body text chunkSize overlap start chunks
         = Continue start' chunks'
         /\ start < start').
Proof.
  intro Hstart. unfold ChunkText_body.
  assert (Ha : GoInt.add start chunkSize = start + chunkSize).
  { unfold GoInt.add. apply wrap_small. lia. }
  rewrite Ha.
  set (end1 := if start + chunkSize >? len text
               then len text else start + chunkSize).
  assert (Hend1 : start < end1 <= len text).
  { unfold end1. destruct (start + chunkSize >? len text) eqn:Hg.
    - lia.
    - rewrite Z.gtb_ltb in Hg. apply Z.ltb_ge in Hg. lia. }
  destruct (slice_in_range text start end1 ltac:(lia) ltac:(lia))
    as [chunk Hc].
  rewrite Hc. pose proof (slice_spec _ _ _ _ Hc) as (_ & _ & Hl & _).
  destruct (boundary_advances start end1 chunk Hstart eq_refl Hl)
    as (chunk' & end' & Hb & Hend').
  rewrite Hb.
  destruct Hend' as [->|(Hlt & Hadv & Hle)].
  - rewrite Z.eqb_refl. left. eauto.
  - replace (end' =? len text) with false
      by (symmetry; apply Z.eqb_neq; lia).
    right. unfold GoInt.sub. rewrite wrap_small by lia.
    replace (end' - overlap <? 0) with false
      by (symmetry; apply Z.ltb_ge; lia).
    eexists _, _. split; [reflexivity|lia].
Qed.

Lemma ChunkText_loop_returns :
  forall (fuel : nat) (start : Z) (chunks : list string),
    0 <= start -> len text - start <= Z.of_nat fuel ->
    exists out,
      ChunkText_loop fuel text chunkSize overlap start chunks
      = Some (Return out).
Proof.
  induction fuel as [|fuel IH]; intros start chunks H0 Hfuel;
    cbn [ChunkText_loop]; destruct (start <? len text) eqn:Hlt;
    try (eexists; reflexivity); apply Z.ltb_lt in Hlt; [lia|].
  destruct (ChunkText_body_advances start chunks ltac:(lia))
    as [[chunks' ->]|(start' & chunks' & -> & Hadv)].
  - eexists; reflexivity.
  - apply IH; lia.
Qed.

End ChunkProgress.

(** X2. With an overlap of at most half the chunk size plus one (and
    below the chunk size), [ChunkText] returns, without a panic, after
    at most [len(text)] passes through its loop. *)
Theorem ChunkText_returns_for_small_overlap
        (text : string) (chunkSize overlap : Z) :
  0 < chunkSize -> 0 <= overlap < chunkSize ->
  overlap <= Z.quot chunkSize 2 + 1 ->
  len text + chunkSize < 2 ^ 63 ->
  exists chunks,
    ChunkText (String.length text) text chunkSize overlap
    = Some (Return chunks).
Proof.
  intros Hsize Hoverlap Hhalf Hfit.
  apply ChunkText_loop_returns; try assumption; unfold len; lia.
Qed.

Lemma ChunkText_returns_for_small_overlap_witness :
  exists chunks,
    ChunkText 28 "One two. Three four five six" 10 6 = Some (Return chunks).
Proof.
  apply (ChunkText_returns_for_small_overlap
           "One two. Three four five six" 10 6);
    [lia | lia | vm_compute; discriminate | vm_compute; reflexivity].
Defined.

(** X3. A text that fits in one chunk comes back as that one chunk,
    trimmed, after a single pass, whatever the overlap; a text that is
    empty or all white space gives no chunk. *)
Theorem ChunkText_of_short_text
        (text : string) (chunkSize overlap : Z) (fuel : nat) :
  len text <= chunkSize -> chunkSize < 2 ^ 63 ->
  ChunkText (S fuel) text chunkSize overlap
  = Some (Return (if String.eqb (TrimSpace text) ""
                  then [] else [TrimSpace text])).
Proof.
  intros Hshort Hint. unfold ChunkText. cbn [ChunkText_loop].
  pose proof (TrimFacts.len_nonneg text) as H0.
  destruct (0 <? len text) eqn:Hlt.
  2:{ apply Z.ltb_ge in Hlt.
      rewrite (TrimFacts.len_0 text) by lia. reflexivity. }
  apply Z.ltb_lt in Hlt. unfold ChunkText_body.
  assert (Ha : GoInt.add 0 chunkSize = chunkSize).
  { unfold GoInt.add. apply wrap_small. lia. }
  rewrite Ha.
  assert (Hend : (if chunkSize >? len text then len text else chunkSize)
                 = len text).
  { destruct (chunkSize >? len text) eqn:Hg; [reflexivity|].
    rewrite Z.gtb_ltb in Hg. apply Z.ltb_ge in Hg. lia. }
  rewrite Hend.
  assert (Hs : slice text 0 (len text) = Some text).
  { unfold slice. rewrite Z.leb_refl.
    replace (0 <=? len text) with true by (symmetry; apply Z.leb_le; lia).
    cbn [andb]. unfold len. rewrite Z.sub_0_r, Nat2Z.id.
    change (Z.to_nat 0) with 0%nat.
    now rewrite Z.leb_refl, TrimFacts.substring_full. }
  rewrite Hs. unfold boundary. rewrite Z.ltb_irrefl, Z.eqb_refl.
  destruct (String.eqb (TrimSpace text) ""); reflexivity.
Qed.

Lemma ChunkText_of_short_text_witness :
  ChunkText 1 "  a short note. " 100 20 = Some (Return ["a short note."]).
Proof.
  apply (ChunkText_of_short_text "  a short note. " 100 20 0);
    [vm_compute; discriminate | lia].
Defined.

(** X4. A window that starts at or beyond [chunkSize - 1 - chunkSize/2]
    is never cut at a sentence boundary, wherever its periods and
    newlines are: the pass appends the whole window, trimmed, and the
    next window starts [chunkSize - overlap] bytes further. *)
Theorem ChunkText_late_window_not_cut
        (text : string) (chunkSize overlap start : Z)
        (chunks : list string) :
  0 < chunkSize -> 0 <= start < len text ->
  chunkSize - 1 <= start + Z.quot chunkSize 2 ->
  start + chunkSize < 2 ^ 63 ->
  exists window,
    slice text start
          (if start + chunkSize <? len text
           then start + chunkSize else len text) = Some window
    /\ ChunkText_body text chunkSize overlap start chunks
       = let chunks' :=
           if String.eqb (TrimSpace window) ""
           then chunks else chunks ++ [TrimSpace window] in
         if start + chunkSize <? len text
         then Continue (let next := GoInt.sub (start + chunkSize) overlap in
                        if next <? 0 then 0 else next)
                       chunks'
         else Break chunks'.
Proof.
  intros Hsize Hstart Hlate Hfit. unfold ChunkText_body.
  assert (Ha : GoInt.add start chunkSize = start + chunkSize).
  { unfold GoInt.add. apply wrap_small. lia. }
  rewrite Ha.
  assert (Hend : (if start + chunkSize >? len text
                  then len text else start + chunkSize)
                 = (if start + chunkSize <? len text
                    then start + chunkSize else len text)).
  { rewrite Z.gtb_ltb.
    destruct (len text <? start + chunkSize) eqn:H1,
             (start + chunkSize <? len text) eqn:H2; try reflexivity.
    - apply Z.ltb_lt in H1, H2. lia.
    - apply Z.ltb_ge in H1, H2. lia. }
  rewrite Hend.
  set (end1 := if start + chunkSize <? len text
               then start + chunkSize else len text).
  assert (Hend1 : start < end1 <= len text /\ end1 <= start + chunkSize).
  { unfold end1. destruct (start + chunkSize <? len text) eqn:H2.
    - apply Z.ltb_lt in H2. lia.
    - apply Z.ltb_ge in H2. lia. }
  destruct (TrimFacts.slice_in_range text start end1 ltac:(lia) ltac:(lia))
    as [window Hw].
  exists window. split; [exact Hw|]. rewrite Hw.
  pose proof (TrimFacts.slice_spec _ _ _ _ Hw) as (_ & _ & Hl & _).
  rewrite (boundary_keeps_late_windows text window chunkSize start end1)
    by lia.
  cbv zeta. unfold end1.
  destruct (start + chunkSize <? len text) eqn:H2.
  - apply Z.ltb_lt in H2.
    replace (start + chunkSize =? len text) with false
      by (symmetry; apply Z.eqb_neq; lia).
    reflexivity.
  - now rewrite Z.eqb_refl.
Qed.

Lemma ChunkText_late_window_not_cut_witness :
  exists window,
    slice "AAAAAAAAAAAAAAAAAA.AAAAAAAAA" 10 20 = Some window
    /\ ChunkText_body "AAAAAAAAAAAAAAAAAA.AAAAAAAAA" 10 0 10 ["AAAAAAAAAA"]
       = Continue 20 ["AAAAAAAAAA"; window].
Proof.
  destruct (ChunkText_late_window_not_cut
              "AAAAAAAAAAAAAAAAAA.AAAAAAAAA" 10 0 10 ["AAAAAAAAAA"])
    as (window & Hw & Hbody);
    [lia | vm_compute; split; [discriminate|reflexivity]
     | vm_compute; discriminate | lia |].
  exists window. split; [exact Hw|].
  rewrite Hbody. vm_compute in Hw. injection Hw as <-. reflexivity.
Defined.

(** ** truncateText *)

Section TruncateFacts.
Import GoStringFacts TrimFacts.

(** X5. With a bound of at least three bytes [truncateText] never
    panics and never returns more than [maxLen] bytes: a text that fits
    comes back unchanged, a longer one as its first [maxLen - 3] bytes
    followed by three periods. *)
Theorem truncateText_within_bound (text : string) (maxLen : Z) :
  3 <= maxLen < 2 ^ 63 ->
  exists out,
    truncateText text maxLen = Some out
    /\ len out <= maxLen
    /\ (len text <= maxLen -> out = text)
    /\ (maxLen < len text ->
        len out = maxLen
        /\ exists head rest,
             text = (head ++ rest)%string /\ len head = maxLen - 3
             /\ out = (head ++ "...")%string).
Proof.
  intro Hmax. unfold truncateText.
  destruct (len text <=? maxLen) eqn:Hfits.
  - apply Z.leb_le in Hfits. exists text.
    split; [reflexivity|]. split; [assumption|].
    split; [reflexivity|]. intro. lia.
  - apply Z.leb_gt in Hfits.
    assert (Hs : GoInt.sub maxLen 3 = maxLen - 3).
    { unfold GoInt.sub. apply wrap_small. lia. }
    rewrite Hs.
    destruct (slice_in_range text 0 (maxLen - 3) ltac:(lia) ltac:(lia))
      as [head Hh].
    rewrite Hh. apply slice_spec in Hh.
    destruct Hh as (_ & _ & Hl & pre & post & Htext & Hpre).
    apply len_0 in Hpre. subst pre. cbn [append] in Htext.
    assert (Hout : len (head ++ "...") = maxLen).
    { rewrite len_append. change (len "...") with 3. lia. }
    exists (head ++ "...")%string.
    split; [reflexivity|]. split; [lia|]. split; [lia|].
    intros _. split; [exact Hout|].
    exists head, post. repeat split; [assumption|lia].
Qed.

Lemma truncateText_within_bound_witness :
  exists out,
    truncateText "similarity" 8 = Some out
    /\ len out <= 8
    /\ (len "similarity" <= 8 -> out = "similarity")
    /\ (8 < len "similarity" ->
        len out = 8
        /\ exists head rest,
             "similarity" = (head ++ rest)%string /\ len head = 8 - 3
             /\ out = (head ++ "...")%string).
Proof. apply (truncateText_within_bound "similarity" 8). lia. Defined.

Lemma wrap_below (z : Z) :
  - 2 ^ 64 - 2 ^ 63 <= z < - 2 ^ 63 -> GoInt.wrap z = z + 2 ^ 64.
Proof.
  intro H. unfold GoInt.wrap.
  replace (z + 2 ^ 63) with (z + 2 ^ 63 + 2 ^ 64 + (-1) * 2 ^ 64) by ring.
  rewrite Z.mod_add by lia. rewrite Z.mod_small; lia.
Qed.

(** X6. With a bound below three bytes [truncateText] panics on every
    text longer than the bound: the end [maxLen - 3] of its slice is
    out of range. *)
Theorem truncateText_panics_below_three (text : string) (maxLen : Z) :
  - 2 ^ 63 <= maxLen < 3 -> maxLen < len text -> len text < 2 ^ 63 - 3 ->
  truncateText text maxLen = None.
Proof.
  intros Hmax Hlong Hlen. unfold truncateText.
  replace (len text <=? maxLen) with false
    by (symmetry; apply Z.leb_gt; lia).
  unfold slice, GoInt.sub.
  destruct (Z_lt_ge_dec (maxLen - 3) (- 2 ^ 63)) as [Hw|Hw].
  - rewrite wrap_below by lia.
    replace (maxLen - 3 + 2 ^ 64 <=? len text) with false
      by (symmetry; apply Z.leb_gt; lia).
    now rewrite andb_false_r.
  - rewrite wrap_small by lia.
    replace (0 <=? maxLen - 3) with false
      by (symmetry; apply Z.leb_gt; lia).
    reflexivity.
Qed.

Lemma truncateText_panics_below_three_witness :
  truncateText "abc" 2 = None.
Proof.
  apply (truncateText_panics_below_three "abc" 2);
    [lia | vm_compute; reflexivity | vm_compute; reflexivity].
Defined.

End TruncateFacts.

(** ** The bands of the diagnostics *)

Section BandFacts.
Import Binary32 Binary32Facts Bands.

(** A threshold passed by a datum is passed by every larger one. *)
Lemma geb_mono (x y c : float32) :
  fle x y -> NN c -> geb x c = true -> geb y c = true.
Proof.
  intros Hxy Hc Hx. unfold geb, leb in *.
  assert (Hcx : fle c x).
  { destruct Hxy as (Hnx & _ & _). split; [|split]; assumption. }
  now destruct (fle_trans c x y Hcx Hxy) as (_ & _ & H).
Qed.

Lemma NN_const (c : float32) : positive_const c -> NN c.
Proof.
  destruct c as [s|s| |s m e]; simpl; try contradiction.
  destruct s; [contradiction|]. intros [Hc He]. repeat split; assumption.
Qed.

Lemma getRelevanceCategory_mono (x y : float32) :
  fle x y ->
  (relevance_rank (getRelevanceCategory x)
   <= relevance_rank (getRelevanceCategory y))%nat.
Proof.
  intro Hxy. unfold getRelevanceCategory.
  repeat match goal with
  | |- context [geb x ?c] =>
      destruct (geb x c) eqn:?;
      [ match goal with
        | E : geb x c = true |- _ =>
            rewrite (geb_mono x y c Hxy
                       ltac:(vm_compute; repeat split;
                             try reflexivity; discriminate) E)
        end;
        repeat match goal with
        | |- context [geb y ?c'] => destruct (geb y c')
        end; vm_compute; lia
      | ]
  end.
  apply Nat.le_0_l.
Qed.

Lemma getQualityDescription_mono (x y : float32) :
  fle x y ->
  (quality_rank (getQualityDescription x)
   <= quality_rank (getQualityDescription y))%nat.
Proof.
  intro Hxy. unfold getQualityDescription.
  repeat match goal with
  | |- context [geb x ?c] =>
      destruct (geb x c) eqn:?;
      [ match goal with
        | E : geb x c = true |- _ =>
            rewrite (geb_mono x y c Hxy
                       ltac:(vm_compute; repeat split;
                             try reflexivity; discriminate) E)
        end;
        repeat match goal with
        | |- context [geb y ?c'] => destruct (geb y c')
        end; vm_compute; lia
      | ]
  end.
  apply Nat.le_0_l.
Qed.

End BandFacts.

(** X7. Between two similarities of the data model, the larger one
    never gets the lower relevance category: [getRelevanceCategory]
    respects the order of its seven bands. *)
Theorem getRelevanceCategory_monotone (x y : float32) :
  unit_similarity x -> unit_similarity y -> leb x y = true ->
  (Bands.relevance_rank (getRelevanceCategory x)
   <= Bands.relevance_rank (getRelevanceCategory y))%nat.
Proof.
  intros Hx Hy Hxy. apply getRelevanceCategory_mono.
  split; [|split]; try assumption; now apply unit_similarity_NN.
Qed.

Lemma getRelevanceCategory_monotone_witness :
  (Bands.relevance_rank (getRelevanceCategory f0_6)
   <= Bands.relevance_rank (getRelevanceCategory f0_8))%nat.
Proof.
  apply (getRelevanceCategory_monotone f0_6 f0_8);
    [vm_compute; auto | vm_compute; auto | reflexivity].
Defined.

(** X8. Raising similarities never lowers the quality description:
    when the similarities of one list are, document by document, below
    those of another, the description of the first list's quality score
    is not in a higher band than that of the second. *)
Theorem quality_description_monotone (docs docs' : list Document) :
  similarities_le docs docs' ->
  (Bands.quality_rank (getQualityDescription (calculateQualityScore docs))
   <= Bands.quality_rank
        (getQualityDescription (calculateQualityScore docs')))%nat.
Proof.
  intro H. apply getQualityDescription_mono.
  now apply calculateQualityScore_mono.
Qed.

Lemma quality_description_monotone_witness :
  (Bands.quality_rank
     (getQualityDescription (calculateQualityScore [cats f0_9; cats f0_6]))
   <= Bands.quality_rank
        (getQualityDescription
           (calculateQualityScore [cats f0_9; cats f0_8])))%nat.
Proof.
  apply (quality_description_monotone
           [cats f0_9; cats f0_6] [cats f0_9; cats f0_8]).
  repeat (constructor;
          [vm_compute; repeat split; try reflexivity; discriminate|]).
  constructor.
Defined.

(** ** The quality score at its edges *)

Section ScoreEdges.
Import Binary32 Binary32Facts.

Lemma add_nan_r (x : float32) : add x S754_nan = S754_nan.
Proof. now destruct x. Qed.

Lemma score_loop_nan (docs : list Document) :
  forall i : Z, score_loop i docs S754_nan = S754_nan.
Proof.
  induction docs as [|d docs IH]; intro i; [reflexivity|].
  cbn [score_loop]. apply IH.
Qed.

Lemma score_loop_poisoned (front back : list Document) (d : Document) :
  Similarity d = S754_nan ->
  forall (i : Z) (total : float32),
    score_loop i (front ++ d :: back) total = S754_nan.
Proof.
  intro Hd. induction front as [|f front IH]; intros i total.
  - cbn [List.app score_loop]. rewrite Hd.
    change (mul (mul S754_nan ?w) f10) with S754_nan.
    rewrite add_nan_r. apply score_loop_nan.
  - cbn [List.app score_loop]. apply IH.
Qed.

Lemma score_loop_similarities (docs : list Document) :
  forall (docs' : list Document) (i : Z) (total : float32),
    map Similarity docs = map Similarity docs' ->
    score_loop i docs total = score_loop i docs' total.
Proof.
  induction docs as [|d docs IH]; intros [|d' docs'] i total H;
    try discriminate; [reflexivity|].
  cbn [map] in H. injection H as Hd Hrest.
  cbn [score_loop]. rewrite Hd. now apply IH.
Qed.

Lemma NN_f10 : NN f10.
Proof. vm_compute. repeat split; try reflexivity; discriminate. Qed.

Lemma fle_zero (x : float32) : NN x -> fle zero x.
Proof.
  intro Hx. split; [exact I|]. split; [assumption|].
  apply SFleb_le_opt; [exact I|assumption|apply ev_nonneg].
Qed.

(** Between non-negative data, two comparisons give an equality. *)
Lemma SFleb_antisym (x : float32) (m : positive) (e : Z) :
  NN x ->
  SFleb x (S754_finite false m e) = true ->
  SFleb (S754_finite false m e) x = true ->
  x = S754_finite false m e.
Proof.
  destruct x as [s|s| |s mx ex]; simpl; intros Hx H1 H2;
    try contradiction; try discriminate.
  - subst s. discriminate.
  - destruct Hx as (-> & _ & _). unfold SFleb, SFcompare in H1, H2.
    rewrite (Z.compare_antisym ex e) in H2.
    destruct (Z.compare_spec ex e) as [->|Hlt|Hgt]; simpl in H1, H2;
      try discriminate.
    change (Pos.compare_cont Eq mx m) with (Pos.compare mx m) in H1.
    change (Pos.compare_cont Eq m mx) with (Pos.compare m mx) in H2.
    rewrite (Pos.compare_antisym mx m) in H2.
    destruct (Pos.compare_spec mx m) as [->|Hm|Hm]; simpl in H1, H2;
      try discriminate.
    reflexivity.
Qed.

(** Adding the contributions of documents of similarity 1 keeps a
    total of 10 or more at 10 or more. *)
Lemma score_loop_keeps_ten (docs : list Document) :
  Forall (fun d => Similarity d = f1) docs ->
  forall (i : Z) (total : float32),
    fle f10 total -> fle f10 (score_loop i docs total).
Proof.
  induction 1 as [|d docs Hd _ IH]; intros i total Ht; [exact Ht|].
  cbn [score_loop]. apply IH. rewrite Hd.
  change f10 with (add f10 zero) at 1.
  apply add_mono; [exact Ht|]. apply fle_zero.
  assert (H1 : fle f1 f1).
  { apply fle_refl. vm_compute. repeat split; try reflexivity;
      discriminate. }
  pose proof (mul_mono _ _ _
                (mul_mono _ _ _ H1 (positive_const_weight i))
                positive_const_f10) as (Hn & _ & _).
  exact Hn.
Qed.

End ScoreEdges.

(** X9. A similarity that is not a number spoils the whole diagnostic:
    wherever the document stands in the list and whatever the other
    similarities are, the quality score is NaN (it is not clamped), its
    description is the lowest one, and the document itself is
    categorised as a poor match. *)
Theorem NaN_similarity_spoils_the_score
        (front back : list Document) (text source : string) :
  let d := {| Text := text; Source := source; Similarity := S754_nan |} in
  calculateQualityScore (front ++ d :: back) = S754_nan
  /\ getQualityDescription (calculateQualityScore (front ++ d :: back))
     = "Very Poor"
  /\ getRelevanceCategory (Similarity d) = "Poor Match".
Proof.
  intro d.
  assert (Hscore : calculateQualityScore (front ++ d :: back) = S754_nan).
  { unfold calculateQualityScore.
    replace (Z.of_nat (List.length (front ++ d :: back)) =? 0) with false.
    2:{ symmetry. apply Z.eqb_neq. rewrite length_app. simpl. lia. }
    rewrite (score_loop_poisoned front back d eq_refl).
    destruct (_ =? 1); [reflexivity|]. destruct (_ =? 2); reflexivity. }
  rewrite Hscore. repeat split.
Qed.

(** X10. The quality score reads the similarities only: two lists of
    documents with the same similarities in the same order get the same
    score, whatever their texts and sources. *)
Theorem calculateQualityScore_reads_similarities_only
        (docs docs' : list Document) :
  map Similarity docs = map Similarity docs' ->
  calculateQualityScore docs = calculateQualityScore docs'.
Proof.
  intro H. unfold calculateQualityScore.
  assert (Hlen : List.length docs = List.length docs').
  { rewrite <- (length_map Similarity docs), H. apply length_map. }
  rewrite Hlen, (score_loop_similarities docs docs' 0 zero H).
  reflexivity.
Qed.

Lemma calculateQualityScore_reads_similarities_only_witness :
  calculateQualityScore
    [ {| Text := "info about cats"; Source := "src"; Similarity := f0_9 |};
      {| Text := "more"; Source := "a.txt"; Similarity := f0_6 |} ]
  = calculateQualityScore
      [ {| Text := ""; Source := "elsewhere"; Similarity := f0_9 |};
        {| Text := "other words"; Source := ""; Similarity := f0_6 |} ].
Proof.
  apply (calculateQualityScore_reads_similarities_only
           [ {| Text := "info about cats"; Source := "src";
                Similarity := f0_9 |};
             {| Text := "more"; Source := "a.txt"; Similarity := f0_6 |} ]).
  reflexivity.
Defined.

(** X11. Documents that all have similarity 1 get the score 10 exactly,
    however many they are: the clamp takes back what the weights of the
    fourth and later documents add beyond the denominator. *)
Theorem calculateQualityScore_of_perfect_matches (docs : list Document) :
  docs <> [] ->
  Forall (fun d => Similarity d = f1) docs ->
  calculateQualityScore docs = f10.
Proof.
  intros Hne Hall.
  destruct docs as [|[t1 s1 x1] [|[t2 s2 x2] [|[t3 s3 x3] rest]]];
    [contradiction| | |].
  - apply Forall_cons_iff in Hall. destruct Hall as [H1 _].
    simpl in H1. subst. reflexivity.
  - apply Forall_cons_iff in Hall. destruct Hall as [H1 Hall].
    apply Forall_cons_iff in Hall. destruct Hall as [H2 _].
    simpl in H1, H2. subst. reflexivity.
  - apply Forall_cons_iff in Hall. destruct Hall as [H1 Hall].
    apply Forall_cons_iff in Hall. destruct Hall as [H2 Hall].
    apply Forall_cons_iff in Hall. destruct Hall as [H3 Hall].
    simpl in H1, H2, H3. subst.
    unfold calculateQualityScore.
    cbn [List.length].
    replace (Z.of_nat (S (S (S (List.length rest)))) =? 0) with false
      by (symmetry; apply Z.eqb_neq; lia).
    replace (Z.of_nat (S (S (S (List.length rest)))) =? 1) with false
      by (symmetry; apply Z.eqb_neq; lia).
    replace (Z.of_nat (S (S (S (List.length rest)))) =? 2) with false
      by (symmetry; apply Z.eqb_neq; lia).
    cbv zeta.
    assert (Hten : Binary32.fle f10 f10)
      by (apply Binary32Facts.fle_refl, NN_f10).
    pose proof (score_loop_keeps_ten rest Hall 3 f10 Hten) as Htotal.
    change (score_loop 0 (_ :: _ :: _ :: rest) zero)
      with (score_loop 3 rest f10).
    pose proof (Binary32Facts.mul_mono _ _ f10
                  (Binary32Facts.div_mono _ _ f10 Htotal positive_const_f10)
                  positive_const_f10) as Hq.
    change (SFmul prec emax (SFdiv prec emax f10 f10) f10) with f10 in Hq.
    fold div in Hq. fold mul in Hq.
    destruct Hq as (_ & Hn & Hle).
    destruct (gtb (mul (div (score_loop 3 rest f10) f10) f10) f10) eqn:Hg;
      [reflexivity|].
    unfold gtb, ltb in Hg.
    rewrite Binary32Facts.SFltb_SFleb in Hg by (assumption || apply NN_f10).
    apply negb_false_iff in Hg.
    now apply SFleb_antisym.
Qed.

Lemma calculateQualityScore_of_perfect_matches_witness :
  calculateQualityScore [cats f1; cats f1; cats f1; cats f1; cats f1] = f10.
Proof.
  apply (calculateQualityScore_of_perfect_matches
           [cats f1; cats f1; cats f1; cats f1; cats f1]).
  - discriminate.
  - repeat constructor.
Defined.

(** ** The prompt: the header of every document *)

Section HeaderFacts.
Import GoStringFacts.

Lemma context_blocks_head (docs : list Document) :
  forall (i : Z) (k : nat) (d : Document),
    nth_error docs k = Some d ->
    Contains (context_blocks i docs) (block_head (i + Z.of_nat k) d).
Proof.
  induction docs as [|d0 docs IH]; intros i k d Hk.
  - destruct k; discriminate.
  - cbn [context_blocks]. destruct k as [|k].
    + injection Hk as ->. rewrite Z.add_0_r.
      apply Contains_app_r. rewrite context_block_split.
      apply Contains_app_r, Contains_refl.
    + apply Contains_app_l.
      replace (i + Z.of_nat (S k)) with (i + 1 + Z.of_nat k) by lia.
      now apply IH.
Qed.

End HeaderFacts.

(** X12. The user prompt carries the header of every document as the
    loop wrote it: for the document at index [k] (from 0) the words
    [Source k+1 (p% relevant): ], the source unchanged, a line break
    and [Content] occur in the prompt.  Sources, unlike the last text,
    lose nothing to the trimming of the context. *)
Theorem prompt_carries_every_header
        (query : string) (docs : list Document) (k : nat) (d : Document) :
  nth_error docs k = Some d ->
  Contains (build_prompt query docs)
           ("Source " ++ format_d (Z.of_nat k + 1) ++ " ("
            ++ format_f1 (mul (Similarity d) f100) ++ "% relevant): "
            ++ Source d ++ nl ++ "Content")%string.
Proof.
  intro Hk. change (Contains (build_prompt query docs)
                             (block_head (Z.of_nat k) d)).
  apply build_prompt_context.
  destruct (exists_last (l := docs)) as (front & last & ->).
  { intro Hnil. subst docs. destruct k; discriminate. }
  rewrite TrimSpace_context.
  destruct (Nat.lt_ge_cases k (List.length front)) as [Hlt|Hge].
  - rewrite nth_error_app1 in Hk by assumption.
    apply GoStringFacts.Contains_app_r.
    apply (context_blocks_head front 0 k d Hk).
  - rewrite nth_error_app2 in Hk by assumption.
    destruct (k - List.length front)%nat as [|j] eqn:Hj.
    2:{ destruct j; discriminate. }
    injection Hk as ->.
    replace k with (List.length front) by lia.
    apply GoStringFacts.Contains_app_l, GoStringFacts.Contains_app_r,
      GoStringFacts.Contains_refl.
Qed.

Lemma prompt_carries_every_header_witness :
  Contains
    (build_prompt "what?"
       [cats f0_9;
        {| Text := "more "; Source := "b.txt"; Similarity := f0_6 |}])
    ("Source " ++ format_d 2 ++ " ("
     ++ format_f1 (mul f0_6 f100) ++ "% relevant): "
     ++ "b.txt" ++ nl ++ "Content")%string.
Proof.
  apply (prompt_carries_every_header "what?"
           [cats f0_9;
            {| Text := "more "; Source := "b.txt"; Similarity := f0_6 |}]
           1 {| Text := "more "; Source := "b.txt"; Similarity := f0_6 |}).
  reflexivity.
Defined.

(** ** The demonstration mode *)

Section DemoFacts.
Import Demo.


(** What the loop of [InsertDocuments] appends when entered at index
    [n]: one document for each text that has a source. *)
Lemma mock_insert_loop_spec (sources : list string) (texts : list string) :
  forall (n : nat) (docs : list Document),
    exists added,
      mock_insert_loop (Z.of_nat n) texts sources docs = docs ++ added
      /\ List.length added
         = Nat.min (List.length texts) (List.length sources - n)
      /\ forall k d,
           nth_error added k = Some d ->
           nth_error texts k = Some (Text d)
           /\ nth_error sources (n + k) = Some (Source d)
           /\ Similarity d = mock_similarity (Z.of_nat (n + k)).
Proof.
  induction texts as [|text rest IH]; intros n docs.
  - exists []. cbn [mock_insert_loop]. rewrite app_nil_r.
    split; [reflexivity|]. split; [reflexivity|].
    intros [|k] d H; discriminate.
  - cbn [mock_insert_loop].
    replace (Z.of_nat n + 1) with (Z.of_nat (S n)) by lia.
    destruct (Z.of_nat n <? Z.of_nat (List.length sources)) eqn:Hn.
    + apply Z.ltb_lt in Hn.
      set (doc := {| Text := text;
                     Source := nth (Z.to_nat (Z.of_nat n)) sources ""%string;
                     Similarity := mock_similarity (Z.of_nat n) |}).
      destruct (IH (S n) (docs ++ [doc])) as (added & Hloop & Hlen & Hnth).
      exists (doc :: added). rewrite Hloop, <- app_assoc.
      split; [reflexivity|]. split.
      * cbn [List.length]. rewrite Hlen. lia.
      * intros [|k] d Hk.
        -- injection Hk as <-. cbn [nth_error Text Source Similarity doc].
           rewrite Nat.add_0_r, Nat2Z.id.
           split; [reflexivity|]. split; [|reflexivity].
           apply nth_error_nth'. lia.
        -- destruct (Hnth k d Hk) as (Ht & Hs & Hsim).
           rewrite Nat.add_succ_r. auto.
    + apply Z.ltb_ge in Hn.
      destruct (IH (S n) docs) as (added & Hloop & Hlen & Hnth).
      assert (Hnone : added = []).
      { destruct added; [reflexivity|]. simpl in Hlen. lia. }
      subst added. exists []. rewrite Hloop.
      split; [reflexivity|]. split.
      * cbn [List.length]. lia.
      * intros [|k] d H; discriminate.
Qed.

End DemoFacts.


(** X14. [mockMilvusClient.SearchSimilar] with a limit that is not
    negative never panics: it returns the first [limit] documents of
    the store, all of them when there are fewer. *)
Theorem mock_SearchSimilar_returns_prefix
        (m : Demo.mockMilvusClient) (query : string) (limit : Z) :
  0 <= limit ->
  exists found,
    Demo.mock_SearchSimilar query limit m = Some found
    /\ found = firstn (Z.to_nat limit) (Demo.documents m)
    /\ Z.of_nat (List.length found)
       = Z.min limit (Z.of_nat (List.length (Demo.documents m))).
Proof.
  intro Hlimit. unfold Demo.mock_SearchSimilar, Demo.slice_to.
  destruct (Z.of_nat (List.length (Demo.documents m)) <=? limit) eqn:Hall.
  - apply Z.leb_le in Hall. exists (Demo.documents m).
    split; [reflexivity|]. split.
    + symmetry. apply firstn_all2. lia.
    + lia.
  - apply Z.leb_gt in Hall.
    replace (0 <=? limit) with true by (symmetry; apply Z.leb_le; lia).
    replace (limit <=? Z.of_nat (List.length (Demo.documents m))) with true
      by (symmetry; apply Z.leb_le; lia).
    cbn [andb]. eexists. split; [reflexivity|]. split; [reflexivity|].
    rewrite length_firstn. lia.
Qed.

Lemma mock_SearchSimilar_returns_prefix_witness :
  exists found,
    Demo.mock_SearchSimilar "cats" 1
      {| Demo.documents := [cats f0_9; cats f0_6] |} = Some found
    /\ found = firstn (Z.to_nat 1) [cats f0_9; cats f0_6]
    /\ Z.of_nat (List.length found) = Z.min 1 2.
Proof.
  apply (mock_SearchSimilar_returns_prefix
           {| Demo.documents := [cats f0_9; cats f0_6] |} "cats" 1).
  lia.
Defined.

(** X15. With a negative limit [mockMilvusClient.SearchSimilar]
    panics, whatever the store holds (even nothing): the slice
    expression [m.documents[:limit]] is out of range. *)
Theorem mock_SearchSimilar_panics_on_negative_limit
        (m : Demo.mockMilvusClient) (query : string) (limit : Z) :
  limit < 0 -> Demo.mock_SearchSimilar query limit m = None.
Proof.
  intro Hlimit. unfold Demo.mock_SearchSimilar, Demo.slice_to.
  replace (Z.of_nat (List.length (Demo.documents m)) <=? limit) with false
    by (symmetry; apply Z.leb_gt; lia).
  replace (0 <=? limit) with false by (symmetry; apply Z.leb_gt; lia).
  reflexivity.
Qed.

Lemma mock_SearchSimilar_panics_on_negative_limit_witness :
  Demo.mock_SearchSimilar "cats" (-1) {| Demo.documents := [] |} = None.
Proof.
  apply (mock_SearchSimilar_panics_on_negative_limit
           {| Demo.documents := [] |} "cats" (-1)).
  lia.
Defined.

(** X16. What is inserted is found again: after
    [InsertDocuments(texts, sources)] on an empty store, with as many
    sources as texts (the only case [AddDocuments] lets through),
    [SearchSimilar] with the limit [len(texts)] returns one document
    for each text, in order, with the texts and the sources given. *)
Theorem mock_insert_then_search (texts sources : list string)
        (query : string) :
  List.length texts = List.length sources ->
  exists found,
    Demo.mock_SearchSimilar
      query (Z.of_nat (List.length texts))
      (snd (Demo.mock_InsertDocuments texts sources
              {| Demo.documents := [] |}))
    = Some found
    /\ map Text found = texts
    /\ map Source found = sources.
Proof.
  intro Hsame.
  destruct (mock_insert_loop_spec sources texts 0 [])
    as (added & Hloop & Hlen & Hnth).
  cbn [List.app] in Hloop. rewrite Nat.sub_0_r, <- Hsame, Nat.min_id in Hlen.
  exists added. unfold Demo.mock_SearchSimilar.
  cbn [snd Demo.mock_InsertDocuments Demo.documents].
  change (Z.of_nat 0) with 0 in Hloop. rewrite Hloop, Hlen, Z.leb_refl.
  split; [reflexivity|].
  split; apply nth_error_ext; intro k; rewrite nth_error_map.
  - destruct (nth_error added k) as [d|] eqn:Hk.
    + destruct (Hnth k d Hk) as (Ht & _ & _). now rewrite Ht.
    + apply nth_error_None in Hk. symmetry. apply nth_error_None. lia.
  - destruct (nth_error added k) as [d|] eqn:Hk.
    + destruct (Hnth k d Hk) as (_ & Hs & _). cbn [Nat.add] in Hs.
      now rewrite Hs.
    + apply nth_error_None in Hk. symmetry. apply nth_error_None. lia.
Qed.

Lemma mock_insert_then_search_witness :
  exists found,
    Demo.mock_SearchSimilar
      "cats" (Z.of_nat (List.length ["a"; "b"]))
      (snd (Demo.mock_InsertDocuments ["a"; "b"] ["s1"; "s2"]
              {| Demo.documents := [] |}))
    = Some found
    /\ map Text found = ["a"; "b"]
    /\ map Source found = ["s1"; "s2"].
Proof.
  apply (mock_insert_then_search ["a"; "b"] ["s1"; "s2"] "cats").
  reflexivity.
Defined.

(** X17. The preview of a chunk in the demonstration,
    [chunk[:min(50, len(chunk))]], never panics: it is the chunk's
    first 50 bytes, or the whole chunk when it is shorter. *)
Theorem preview_never_panics (chunk : string) :
  exists shown rest,
    Demo.preview chunk = Some shown
    /\ chunk = (shown ++ rest)%string
    /\ len shown = Z.min 50 (len chunk).
Proof.
  unfold Demo.preview, Demo.min.
  pose proof (TrimFacts.len_nonneg chunk) as H0.
  assert (Hm : (if 50 <? len chunk then 50 else len chunk)
               = Z.min 50 (len chunk)).
  { destruct (50 <? len chunk) eqn:H.
    - apply Z.ltb_lt in H. lia.
    - apply Z.ltb_ge in H. lia. }
  rewrite Hm.
  destruct (TrimFacts.slice_in_range chunk 0 (Z.min 50 (len chunk))
              ltac:(lia) ltac:(lia)) as [shown Hs].
  rewrite Hs. apply TrimFacts.slice_spec in Hs.
  destruct Hs as (_ & _ & Hl & pre & post & Hc & Hpre).
  apply TrimFacts.len_0 in Hpre. subst pre.
  exists shown, post. split; [reflexivity|]. split; [exact Hc|lia].
Qed.

(** ** The live mode: from distances to similarities *)

Section DistanceFacts.
Import Binary32 Binary32Facts Demo.

Lemma nonneg_NN (x : float32) :
  valid x = true -> leb zero x = true -> NN x.
Proof.
  intros Hv H0.
  destruct x as [s|s| |s m e]; simpl.
  - exact I.
  - destruct s; [discriminate|reflexivity].
  - discriminate.
  - destruct s; [discriminate|].
    unfold valid, valid_binary, bounded, canonical_mantissa in Hv.
    apply andb_prop in Hv. destruct Hv as [Hc Hb].
    apply Z.eqb_eq in Hc. apply Z.leb_le in Hb. repeat split; assumption.
Qed.

Lemma NN_valid (x : float32) : NN x -> valid x = true.
Proof.
  destruct x as [s|s| |s m e]; simpl; try reflexivity; try contradiction.
  intros (_ & Hc & Hb).
  unfold valid, valid_binary, bounded, canonical_mantissa.
  apply andb_true_intro. split; [apply Z.eqb_eq, Hc|apply Z.leb_le, Hb].
Qed.

Lemma NN_f1 : NN f1.
Proof. vm_compute. repeat split; try reflexivity; discriminate. Qed.

Lemma one_plus (d : float32) : NN d -> fle f1 (add f1 d).
Proof.
  intro Hd. change f1 with (add f1 zero) at 1.
  apply add_mono; [apply fle_refl, NN_f1|now apply fle_zero].
Qed.

(** A datum that is at least 1 is plus infinity or a canonical finite
    number. *)
Lemma at_least_one (x : float32) :
  fle f1 x ->
  x = S754_infinity false
  \/ exists m e,
       x = S754_finite false m e /\ canonical (Zpos m) e
       /\ (cval f1 <= IZR (Zpos m) * pow2 e)%R.
Proof.
  intros (H1 & Hx & Hle).
  apply SFleb_le_opt in Hle; try assumption.
  destruct x as [s|s| |s m e]; simpl in Hx; try contradiction.
  - exfalso. simpl in Hle. pose proof (cval_pos f1) as P.
    unfold cval, f1 in P. specialize (P ltac:(vm_compute; split;
      [reflexivity|discriminate])). lra.
  - subst s. now left.
  - destruct Hx as (-> & Hc & _). right. exists m, e.
    split; [reflexivity|]. split; [assumption|]. exact Hle.
Qed.

(** Dividing 1 by a larger datum gives a smaller one. *)
Lemma div_one_antitone (x y : float32) :
  fle f1 x -> fle x y -> fle (div f1 y) (div f1 x).
Proof.
  intros Hx Hxy.
  pose proof (fle_trans _ _ _ Hx Hxy) as Hy.
  destruct (at_least_one y Hy) as [->|(my & ey & -> & Cy & Ly)];
    destruct (at_least_one x Hx) as [->|(mx & ex & -> & Cx & Lx)].
  - apply fle_refl. exact I.
  - change (div f1 (S754_infinity false)) with zero.
    apply fle_zero.
    apply (Rnd_NN _ _ (div_Rnd 8388608 mx (-23) ex)).
  - destruct Hxy as (_ & _ & H). discriminate H.
  - pose proof (div_Rnd 8388608 my (-23) ey) as Ry.
    pose proof (div_Rnd 8388608 mx (-23) ex) as Rx.
    split; [exact (Rnd_NN _ _ Ry)|]. split; [exact (Rnd_NN _ _ Rx)|].
    apply (Rnd_mono _ _ _ _ Ry Rx).
    destruct Hxy as (_ & _ & Hle).
    apply finite_compare in Hle; try assumption.
    pose proof (finite_pos mx ex) as Px.
    pose proof (finite_pos 8388608 (-23)) as P1.
    unfold Rdiv. apply Rmult_le_compat_l; [lra|].
    apply Rinv_le_contravar; assumption.
Qed.

End DistanceFacts.

(** X18. The conversion of [MilvusClientImpl.SearchSimilar],
    [1.0 / (1.0 + distance)], turns every distance that is not negative
    (plus infinity included) into a similarity of the data model: a
    well-formed datum between 0 and 1. *)
Theorem similarity_of_distance_in_unit_range (distance : float32) :
  valid distance = true -> leb zero distance = true ->
  unit_similarity (Demo.similarity_of_distance distance).
Proof.
  intros Hv H0. pose proof (nonneg_NN distance Hv H0) as Hd.
  pose proof (div_one_antitone f1 (add f1 distance)
                (Binary32Facts.fle_refl f1 NN_f1) (one_plus distance Hd))
    as (Hn & _ & Hle).
  unfold Demo.similarity_of_distance.
  split; [now apply NN_valid|]. split.
  - now apply fle_zero.
  - exact Hle.
Qed.

Lemma similarity_of_distance_in_unit_range_witness :
  unit_similarity (Demo.similarity_of_distance f0_5).
Proof.
  apply (similarity_of_distance_in_unit_range f0_5); reflexivity.
Defined.

(** X19. The conversion reverses the order: of two distances that are
    not negative, the smaller one never gets the lower similarity. *)
Theorem similarity_of_distance_antitone (near far : float32) :
  valid near = true -> leb zero near = true ->
  valid far = true -> leb near far = true ->
  leb (Demo.similarity_of_distance far) (Demo.similarity_of_distance near)
  = true.
Proof.
  intros Hv H0 Hv' Hle.
  pose proof (nonneg_NN near Hv H0) as Hn.
  assert (Hf : Binary32.NN far).
  { apply nonneg_NN; [assumption|].
    destruct far as [sf|sf| |sf mf ef]; try reflexivity;
      [ | destruct near; discriminate | ];
      (destruct sf; [exfalso|reflexivity]);
      destruct near as [sn|sn| |sn mn en]; simpl in Hn;
      try contradiction; try discriminate;
      try subst sn; try (destruct Hn as (-> & _)); discriminate. }
  assert (Hnf : Binary32.fle near far) by (split; [|split]; assumption).
  pose proof (div_one_antitone (add f1 near) (add f1 far)
                (one_plus near Hn)
                (Binary32Facts.add_mono f1 f1 near far
                   (Binary32Facts.fle_refl f1 NN_f1) Hnf))
    as (_ & _ & H).
  exact H.
Qed.

Lemma similarity_of_distance_antitone_witness :
  leb (Demo.similarity_of_distance f3) (Demo.similarity_of_distance f0_5)
  = true.
Proof.
  apply (similarity_of_distance_antitone f0_5 f3); reflexivity.
Defined.

(** ** The engine over the clients of main.go *)

(** X20. [GenerateResponse] over [OpenAIClientImpl]: the client library
    is asked once, for the given model, with the system message and the
    user prompt in this order, roles and contents unchanged.  An error
    of the library comes back as it is with the empty string; a
    response without choices comes back as the empty string with the
    error [no response from OpenAI]; otherwise the content of the first
    choice comes back with no error. *)
Theorem GenerateResponse_over_OpenAIClientImpl
        (error W : Type)
        (CreateChatCompletion :
           Demo.ChatCompletionRequest -> W
           -> (Demo.ChatCompletionResponse * option error) * W)
        (Errorf : string -> error)
        (store : MilvusClient W) (logger : LogLine error -> W -> W)
        (query : string) (docs : list Document) (model : string) (w : W) :
  let r := NewRAGEngine (Demo.OpenAIClientImpl CreateChatCompletion Errorf)
                        store in
  let request :=
    {| Demo.ReqModel := model;
       Demo.ReqMessages :=
         [ {| Demo.MsgRole := "system";
              Demo.MsgContent := "You are a helpful assistant that answers questions based on provided context." |};
           {| Demo.MsgRole := "user";
              Demo.MsgContent := build_prompt query docs |} ] |} in
  exists w0 : W,
    fst (fst (run r logger (GenerateResponse query docs model) w))
    = Some match CreateChatCompletion request w0 with
           | ((_, Some e), _) => (""%string, Some e)
           | ((resp, None), _) =>
               match Demo.Choices resp with
               | [] => (""%string, Some (Errorf "no response from OpenAI"))
               | choice :: _ =>
                   (Demo.MsgContent (Demo.ChoiceMessage choice), None)
               end
           end.
Proof.
  intros r request.
  destruct (run_GenerateResponse r logger query docs model w)
    as (before & line & _ & _ & Hrun).
  cbv zeta in Hrun. exists (replay_logs logger before w).
  change (ChatCompletion (openai r) model (build_messages query docs)
            (replay_logs logger before w))
    with (let '((resp, err), w1) :=
            CreateChatCompletion request (replay_logs logger before w) in
          match err with
          | Some e => ((""%string, Some e), w1)
          | None =>
              match Demo.Choices resp with
              | [] =>
                  ((""%string, Some (Errorf "no response from OpenAI")), w1)
              | choice :: _ =>
                  ((Demo.MsgContent (Demo.ChoiceMessage choice), None), w1)
              end
          end) in Hrun.
  destruct (CreateChatCompletion request (replay_logs logger before w))
    as [[resp [e|]] w1].
  - rewrite Hrun. reflexivity.
  - destruct (Demo.Choices resp) as [|choice others];
      rewrite Hrun; reflexivity.
Qed.

(** X21. In the demonstration mode every question gets the same canned
    answer and no error, whatever the documents, the model, the store
    and the logger; the mock is asked once, with the two messages built
    from the query and the documents. *)
Theorem GenerateResponse_in_demo_mode
        (error W : Type) (store : MilvusClient W)
        (logger : LogLine error -> W -> W)
        (query : string) (docs : list Document) (model : string) (w : W) :
  let result :=
    run (NewRAGEngine (Demo.mock_openai (error := error)) store) logger
        (GenerateResponse query docs model) w in
  fst (fst result)
  = Some ("This is a mock response from the RAG engine. In a real implementation, this would be generated by OpenAI's GPT model based on the provided context."%string,
          None)
  /\ chat_calls (snd result)
     = [EvChatCompletion model (build_messages query docs)
          (Demo.mock_ChatCompletion model (build_messages query docs))].
Proof.
  intro result. subst result.
  destruct (run_GenerateResponse
              (NewRAGEngine (Demo.mock_openai (error := error)) store)
              logger query docs model w)
    as (before & line & Hc & _ & Hrun).
  cbv zeta in Hrun.
  change (ChatCompletion
            (openai (NewRAGEngine (Demo.mock_openai (error := error)) store))
            model (build_messages query docs) (replay_logs logger before w))
    with (Demo.mock_ChatCompletion (error := error) model
            (build_messages query docs),
          replay_logs logger before w) in Hrun.
  rewrite Hrun. split; [reflexivity|].
  cbn [snd]. unfold chat_calls in *. rewrite filter_app, Hc. reflexivity.
Qed.

(** ** The similarity statistics of the relevance analysis *)

Section StatisticsFacts.
Import Binary32 Binary32Facts.
Context {error W : Type}.
Variable r : RAGEngine error W.
Variable logger : LogLine error -> W -> W.

Lemma run_Log_value {A : Type} (line : LogLine error) (k : Prog error A)
      (w : W) :
  fst (fst (run r logger (Log line k) w))
  = fst (fst (run r logger k (logger line w))).
Proof.
  simpl. now destruct (run r logger k (logger line w)) as [[a w2] t].
Qed.

(** Two non-negative data compare one way or the other. *)
Lemma SFleb_total (x y : float32) :
  NN x -> NN y -> SFleb x y = true \/ SFleb y x = true.
Proof.
  intros Hx Hy.
  destruct (ev x) as [vx|] eqn:Ex, (ev y) as [vy|] eqn:Ey.
  - destruct (Rle_or_lt vx vy) as [H|H].
    + left. apply SFleb_le_opt; try assumption. rewrite Ex, Ey. exact H.
    + right. apply SFleb_le_opt; try assumption. rewrite Ex, Ey.
      simpl. lra.
  - left. apply SFleb_le_opt; try assumption. rewrite Ex, Ey. exact I.
  - right. apply SFleb_le_opt; try assumption. rewrite Ex, Ey. exact I.
  - left. apply SFleb_le_opt; try assumption. rewrite Ex, Ey. exact I.
Qed.

(** The larger of the running maximum and a similarity. *)
Lemma running_max (s hi : float32) :
  NN s -> NN hi ->
  let hi' := if gtb s hi then s else hi in
  fle hi hi' /\ fle s hi' /\ (hi' = hi \/ hi' = s).
Proof.
  intros Hs Hhi. unfold gtb, ltb. rewrite SFltb_SFleb by assumption.
  destruct (SFleb s hi) eqn:Hle; cbn [negb].
  - split; [now apply fle_refl|]. split; [|now left].
    split; [|split]; assumption.
  - destruct (SFleb_total s hi Hs Hhi) as [H|H]; [congruence|].
    split; [split; [|split]; assumption|].
    split; [now apply fle_refl|now right].
Qed.

Lemma running_min (s lo : float32) :
  NN s -> NN lo ->
  let lo' := if ltb s lo then s else lo in
  fle lo' lo /\ fle lo' s /\ (lo' = lo \/ lo' = s).
Proof.
  intros Hs Hlo. unfold ltb. rewrite SFltb_SFleb by assumption.
  destruct (SFleb lo s) eqn:Hle; cbn [negb].
  - split; [now apply fle_refl|]. split; [|now left].
    split; [|split]; assumption.
  - destruct (SFleb_total s lo Hs Hlo) as [H|H]; [|congruence].
    split; [split; [|split]; assumption|].
    split; [now apply fle_refl|now right].
Qed.

Lemma relevance_loop_stats (docs : list Document) :
  Forall (fun d => NN (Similarity d)) docs ->
  forall (i : Z) (total hi lo : float32) (w : W),
    NN hi -> NN lo ->
    exists total' hi' lo',
      fst (fst (run r logger (relevance_loop i docs total hi lo) w))
      = Some (total', hi', lo')
      /\ fle hi hi' /\ fle lo' lo
      /\ Forall (fun d => fle lo' (Similarity d) /\ fle (Similarity d) hi')
                docs
      /\ (hi' = hi \/ exists d, In d docs /\ hi' = Similarity d)
      /\ (lo' = lo \/ exists d, In d docs /\ lo' = Similarity d).
Proof.
  induction 1 as [|doc rest Hdoc _ IH]; intros i total hi lo w Hhi Hlo.
  - exists total, hi, lo. split; [reflexivity|].
    split; [now apply fle_refl|]. split; [now apply fle_refl|].
    split; [constructor|]. split; now left.
  - cbn [relevance_loop].
    destruct (truncateText_80 (Text doc)) as [preview ->].
    cbn [bind log_Printf]. rewrite !run_Log_value.
    destruct (running_max (Similarity doc) hi Hdoc Hhi)
      as (Hup & Hs & Hhi1).
    destruct (running_min (Similarity doc) lo Hdoc Hlo)
      as (Hdown & Hs' & Hlo1).
    match goal with
    | |- context [run r logger (relevance_loop ?i' rest ?t' ?h' ?l') ?w'] =>
        destruct (IH i' t' h' l' w'
                    ltac:(now destruct Hup as (_ & ? & _))
                    ltac:(now destruct Hdown as (? & _ & _)))
          as (total' & hi' & lo' & Hrun & Hhi' & Hlo' & Hall & Hmax & Hmin)
    end.
    exists total', hi', lo'. split; [exact Hrun|].
    split; [eapply fle_trans; eassumption|].
    split; [eapply fle_trans; eassumption|].
    split; [|split].
    + constructor; [|exact Hall].
      split; eapply fle_trans; eassumption.
    + destruct Hmax as [->|(d & Hin & ->)].
      * destruct Hhi1 as [->| ->]; [now left|].
        right. exists doc. split; [now left|reflexivity].
      * right. exists d. split; [now right|reflexivity].
    + destruct Hmin as [->|(d & Hin & ->)].
      * destruct Hlo1 as [->| ->]; [now left|].
        right. exists doc. split; [now left|reflexivity].
      * right. exists d. split; [now right|reflexivity].
Qed.

End StatisticsFacts.

(** X22. The statistics of the relevance analysis: entered as
    [GenerateResponse] enters it, with the first similarity as running
    maximum and minimum, the loop does not panic, and the maximum and
    the minimum it yields are similarities of the list that bound every
    similarity of the list. *)
Theorem relevance_statistics_are_attained
        (error W : Type) (r : RAGEngine error W)
        (logger : LogLine error -> W -> W)
        (first : Document) (rest : list Document) (w : W) :
  unit_similarities (first :: rest) ->
  exists total hi lo,
    fst (fst (run r logger
                  (relevance_loop 0 (first :: rest) zero
                                  (Similarity first) (Similarity first))
                  w))
    = Some (total, hi, lo)
    /\ (exists d, In d (first :: rest) /\ hi = Similarity d)
    /\ (exists d, In d (first :: rest) /\ lo = Similarity d)
    /\ forall d, In d (first :: rest) ->
                 leb lo (Similarity d) = true
                 /\ leb (Similarity d) hi = true.
Proof.
  intro Hunit.
  assert (Hnn : Forall (fun d => Binary32.NN (Similarity d))
                       (first :: rest)).
  { eapply Forall_impl; [|exact Hunit].
    intros d Hd. now apply unit_similarity_NN. }
  pose proof (Forall_inv Hnn) as Hfirst.
  destruct (relevance_loop_stats r logger (first :: rest) Hnn 0 zero
              (Similarity first) (Similarity first) w Hfirst Hfirst)
    as (total & hi & lo & Hrun & _ & _ & Hall & Hmax & Hmin).
  exists total, hi, lo. split; [exact Hrun|]. split; [|split].
  - destruct Hmax as [->|Hd]; [|exact Hd].
    exists first. split; [now left|reflexivity].
  - destruct Hmin as [->|Hd]; [|exact Hd].
    exists first. split; [now left|reflexivity].
  - intros d Hin. rewrite Forall_forall in Hall.
    destruct (Hall d Hin) as ((_ & _ & Hlo) & (_ & _ & Hhi)).
    split; assumption.
Qed.

Lemma relevance_statistics_are_attained_witness :
  exists total hi lo,
    fst (fst (run (error := unit) test_engine test_logger
                  (relevance_loop 0 [cats f0_6; cats f0_9] zero
                                  (Similarity (cats f0_6))
                                  (Similarity (cats f0_6)))
                  fresh_stubs))
    = Some (total, hi, lo)
    /\ (exists d, In d [cats f0_6; cats f0_9] /\ hi = Similarity d)
    /\ (exists d, In d [cats f0_6; cats f0_9] /\ lo = Similarity d)
    /\ forall d, In d [cats f0_6; cats f0_9] ->
                 leb lo (Similarity d) = true
                 /\ leb (Similarity d) hi = true.
Proof.
  apply (relevance_statistics_are_attained
           unit TestWorld test_engine test_logger
           (cats f0_6) [cats f0_9] fresh_stubs).
  repeat (constructor; [vm_compute; auto|]). constructor.
Defined.

(** ** ChunkText: what the chunks keep of the text *)

Module CoverFacts.
Import GoStringFacts TrimFacts.















End CoverFacts.

Section ChunkCover.
Import GoStringFacts TrimFacts CoverFacts.

Variables (text : string) (chunkSize overlap : Z).
Hypothesis Hoverlap : 0 <= overlap < 2 ^ 63.
Hypothesis Hlen : len text < 2 ^ 63.





End ChunkCover.


